(** * Converge for Obsidian: chunking, the vector index, similarity search
      and the chat and discovery state, modelled in Rocq

    The plugin is one TypeScript file.  Its pure helpers ([estimateTokens],
    [chunkText], [cosineSimilarity], [searchIndex]) are embedded as Rocq
    functions; the methods of [ConvergePlugin] and [ChatView] that mutate
    [this] are embedded as functions on explicit state records, and the
    results of the host calls they await (vault reads, HTTP calls) are
    passed in as outcomes.

    Part I holds the program, Part II its properties. *)

From Stdlib Require Import ZArith Lia List Floats Reals Lra String Ascii.
From Stdlib Require Import Uint63 Permutation.
From stdpp Require Import base list gmap strings sorting.

(* ################################################################## *)
(** * Part I: the program *)
(* ################################################################## *)

(* ================================================================== *)
(** ** JavaScript numbers *)
(* ================================================================== *)

(** Scores are JavaScript [number]s.  The operations the source applies to
    them are collected in an interface with two instances: IEEE 754
    binary64 (the kernel's primitive floats, which is what the program
    runs on) and the real numbers (exact arithmetic). *)
Class Number (num : Type) := {
  zero : num;
  add : num -> num -> num;
  sub : num -> num -> num;
  mul : num -> num -> num;
  div : num -> num -> num;
  sqrt : num -> num;            (* Math.sqrt *)
  ltb : num -> num -> bool;     (* x < y *)
  leb : num -> num -> bool;     (* x <= y *)
  of_nat : nat -> num           (* an array length used as a number *)
}.

Declare Scope num_scope.
Delimit Scope num_scope with num.
Notation "x + y" := (add x y) : num_scope.
Notation "x - y" := (sub x y) : num_scope.
Notation "x * y" := (mul x y) : num_scope.
Notation "x / y" := (div x y) : num_scope.
Notation "x <? y" := (ltb x y) : num_scope.
Notation "x >? y" := (ltb y x) : num_scope.
Notation "x >=? y" := (leb y x) : num_scope.

#[export] Instance float64 : Number float := {|
  zero := 0%float;
  add := PrimFloat.add;
  sub := PrimFloat.sub;
  mul := PrimFloat.mul;
  div := PrimFloat.div;
  sqrt := PrimFloat.sqrt;
  ltb := PrimFloat.ltb;
  leb := PrimFloat.leb;
  of_nat := fun n => PrimFloat.of_uint63 (Uint63.of_Z (Z.of_nat n))
|}.

#[export] Instance exact : Number R := {|
  zero := 0%R;
  add := Rplus;
  sub := Rminus;
  mul := Rmult;
  div := Rdiv;
  sqrt := R_sqrt.sqrt;
  ltb := fun x y => if Rlt_dec x y then true else false;
  leb := fun x y => if Rle_dec x y then true else false;
  of_nat := INR
|}.

(** The laws of an ordered number system, as far as the program relies on
    them: [<] is a strict weak order, [<=] is the complement of its
    converse, and the sign of a difference tells the order of its
    operands.  Binary64 obeys them on every value but NaN. *)
Class OrderedNumber (num : Type) `{Number num} : Prop := {
  ltb_asym : forall x y : num, ltb x y = true -> ltb y x = false;
  ltb_negtrans : forall x y z : num,
    ltb x y = false -> ltb y z = false -> ltb x z = false;
  leb_ltb : forall x y : num, leb x y = negb (ltb y x);
  sub_pos : forall x y : num, ltb zero (sub y x) = ltb x y
}.

(* ================================================================== *)
(** ** Outcomes of calls that may throw or reject *)
(* ================================================================== *)

Inductive Outcome (A : Type) : Type :=
| Resolved (a : A)
| Rejected (message : string).
Arguments Resolved {A} a.
Arguments Rejected {A} message.

#[export] Instance Outcome_ret : MRet Outcome := fun A a => Resolved a.
#[export] Instance Outcome_bind : MBind Outcome := fun A B k o =>
  match o with
  | Resolved a => k a
  | Rejected e => Rejected e
  end.

(* ================================================================== *)
(** ** The data model *)
(* ================================================================== *)

Record TFile := { path : string; basename : string; extension : string }.

Inductive TAbstractFile :=
| File (f : TFile)
| Folder (folder_path : string).

Inductive Role := user | assistant | system.

Record ChatMessage := { role : Role; content : string }.

(** Line numbers are the loop counter of [chunkText] and differences of
    it: integers. *)
Record TextChunk := { text : string; startLine : Z; endLine : Z }.

(* ================================================================== *)
(** ** The chunker *)
(* ================================================================== *)

(** [Math.ceil(text.length / 4)].  A string is modelled as the sequence of
    its code units, so that [String.length] is the [length] of the
    source. *)
Definition estimateTokens (text : string) : nat :=
  (String.length text + 3) / 4.

Definition newline : ascii := "010"%char.

(** [text.split('\n')]: the pieces between line feeds; never empty. *)
Fixpoint split_lines (text : string) : list string :=
  match text with
  | EmptyString => [EmptyString]
  | String c rest =>
      if Ascii.eqb c newline then EmptyString :: split_lines rest
      else match split_lines rest with
           | line :: lines => String c line :: lines
           | [] => [String c EmptyString]
           end
  end.

(** [lines.join('\n')] *)
Definition join_lines (lines : list string) : string :=
  String.concat (String newline EmptyString) lines.

(** The inner loop of [chunkText], which seeds the next chunk: [j] runs
    from the last line of the closed buffer backward (the buffer is passed
    reversed), and a line is taken as long as [overlapSize < overlap] held
    before it was added. *)
Fixpoint overlap_loop (overlap : nat) (reversed : list string)
    (overlapLines : list string) (overlapSize : nat) : list string * nat :=
  match reversed with
  | [] => (overlapLines, overlapSize)
  | line :: before =>
      if (overlapSize <? overlap)%nat
      then overlap_loop overlap before (line :: overlapLines)
             (overlapSize + estimateTokens line)
      else (overlapLines, overlapSize)
  end.

(** The local variables of [chunkText]. *)
Record Chunker := {
  out : list TextChunk;          (* chunks *)
  currentChunk : list string;
  currentSize : nat;
  currentStart : Z               (* startLine *)
}.

(** One turn of the outer loop, at line [i]. *)
Definition chunk_step (chunkSize overlap : nat) (st : Chunker) (i : Z)
    (line : string) : Chunker :=
  let lineTokens := estimateTokens line in
  let st' :=
    if (chunkSize <? currentSize st + lineTokens)%nat
       && (0 <? length (currentChunk st))%nat
    then
      let closed := {| text := join_lines (currentChunk st);
                       startLine := currentStart st;
                       endLine := i - 1 |} in
      let '(overlapLines, overlapSize) :=
        overlap_loop overlap (rev (currentChunk st)) [] 0 in
      {| out := out st ++ [closed];
         currentChunk := overlapLines;
         currentSize := overlapSize;
         currentStart := i - Z.of_nat (length overlapLines) |}
    else st in
  {| out := out st';
     currentChunk := currentChunk st' ++ [line];
     currentSize := currentSize st' + lineTokens;
     currentStart := currentStart st' |}.

Fixpoint chunk_loop (chunkSize overlap : nat) (lines : list string) (i : Z)
    (st : Chunker) : Chunker :=
  match lines with
  | [] => st
  | line :: rest =>
      chunk_loop chunkSize overlap rest (i + 1)
        (chunk_step chunkSize overlap st i line)
  end.

Definition chunkText (text : string) (chunkSize overlap : nat)
    : list TextChunk :=
  let lines := split_lines text in
  let st := chunk_loop chunkSize overlap lines 0
              {| out := []; currentChunk := []; currentSize := 0;
                 currentStart := 0 |} in
  if (0 <? length (currentChunk st))%nat
  then out st ++ [ {| text := join_lines (currentChunk st);
                      startLine := currentStart st;
                      endLine := Z.of_nat (length lines) - 1 |} ]
  else out st.

(** *** Vocabulary of the chunker's properties *)

Definition contains_newline (text : string) : bool :=
  existsb (fun c => Ascii.eqb c newline) (list_ascii_of_string text).

(** The estimated tokens of some lines together. *)
Definition tokens_of (lines : list string) : nat :=
  sum_list_with estimateTokens lines.

(** The lines numbered [s] to [e], both included. *)
Definition line_range (lines : list string) (s e : Z) : list string :=
  take (Z.to_nat (e + 1 - s)) (drop (Z.to_nat s) lines).

(** A chunk is a run of whole lines of the input. *)
Definition whole_lines (lines : list string) (c : TextChunk) : Prop :=
  (0 <= startLine c <= endLine c)%Z /\
  (endLine c < Z.of_nat (length lines))%Z /\
  text c = join_lines (line_range lines (startLine c) (endLine c)).

(** Chunk [c'] comes next after chunk [c]: it starts inside [c] or right
    after it and ends later.  The lines they share are the window that
    seeded [c']; without its first line the window stays below [overlap],
    and it stops short of the start of [c] only once it has reached
    [overlap]. *)
Definition follows (lines : list string) (overlap : nat) (c c' : TextChunk)
    : Prop :=
  (startLine c <= startLine c' <= endLine c + 1)%Z /\
  (endLine c < endLine c')%Z /\
  let window := line_range lines (startLine c') (endLine c) in
  (window = [] \/ tokens_of (tail window) < overlap) /\
  (startLine c' = startLine c \/ overlap <= tokens_of window).

(** A sequence of chunks, latest first, that starts at line 0 and in which
    each chunk follows the one before it. *)
Fixpoint chunk_chain (lines : list string) (overlap : nat)
    (latest_first : list TextChunk) : Prop :=
  match latest_first with
  | [] => True
  | c' :: earlier =>
      whole_lines lines c' /\
      match earlier with
      | [] => startLine c' = 0%Z
      | c :: _ => follows lines overlap c c'
      end /\
      chunk_chain lines overlap earlier
  end.

(** The first line that chunk number [k] adds to the lines of the chunks
    before it. *)
Definition new_from (cs : list TextChunk) (k : nat) : Z :=
  match k with
  | 0 => 0%Z
  | S k' => match cs !! k' with
            | Some c => (endLine c + 1)%Z
            | None => 0%Z
            end
  end.

(** The chunk that the buffer of the chunker would make at line [i]. *)
Definition pending (st : Chunker) (i : Z) : TextChunk :=
  {| text := join_lines (currentChunk st);
     startLine := currentStart st;
     endLine := (i - 1)%Z |}.

(** What holds of the chunker's variables before line [i]. *)
Definition chunker_inv (lines : list string) (overlap : nat) (i : Z)
    (st : Chunker) : Prop :=
  (0 <= currentStart st <= i)%Z /\
  currentChunk st = line_range lines (currentStart st) (i - 1) /\
  currentSize st = tokens_of (currentChunk st) /\
  (i = 0%Z -> out st = []) /\
  ((0 < i)%Z ->
   (currentStart st < i)%Z /\
   chunk_chain lines overlap (pending st i :: rev (out st))).

(* ================================================================== *)
(** ** Array.prototype.sort *)
(* ================================================================== *)

(** ECMAScript sorts stably, reads a comparator result that is NaN as +0,
    and places [x] after [y] when [comparefn(x, y) > 0].  For a consistent
    comparator every conforming engine returns the same array; the model is
    the stable insertion sort. *)
Fixpoint sort_insert {A : Type} (after : A -> A -> bool) (x : A)
    (l : list A) : list A :=
  match l with
  | [] => [x]
  | y :: l' => if after x y then y :: sort_insert after x l' else x :: l
  end.

Fixpoint stable_sort {A : Type} (after : A -> A -> bool) (l : list A)
    : list A :=
  match l with
  | [] => []
  | x :: l' => sort_insert after x (stable_sort after l')
  end.

(** *** Vocabulary of the properties of sorting *)

(** Of two numbered elements the first is not to come after the second,
    and has the smaller number when neither is to come after the other. *)
Definition numbered_before {A : Type} (after : A -> A -> bool)
    (p q : nat * A) : Prop :=
  after (snd p) (snd q) = false /\
  (after (snd q) (snd p) = false -> fst p < fst q).

Definition after_numbered {A : Type} (after : A -> A -> bool)
    (p q : nat * A) : bool :=
  after (snd p) (snd q).

Section Program.
Context {num : Type} `{Number num}.
Local Open Scope num_scope.

Definition js_sort {A : Type} (comparefn : A -> A -> num) (l : list A)
    : list A :=
  stable_sort (fun x y => zero <? comparefn x y) l.

(* ================================================================== *)
(** ** Cosine similarity and index search *)
(* ================================================================== *)

Record IndexedChunk := {
  file : TFile;
  chunk_text : string;
  embedding : list num;
  chunk_startLine : Z;
  chunk_endLine : Z
}.

Record VaultIndex := { chunks : list IndexedChunk; lastUpdated : Z }.

Record MatchingChunk := {
  match_text : string;
  match_startLine : Z;
  match_endLine : Z;
  match_score : num
}.

Record SimilarNote := {
  note_file : TFile;
  score : num;
  selected : bool;
  matchingChunks : list MatchingChunk
}.

(** The [for] loop of [cosineSimilarity]: the two arrays are walked
    together (their lengths were found equal) and the three accumulators
    are updated from left to right. *)
Fixpoint cosine_loop (a b : list num) (dotProduct normA normB : num)
    : num * num * num :=
  match a, b with
  | x :: a', y :: b' =>
      cosine_loop a' b' (dotProduct + x * y) (normA + x * x) (normB + y * y)
  | _, _ => (dotProduct, normA, normB)
  end.

Definition cosineSimilarity (a b : list num) : num :=
  if negb (Nat.eqb (length a) (length b)) then zero
  else
    let '(dotProduct, normA, normB) := cosine_loop a b zero zero zero in
    dotProduct / (sqrt normA * sqrt normB).

Definition searchIndex (index : VaultIndex) (queryEmbedding : list num)
    (topK : nat) : list IndexedChunk :=
  let scored :=
    map (fun chunk => (chunk, cosineSimilarity queryEmbedding (embedding chunk)))
        (chunks index) in
  let sorted := js_sort (fun a b => snd b - snd a) scored in
  map fst (take topK sorted).


(* ================================================================== *)
(** ** The plugin: settings, host and persisted index *)
(* ================================================================== *)

(** The settings the modelled code reads.  The settings tab stores
    [chunkSize] and [topK] only when [parseInt] gives a number above 0 and
    [chunkOverlap] only when it is at least 0: they are counts. *)
Record ConvergeSettings := {
  apiKey : string;
  userName : string;
  systemPrompt : string;
  chunkSize : nat;
  chunkOverlap : nat;
  topK : nat;
  useSemanticSearch : bool;
  discoverThreshold : num
}.

(** One record of the persisted JSON document. *)
Record PersistedChunk := {
  filePath : string;
  persisted_text : string;
  persisted_embedding : list num;
  persisted_startLine : Z;
  persisted_endLine : Z
}.

Record PersistedIndex := {
  persisted_chunks : list PersistedChunk;
  persisted_lastUpdated : Z
}.

(** What [cache?.tags], [cache?.frontmatter?.tags] (when it is an array)
    and [cache?.links] hold for a file. *)
Record CachedMetadata := {
  cache_tags : option (list string);
  cache_frontmatter_tags : option (list string);
  cache_links : option (list string)
}.

(** The host application, as far as the modelled code asks it. *)
Record Host := {
  configDir : string;
  vault_files : gmap string TAbstractFile;         (* getAbstractFileByPath *)
  markdownFiles : list TFile;                      (* getMarkdownFiles() *)
  adapter_exists : string -> Outcome bool;
  adapter_read : string -> Outcome string;
  JSON_parse : string -> Outcome PersistedIndex;
  activeFile : option TFile;                       (* getActiveFile() *)
  fileCache : string -> option CachedMetadata;     (* getFileCache, by path *)
  firstLinkpathDest : string -> string -> option TFile
}.

Inductive Notice :=
| NoticeIndexingInProgress
| NoticeBuildingIndex
| NoticeIndexed (processed total : nat)
| NoticeIndexComplete (nchunks nfiles : nat)
| NoticeIndexingFailed (message : string)
| NoticeConfigureApiKey
| NoticeError (message : string)
| NoticeAdded (name : string)
| NoticeAddedCount (added : nat)
| NoticeNotFound (name : string)
| NoticeNoDropPath
| NoticeNoIndex
| NoticeNoActiveNote.

Inductive ConsoleLine :=
| LogNoSavedIndex
| LogIndexLoaded (nchunks : nat)
| LogIndexSaved (nchunks : nat)
| ErrorLoadIndex (message : string)
| ErrorSaveIndex (message : string)
| ErrorEmbedChunk (file_path message : string)
| ErrorIndexing (message : string).

Record ConvergePlugin := {
  settings : ConvergeSettings;
  vaultIndex : VaultIndex;
  isIndexing : bool;
  notices : list Notice;
  console : list ConsoleLine
}.

Definition set_vaultIndex (v : VaultIndex) (p : ConvergePlugin) :=
  {| settings := settings p; vaultIndex := v; isIndexing := isIndexing p;
     notices := notices p; console := console p |}.

Definition set_isIndexing (b : bool) (p : ConvergePlugin) :=
  {| settings := settings p; vaultIndex := vaultIndex p; isIndexing := b;
     notices := notices p; console := console p |}.

Definition notice (n : Notice) (p : ConvergePlugin) :=
  {| settings := settings p; vaultIndex := vaultIndex p;
     isIndexing := isIndexing p; notices := notices p ++ [n];
     console := console p |}.

Definition log (l : ConsoleLine) (p : ConvergePlugin) :=
  {| settings := settings p; vaultIndex := vaultIndex p;
     isIndexing := isIndexing p; notices := notices p;
     console := console p ++ [l] |}.

(** The plugin object as its field initialisers leave it. *)
Definition new_plugin (s : ConvergeSettings) : ConvergePlugin :=
  {| settings := s; vaultIndex := {| chunks := []; lastUpdated := 0 |};
     isIndexing := false; notices := []; console := [] |}.

Definition indexPath (h : Host) : string :=
  (configDir h ++ "/plugins/converge-obsidian/index.json")%string.

(* ================================================================== *)
(** ** loadIndex *)
(* ================================================================== *)

(** The body of the loop over [parsed.chunks]: the stored path is looked
    up again, and the record is kept when the path names a file. *)
Definition revive (h : Host) (item : PersistedChunk) : option IndexedChunk :=
  match vault_files h !! filePath item with
  | Some (File f) =>
      Some {| file := f; chunk_text := persisted_text item;
              embedding := persisted_embedding item;
              chunk_startLine := persisted_startLine item;
              chunk_endLine := persisted_endLine item |}
  | _ => None            (* Skip chunks for files that no longer exist *)
  end.

(** The [try] block of [loadIndex]. *)
Definition loadIndex_try (h : Host) (p : ConvergePlugin)
    : Outcome ConvergePlugin :=
  found ← adapter_exists h (indexPath h);
  if negb found then mret (log LogNoSavedIndex p)
  else
    data ← adapter_read h (indexPath h);
    parsed ← JSON_parse h data;
    let chunks := omap (revive h) (persisted_chunks parsed) in
    mret (log (LogIndexLoaded (length chunks))
            (set_vaultIndex {| chunks := chunks;
                               lastUpdated := persisted_lastUpdated parsed |} p)).

(** [loadIndex]: the [try] block, and the [catch] that logs. *)
Definition loadIndex (h : Host) (p : ConvergePlugin) : Outcome ConvergePlugin :=
  match loadIndex_try h p with
  | Resolved p' => Resolved p'
  | Rejected e => Resolved (log (ErrorLoadIndex e) p)
  end.

(* ================================================================== *)
(** ** rebuildIndex *)
(* ================================================================== *)

(** [rebuildIndex] is an async function: it runs until it awaits, and goes
    on when the awaited promise settles.  Other handlers (a second
    [rebuildIndex] among them) run in between.  A suspended activation is
    the await it stands at together with its local variables. *)
Inductive RebuildPoint :=
| AwaitRead (file : TFile) (rest : list TFile)
    (chunks : list IndexedChunk) (processed total : nat)
| AwaitEmbedding (file : TFile) (chunk : TextChunk) (more : list TextChunk)
    (rest : list TFile) (chunks : list IndexedChunk) (processed total : nat)
| AwaitSave (nchunks nfiles : nat).

(** What an awaited promise resolves to. *)
Inductive Value :=
| VText (s : string)
| VEmbedding (e : list num)
| VUnit.

(** The [finally] block. *)
Definition rebuild_finally (p : ConvergePlugin) : ConvergePlugin :=
  set_isIndexing false p.

(** The outer [catch] block, then [finally]. *)
Definition rebuild_catch (message : string) (p : ConvergePlugin)
    : ConvergePlugin :=
  rebuild_finally (notice (NoticeIndexingFailed message)
                     (log (ErrorIndexing message) p)).

(** The head of the loop over the files; after the last file the new index
    replaces the old one and [saveIndex] is awaited. *)
Definition next_file (now : Z) (files : list TFile)
    (chunks : list IndexedChunk) (processed total : nat) (p : ConvergePlugin)
    : ConvergePlugin * option RebuildPoint :=
  match files with
  | file :: rest => (p, Some (AwaitRead file rest chunks processed total))
  | [] =>
      (set_vaultIndex {| chunks := chunks; lastUpdated := now |} p,
       Some (AwaitSave (length chunks) total))
  end.

(** The head of the loop over the chunks of one file; after the last one
    the file is counted. *)
Definition next_chunk (now : Z) (file : TFile) (textChunks : list TextChunk)
    (rest : list TFile) (chunks : list IndexedChunk) (processed total : nat)
    (p : ConvergePlugin) : ConvergePlugin * option RebuildPoint :=
  match textChunks with
  | chunk :: more =>
      (p, Some (AwaitEmbedding file chunk more rest chunks processed total))
  | [] =>
      let processed' := S processed in
      let p' := if (processed' mod 10 =? 0)%nat
                then notice (NoticeIndexed processed' total) p else p in
      next_file now rest chunks processed' total p'
  end.

(** The awaited promise of a suspended activation settles with [r] at time
    [now]; the activation runs to its next await or to its end. *)
Definition resume (now : Z) (pt : RebuildPoint) (r : Outcome Value)
    (p : ConvergePlugin) : ConvergePlugin * option RebuildPoint :=
  match pt with
  | AwaitRead file rest chunks processed total =>
      match r with
      | Resolved (VText content) =>
          next_chunk now file
            (chunkText content (chunkSize (settings p))
               (chunkOverlap (settings p)))
            rest chunks processed total p
      | Resolved _ => (rebuild_catch "TypeError" p, None)
      | Rejected e => (rebuild_catch e p, None)
      end
  | AwaitEmbedding file chunk more rest chunks processed total =>
      match r with
      | Resolved (VEmbedding e) =>
          next_chunk now file more rest
            (chunks ++ [ {| file := file; chunk_text := text chunk;
                            embedding := e;
                            chunk_startLine := startLine chunk;
                            chunk_endLine := endLine chunk |} ])
            processed total p
      | Resolved _ =>
          next_chunk now file more rest chunks processed total
            (log (ErrorEmbedChunk (path file) "TypeError") p)
      | Rejected e =>
          next_chunk now file more rest chunks processed total
            (log (ErrorEmbedChunk (path file) e) p)
      end
  | AwaitSave nchunks nfiles =>
      (* saveIndex catches a failed write itself *)
      let p' := match r with
                | Resolved _ => log (LogIndexSaved nchunks) p
                | Rejected e => log (ErrorSaveIndex e) p
                end in
      (rebuild_finally (notice (NoticeIndexComplete nchunks nfiles) p'), None)
  end.

(** A call of [rebuildIndex] at time [now], when the vault lists [files]:
    up to its first await, or to its return. *)
Definition rebuildIndex (files : list TFile) (now : Z) (p : ConvergePlugin)
    : ConvergePlugin * option RebuildPoint :=
  if isIndexing p then (notice NoticeIndexingInProgress p, None)
  else
    next_file now files [] 0 (length files)
      (notice NoticeBuildingIndex (set_isIndexing true p)).

(** The plugin together with the activations of [rebuildIndex] in flight. *)
Record World := { plugin : ConvergePlugin; inflight : list RebuildPoint }.

Inductive Event :=
| CallRebuildIndex (files : list TFile) (now : Z)
| Settle (k : nat) (r : Outcome Value) (now : Z).

Definition option_to_list {A : Type} (o : option A) : list A :=
  match o with Some a => [a] | None => [] end.

Definition step (w : World) (ev : Event) : World :=
  match ev with
  | CallRebuildIndex files now =>
      let '(p, pt) := rebuildIndex files now (plugin w) in
      {| plugin := p; inflight := inflight w ++ option_to_list pt |}
  | Settle k r now =>
      match inflight w !! k with
      | None => w
      | Some pt =>
          let '(p, pt') := resume now pt r (plugin w) in
          {| plugin := p;
             inflight := take k (inflight w) ++ option_to_list pt'
                         ++ drop (S k) (inflight w) |}
      end
  end.

Definition run (w : World) (trace : list Event) : World :=
  fold_left step trace w.

Definition new_world (s : ConvergeSettings) : World :=
  {| plugin := new_plugin s; inflight := [] |}.

(* ================================================================== *)
(** ** The chat view *)
(* ================================================================== *)

(** What [discoverContainer] shows. *)
Inductive DiscoverPanel :=
| PanelBlank
| PanelNoIndex
| PanelLoading
| PanelError (message : string)
| PanelNoSimilar
| PanelNoneAboveThreshold
| PanelList (shown : list SimilarNote).

Record ChatView := {
  messages : list ChatMessage;
  contextNotes : list TFile;
  isLoading : bool;
  semanticResults : list IndexedChunk;
  similarNotes : list SimilarNote;
  inputValue : string;                      (* inputEl.value *)
  discoverPanel : DiscoverPanel;
  view_notices : list Notice;
  requests : list (list ChatMessage)        (* bodies sent for completion *)
}.

Definition new_view : ChatView :=
  {| messages := []; contextNotes := []; isLoading := false;
     semanticResults := []; similarNotes := []; inputValue := "";
     discoverPanel := PanelBlank; view_notices := []; requests := [] |}.

Definition set_messages (m : list ChatMessage) (v : ChatView) :=
  {| messages := m; contextNotes := contextNotes v; isLoading := isLoading v;
     semanticResults := semanticResults v; similarNotes := similarNotes v;
     inputValue := inputValue v; discoverPanel := discoverPanel v;
     view_notices := view_notices v; requests := requests v |}.

Definition set_contextNotes (c : list TFile) (v : ChatView) :=
  {| messages := messages v; contextNotes := c; isLoading := isLoading v;
     semanticResults := semanticResults v; similarNotes := similarNotes v;
     inputValue := inputValue v; discoverPanel := discoverPanel v;
     view_notices := view_notices v; requests := requests v |}.

Definition set_isLoading (b : bool) (v : ChatView) :=
  {| messages := messages v; contextNotes := contextNotes v; isLoading := b;
     semanticResults := semanticResults v; similarNotes := similarNotes v;
     inputValue := inputValue v; discoverPanel := discoverPanel v;
     view_notices := view_notices v; requests := requests v |}.

Definition set_semanticResults (r : list IndexedChunk) (v : ChatView) :=
  {| messages := messages v; contextNotes := contextNotes v;
     isLoading := isLoading v; semanticResults := r;
     similarNotes := similarNotes v; inputValue := inputValue v;
     discoverPanel := discoverPanel v; view_notices := view_notices v;
     requests := requests v |}.

Definition set_similarNotes (n : list SimilarNote) (v : ChatView) :=
  {| messages := messages v; contextNotes := contextNotes v;
     isLoading := isLoading v; semanticResults := semanticResults v;
     similarNotes := n; inputValue := inputValue v;
     discoverPanel := discoverPanel v; view_notices := view_notices v;
     requests := requests v |}.

Definition set_inputValue (i : string) (v : ChatView) :=
  {| messages := messages v; contextNotes := contextNotes v;
     isLoading := isLoading v; semanticResults := semanticResults v;
     similarNotes := similarNotes v; inputValue := i;
     discoverPanel := discoverPanel v; view_notices := view_notices v;
     requests := requests v |}.

Definition set_discoverPanel (d : DiscoverPanel) (v : ChatView) :=
  {| messages := messages v; contextNotes := contextNotes v;
     isLoading := isLoading v; semanticResults := semanticResults v;
     similarNotes := similarNotes v; inputValue := inputValue v;
     discoverPanel := d; view_notices := view_notices v;
     requests := requests v |}.

Definition view_notice (n : Notice) (v : ChatView) :=
  {| messages := messages v; contextNotes := contextNotes v;
     isLoading := isLoading v; semanticResults := semanticResults v;
     similarNotes := similarNotes v; inputValue := inputValue v;
     discoverPanel := discoverPanel v; view_notices := view_notices v ++ [n];
     requests := requests v |}.

Definition record_request (r : list ChatMessage) (v : ChatView) :=
  {| messages := messages v; contextNotes := contextNotes v;
     isLoading := isLoading v; semanticResults := semanticResults v;
     similarNotes := similarNotes v; inputValue := inputValue v;
     discoverPanel := discoverPanel v; view_notices := view_notices v;
     requests := requests v ++ [r] |}.

(* ================================================================== *)
(** ** Discovery: findSimilarNotes and filterSimilarNotes *)
(* ================================================================== *)

(** A value of the [fileScores] map. *)
Record FileScore := {
  entry_file : TFile;
  scores : list num;
  entry_chunks : list MatchingChunk
}.

(** [Map<string, ...>]: keys in insertion order. *)
Definition map_has (key : string) (m : list (string * FileScore)) : bool :=
  existsb (fun kv => String.eqb (fst kv) key) m.

(** [Map.set] of a key the map does not have. *)
Definition map_set (key : string) (e : FileScore)
    (m : list (string * FileScore)) : list (string * FileScore) :=
  m ++ [(key, e)].

(** [Map.get], followed by a mutation of the entry object it returns. *)
Fixpoint map_update (key : string) (f : FileScore -> FileScore)
    (m : list (string * FileScore)) : list (string * FileScore) :=
  match m with
  | [] => []
  | (k, e) :: m' =>
      if String.eqb k key then (k, f e) :: m'
      else (k, e) :: map_update key f m'
  end.

(** One turn of the loop over the chunks of the index. *)
Definition group_step (queryPath : string) (queryEmbedding : list num)
    (fileScores : list (string * FileScore)) (chunk : IndexedChunk)
    : list (string * FileScore) :=
  if String.eqb (path (file chunk)) queryPath then fileScores   (* Skip self *)
  else
    let similarity := cosineSimilarity queryEmbedding (embedding chunk) in
    let key := path (file chunk) in
    let fileScores' :=
      if negb (map_has key fileScores)
      then map_set key {| entry_file := file chunk; scores := [];
                          entry_chunks := [] |} fileScores
      else fileScores in
    map_update key
      (fun entry =>
         {| entry_file := entry_file entry;
            scores := scores entry ++ [similarity];
            entry_chunks := entry_chunks entry ++
              [ {| match_text := chunk_text chunk;
                   match_startLine := chunk_startLine chunk;
                   match_endLine := chunk_endLine chunk;
                   match_score := similarity |} ] |})
      fileScores'.

(** The function mapped over [fileScores.values()]. *)
Definition similar_of_entry (threshold : num) (entry : FileScore)
    : SimilarNote :=
  let avgScore :=
    fold_left (fun a b => a + b) (scores entry) zero
    / of_nat (length (scores entry)) in
  let sortedChunks :=
    js_sort (fun a b => match_score b - match_score a) (entry_chunks entry) in
  {| note_file := entry_file entry;
     score := avgScore;
     selected := avgScore >=? threshold;
     matchingChunks := take 5 sortedChunks |}.

(** The ranked list [findSimilarNotes] assigns to [this.similarNotes]. *)
Definition rank_similar (index : VaultIndex) (queryPath : string)
    (queryEmbedding : list num) (threshold : num) : list SimilarNote :=
  let fileScores :=
    fold_left (group_step queryPath queryEmbedding) (chunks index) [] in
  js_sort (fun a b => score b - score a)
    (map (fun kv => similar_of_entry threshold (snd kv)) fileScores).

Definition renderSimilarNotes (p : ConvergePlugin) (v : ChatView) : ChatView :=
  match similarNotes v with
  | [] => set_discoverPanel PanelNoSimilar v
  | _ =>
      let threshold := discoverThreshold (settings p) in
      match List.filter (fun n => score n >=? threshold) (similarNotes v) with
      | [] => set_discoverPanel PanelNoneAboveThreshold v
      | filtered => set_discoverPanel (PanelList filtered) v
      end
  end.

Definition filterSimilarNotes (p : ConvergePlugin) (v : ChatView) : ChatView :=
  let threshold := discoverThreshold (settings p) in
  renderSimilarNotes p
    (set_similarNotes
       (map (fun note =>
               {| note_file := note_file note; score := score note;
                  selected := score note >=? threshold;
                  matchingChunks := matchingChunks note |})
            (similarNotes v))
       v).

(** The threshold slider's [oninput] handler. *)
Definition set_threshold (val : num) (p : ConvergePlugin) : ConvergePlugin :=
  {| settings :=
       {| apiKey := apiKey (settings p); userName := userName (settings p);
          systemPrompt := systemPrompt (settings p);
          chunkSize := chunkSize (settings p);
          chunkOverlap := chunkOverlap (settings p);
          topK := topK (settings p);
          useSemanticSearch := useSemanticSearch (settings p);
          discoverThreshold := val |};
     vaultIndex := vaultIndex p; isIndexing := isIndexing p;
     notices := notices p; console := console p |}.

(** The answer of [fetch] to a streaming completion request: the status,
    the text of an error body, and the decoded pieces that the reader of
    the body delivers before it reports [done] ([None] when the response
    has no body). *)
Record HttpResponse := {
  ok : bool;
  status : string;
  response_text : Outcome string;
  response_body : option (list (Outcome string))
}.

(** The services a handler of the view awaits.  [parse_delta data] stands
    for [JSON.parse(data).choices?.[0]?.delta?.content]: [None] when the
    fragment does not parse or holds no text. *)
Record Services := {
  cachedRead : TFile -> Outcome string;
  getEmbedding : string -> Outcome (list num);
  fetch_completion : list ChatMessage -> Outcome HttpResponse;
  parse_delta : string -> option string
}.

(** [content.slice(0, n)] *)
Definition slice_prefix (n : nat) (s : string) : string := substring 0 n s.

Definition findSimilarNotes (sv : Services) (p : ConvergePlugin)
    (f : TFile) (v : ChatView) : ChatView :=
  if (length (chunks (vaultIndex p)) =? 0)%nat
  then set_discoverPanel PanelNoIndex v
  else
    let v := set_discoverPanel PanelLoading v in
    match (content ← cachedRead sv f;
           getEmbedding sv (slice_prefix 2000 content)) with
    | Resolved queryEmbedding =>
        filterSimilarNotes p
          (set_similarNotes
             (rank_similar (vaultIndex p) (path f) queryEmbedding
                (discoverThreshold (settings p)))
             v)
    | Rejected e => set_discoverPanel (PanelError e) v
    end.

(* ================================================================== *)
(** ** The context list *)
(* ================================================================== *)

(** [this.contextNotes.find(f => f.path === p)] *)
Definition find_path (p : string) (notes : list TFile) : option TFile :=
  List.find (fun f => String.eqb (path f) p) notes.

(** The guarded push that every picker ends in. *)
Definition push_if_new (f : TFile) (notes : list TFile) : list TFile :=
  match find_path (path f) notes with
  | Some _ => notes
  | None => notes ++ [f]
  end.

Definition autoAddCurrentNote (h : Host) (v : ChatView) : ChatView :=
  match activeFile h with
  | Some active =>
      if String.eqb (extension active) "md"
      then match find_path (path active) (contextNotes v) with
           | Some _ => v
           | None => set_contextNotes [active] v   (* Replace with current note *)
           end
      else v
  | None => v
  end.

(** The callback of the note picker. *)
Definition showNoteSuggest (f : TFile) (v : ChatView) : ChatView :=
  match find_path (path f) (contextNotes v) with
  | Some _ => v
  | None =>
      view_notice (NoticeAdded (basename f))
        (set_contextNotes (contextNotes v ++ [f]) v)
  end.

(** [hasTag] as the tag picker computes it for one file. *)
Definition hasTag (cache : option CachedMetadata) (tag : string) : bool :=
  let inBody :=
    match cache with
    | Some c => match cache_tags c with
                | Some ts => existsb (fun t => String.eqb t tag) ts
                | None => false
                end
    | None => false
    end in
  if inBody then true
  else match cache with
       | Some c => match cache_frontmatter_tags c with
                   | Some fm =>
                       existsb (fun t => String.eqb ("#" ++ t) tag) fm
                   | None => false
                   end
       | None => false
       end.

(** The loops of the tag and folder pickers and of [addLinkedNotes]:
    [notes] is [this.contextNotes], [added] the counter. *)
Fixpoint add_matching (keep : TFile -> bool) (files : list TFile)
    (notes : list TFile) (added : nat) : list TFile * nat :=
  match files with
  | [] => (notes, added)
  | f :: rest =>
      if keep f
      then match find_path (path f) notes with
           | Some _ => add_matching keep rest notes added
           | None => add_matching keep rest (notes ++ [f]) (S added)
           end
      else add_matching keep rest notes added
  end.

(** The callback of the tag picker. *)
Definition showTagSuggest (h : Host) (tag : string) (v : ChatView) : ChatView :=
  let '(notes, added) :=
    add_matching (fun f => hasTag (fileCache h (path f)) tag)
      (markdownFiles h) (contextNotes v) 0 in
  view_notice (NoticeAddedCount added) (set_contextNotes notes v).

(** The callback of the folder picker. *)
Definition showFolderSuggest (h : Host) (folder : string) (v : ChatView)
    : ChatView :=
  let '(notes, added) :=
    add_matching (fun f => String.prefix (folder ++ "/") (path f))
      (markdownFiles h) (contextNotes v) 0 in
  view_notice (NoticeAddedCount added) (set_contextNotes notes v).

Definition addLinkedNotes (h : Host) (v : ChatView) : ChatView :=
  match activeFile h with
  | None => view_notice NoticeNoActiveNote v
  | Some active =>
      let links :=
        match fileCache h (path active) with
        | Some c => match cache_links c with Some ls => ls | None => [] end
        | None => []
        end in
      let '(notes, added) :=
        add_matching (fun _ => true)
          (omap (fun link => firstLinkpathDest h link (path active)) links)
          (contextNotes v) 0 in
      view_notice (NoticeAddedCount added) (set_contextNotes notes v)
  end.

(** The drop handler of the context zone, from the point where the dragged
    text has been turned into [filePath]. *)
Definition setupDropZone (h : Host) (filePath : string) (v : ChatView)
    : ChatView :=
  if String.eqb filePath "" then view_notice NoticeNoDropPath v else
  match vault_files h !! filePath with
  | Some (File f) =>
      if String.eqb (extension f) "md"
      then match find_path (path f) (contextNotes v) with
           | Some _ => v
           | None =>
               view_notice (NoticeAdded (basename f))
                 (set_contextNotes (contextNotes v ++ [f]) v)
           end
      else view_notice (NoticeNotFound filePath) v
  | _ => view_notice (NoticeNotFound filePath) v
  end.

(** The remove button of one entry of the list. *)
Definition removeContextNote (p : string) (v : ChatView) : ChatView :=
  set_contextNotes
    (List.filter (fun f => negb (String.eqb (path f) p)) (contextNotes v)) v.

Definition clearChat (v : ChatView) : ChatView :=
  set_contextNotes [] (set_semanticResults [] (set_messages [] v)).

(** What the user can do to the context list. *)
Inductive ContextAction :=
| DropFile (filePath : string)
| PickNote (f : TFile)
| PickTag (tag : string)
| PickFolder (folder : string)
| AddLinked
| ActiveLeafChange
| RemoveNote (p : string)
| NewChat.

Definition context_step (v : ChatView) (a : Host * ContextAction) : ChatView :=
  let h := fst a in
  match snd a with
  | DropFile filePath => setupDropZone h filePath v
  | PickNote f => showNoteSuggest f v
  | PickTag tag => showTagSuggest h tag v
  | PickFolder folder => showFolderSuggest h folder v
  | AddLinked => addLinkedNotes h v
  | ActiveLeafChange => autoAddCurrentNote h v
  | RemoveNote p => removeContextNote p v
  | NewChat => clearChat v
  end.

(* ================================================================== *)
(** ** Sending a chat message *)
(* ================================================================== *)

(** The white space that [trim] strips, as far as it lies in ASCII: tab,
    line feed, vertical tab, form feed, carriage return and space. *)
Definition is_whitespace (c : ascii) : bool :=
  match nat_of_ascii c with
  | 9 | 10 | 11 | 12 | 13 | 32 => true
  | _ => false
  end.

Fixpoint trim_start (s : string) : string :=
  match s with
  | String c rest => if is_whitespace c then trim_start rest else s
  | EmptyString => EmptyString
  end.

Definition reverse_string (s : string) : string :=
  string_of_list_ascii (rev (list_ascii_of_string s)).

(** [s.trim()] *)
Definition trim (s : string) : string :=
  reverse_string (trim_start (reverse_string (trim_start s))).

Definition nl : string := String newline EmptyString.

(** One line of a server-sent-event piece. *)
Definition sse_line (parse : string -> option string) (fullContent : string)
    (line : string) : string :=
  if String.prefix "data: " line
  then
    let data := substring 6 (String.length line - 6) line in
    if String.eqb data "[DONE]" then fullContent
    else match parse data with
         | Some delta => (fullContent ++ delta)%string
         | None => fullContent             (* Skip invalid JSON *)
         end
  else fullContent.

(** The [while (true)] loop over [reader.read()]. *)
Fixpoint read_stream (parse : string -> option string)
    (reads : list (Outcome string)) (fullContent : string) : Outcome string :=
  match reads with
  | [] => Resolved fullContent
  | Rejected e :: _ => Rejected e
  | Resolved piece :: rest =>
      read_stream parse rest
        (fold_left (sse_line parse) (split_lines piece) fullContent)
  end.

Definition callLLMStreaming (sv : Services) (msgs : list ChatMessage)
    : Outcome string :=
  response ← fetch_completion sv msgs;
  if negb (ok response)
  then
    errorText ← response_text response;
    Rejected ("API error " ++ status response ++ ": "
              ++ substring 0 200 errorText)%string
  else
    match response_body response with
    | None => Rejected "No response body"
    | Some reads => read_stream (parse_delta sv) reads ""
    end.

Definition performSemanticSearch (sv : Services) (p : ConvergePlugin)
    (query : string) (v : ChatView) : ChatView :=
  if String.eqb (trim query) "" then v
  else if (length (chunks (vaultIndex p)) =? 0)%nat
  then view_notice NoticeNoIndex v
  else
    match getEmbedding sv query with
    | Resolved queryEmbedding =>
        set_semanticResults
          (searchIndex (vaultIndex p) queryEmbedding (topK (settings p))) v
    | Rejected _ => v
    end.

(** The loop that reads the context notes. *)
Fixpoint read_context (sv : Services) (files : list TFile)
    (contextText : string) : Outcome string :=
  match files with
  | [] => Resolved contextText
  | f :: rest =>
      content ← cachedRead sv f;
      read_context sv rest
        (contextText ++ nl ++ nl ++ "--- " ++ basename f ++ " ---" ++ nl
         ++ content)%string
  end.

Definition semantic_context (results : list IndexedChunk)
    (contextText : string) : string :=
  match results with
  | [] => contextText
  | _ =>
      fold_left
        (fun acc chunk =>
           (acc ++ nl ++ nl ++ "[From " ++ basename (file chunk) ++ "]:" ++ nl
            ++ chunk_text chunk)%string)
        results
        (contextText ++ nl ++ nl ++ "--- Semantically Relevant Chunks ---")%string
  end.

Definition system_content (s : ConvergeSettings) (contextText : string)
    : string :=
  let withName :=
    if String.eqb (userName s) "" then systemPrompt s
    else (systemPrompt s ++ nl ++ nl ++ "The user's name is " ++ userName s
          ++ ".")%string in
  if String.eqb contextText "" then withName
  else (withName ++ nl ++ nl ++ "Context from user's notes:"
        ++ contextText)%string.

(** [sendMessage]: the view it leaves, and whether its promise resolves. *)
Definition sendMessage (sv : Services) (p : ConvergePlugin) (v : ChatView)
    : ChatView * Outcome unit :=
  let userInput := trim (inputValue v) in
  if String.eqb userInput "" || isLoading v then (v, Resolved tt)
  else if String.eqb (apiKey (settings p)) ""
  then (view_notice NoticeConfigureApiKey v, Resolved tt)
  else
    let v1 :=
      set_inputValue ""
        (set_messages (messages v ++ [ {| role := user; content := userInput |} ])
           (set_isLoading true v)) in
    let v2 :=
      if useSemanticSearch (settings p)
         && (0 <? length (chunks (vaultIndex p)))%nat
      then performSemanticSearch sv p userInput v1 else v1 in
    match read_context sv (contextNotes v2) "" with
    | Rejected e => (v2, Rejected e)
    | Resolved notesText =>
        let contextText := semantic_context (semanticResults v2) notesText in
        let apiMessages :=
          {| role := system;
             content := system_content (settings p) contextText |}
          :: messages v2 in
        let v3 := record_request apiMessages v2 in
        let v4 :=
          match callLLMStreaming sv apiMessages with
          | Resolved response =>
              set_messages
                (messages v3 ++ [ {| role := assistant; content := response |} ])
                v3
          | Rejected e =>
              set_messages (removelast (messages v3))
                (view_notice (NoticeError e) v3)
          end in
        (set_isLoading false v4, Resolved tt)
    end.

(* ================================================================== *)
(** ** Vocabulary of the properties *)
(* ================================================================== *)

(** The sum of the products of two vectors, added up from the left
    starting at [acc]. *)
Definition dot_from (acc : num) (a b : list num) : num :=
  fold_left (fun s xy => s + fst xy * snd xy) (combine a b) acc.

(** dot(a, b); the squared norm of [a] is [dot a a]. *)
Definition dot (a b : list num) : num := dot_from zero a b.

(** The comparator [(a, b) => b - a] is consistent on three scores, in
    the sense ECMAScript asks of the argument of [sort], and agrees with
    [>=] on them. *)
Definition comparable3 (s t u : num) : bool :=
  implb (zero <? t - s) (negb (zero <? s - t))
  && implb (negb (zero <? t - s) && negb (zero <? u - t))
       (negb (zero <? u - s))
  && Bool.eqb (s >=? t) (negb (zero <? t - s)).

(** It is so on all scores of a list.  In binary64 this holds exactly of
    the lists without NaN. *)
Definition comparable_scores (scores : list num) : bool :=
  forallb (fun s =>
    forallb (fun t => forallb (fun u => comparable3 s t u) scores) scores)
    scores.

(** Index [i] is ranked before index [j]: its score is not below, and
    when the two scores tie, [i] is the smaller index. *)
Definition ranks_before (scores : list num) (i j : nat) : Prop :=
  match scores !! i, scores !! j with
  | Some si, Some sj =>
      (si >=? sj) = true /\ ((sj >=? si) = true -> i < j)
  | _, _ => False
  end.

(** The order in which a stable descending sort lists the positions of
    [scores]. *)
Definition ranking (scores : list num) (order : list nat) : Prop :=
  order ≡ₚ seq 0 (length scores) /\
  StronglySorted (ranks_before scores) order.

(** The chunks of the index that belong to the note at [p]. *)
Definition chunks_of (index : VaultIndex) (p : string) : list IndexedChunk :=
  List.filter (fun c => String.eqb (path (file c)) p) (chunks index).

(** The similarity of a chunk with the query. *)
Definition similarity_to (queryEmbedding : list num) (c : IndexedChunk) : num :=
  cosineSimilarity queryEmbedding (embedding c).

(** A chunk as a matching chunk of the query. *)
Definition matching_of (queryEmbedding : list num) (c : IndexedChunk)
    : MatchingChunk :=
  {| match_text := chunk_text c;
     match_startLine := chunk_startLine c;
     match_endLine := chunk_endLine c;
     match_score := similarity_to queryEmbedding c |}.

(** The arithmetic mean as the source computes it: the sum from the left,
    starting at 0, divided by the length. *)
Definition mean (xs : list num) : num :=
  fold_left (fun a b => a + b) xs zero / of_nat (length xs).

(** What holds of [fileScores] when the chunks [done] have been grouped:
    an entry of key [k] belongs to a note other than the query note and
    holds the scores and matching chunks of the chunks of [k] seen so
    far, of which there is one at least. *)
Definition entry_ok (queryPath : string) (queryEmbedding : list num)
    (done : list IndexedChunk) (kv : string * FileScore) : Prop :=
  let group :=
    List.filter (fun c => String.eqb (path (file c)) (fst kv)) done in
  fst kv <> queryPath /\
  path (entry_file (snd kv)) = fst kv /\
  group <> [] /\
  scores (snd kv) = map (similarity_to queryEmbedding) group /\
  entry_chunks (snd kv) = map (matching_of queryEmbedding) group.

Definition grouped (queryPath : string) (queryEmbedding : list num)
    (done : list IndexedChunk) (m : list (string * FileScore)) : Prop :=
  List.NoDup (map fst m) /\
  Forall (entry_ok queryPath queryEmbedding done) m /\
  (forall c, In c done -> path (file c) <> queryPath ->
             In (path (file c)) (map fst m)).

(** The stored path still names a file of the vault. *)
Definition is_live (h : Host) (p : string) : bool :=
  match vault_files h !! p with
  | Some (File _) => true
  | _ => false
  end.

(** A loaded chunk is a persisted record with its path resolved. *)
Definition revived_from (h : Host) (c : IndexedChunk) (item : PersistedChunk)
    : Prop :=
  vault_files h !! filePath item = Some (File (file c)) /\
  chunk_text c = persisted_text item /\
  embedding c = persisted_embedding item /\
  chunk_startLine c = persisted_startLine item /\
  chunk_endLine c = persisted_endLine item.

(** Whatever the awaited calls answer, the activation suspended at [pt]
    comes to its end, and [isIndexing] is false when it does. *)
Inductive releases : RebuildPoint -> Prop :=
| releases_after (pt : RebuildPoint) :
    (forall (now : Z) (r : Outcome Value) (p p' : ConvergePlugin),
        resume now pt r p = (p', None) -> isIndexing p' = false) ->
    (forall (now : Z) (r : Outcome Value) (p p' : ConvergePlugin)
            (pt' : RebuildPoint),
        resume now pt r p = (p', Some pt') -> releases pt') ->
    releases pt.

(** What is left to show of the files to come when an activation stands at
    one file. *)
Definition next_releases (rest : list TFile) : Prop :=
  match rest with
  | [] => True
  | f :: fs =>
      forall (cs : list IndexedChunk) k t, releases (AwaitRead f fs cs k t)
  end.

(** The flag tells whether a rebuild is in flight, and there is one at
    most. *)
Definition world_ok (w : World) : Prop :=
  (isIndexing (plugin w) = false /\ inflight w = []) \/
  (isIndexing (plugin w) = true /\ exists pt, inflight w = [pt]).

End Program.

(* ================================================================== *)
(** ** Vocabulary of binary64 *)
(* ================================================================== *)

(** No score of the list is NaN. *)
Definition no_nan (scores : list float) : bool :=
  forallb (fun s => negb (PrimFloat.is_nan s)) scores.

(** The least exponent of a binary64 value, that of the subnormal
    numbers. *)
Definition emin64 : Z := SpecFloat.emin prec emax.

(** An infinity or a finite nonzero value of sign [s]. *)
Definition signed (s : bool) (x : spec_float) : Prop :=
  match x with
  | S754_infinity s' | S754_finite s' _ _ => s' = s
  | _ => False
  end.

(* ================================================================== *)
(** ** Sample data *)
(* ================================================================== *)

Definition sample_file (name : string) : TFile :=
  {| path := (name ++ ".md")%string; basename := name; extension := "md" |}.

Definition sample_chunk {num : Type} (name text : string) (e : list num)
    (line : Z) : IndexedChunk :=
  {| file := sample_file name; chunk_text := text; embedding := e;
     chunk_startLine := line; chunk_endLine := line |}.

(** Four chunks of three notes.  For the query (1, 0) the chunk of note b
    scores 1, the first chunk of note a and the chunk of note c tie below
    it, and the second chunk of note a scores 0. *)
Definition sample_index : VaultIndex :=
  {| chunks := [ sample_chunk "a" "a1" [1%float; 1%float] 0;
                 sample_chunk "b" "b1" [1%float; 0%float] 0;
                 sample_chunk "c" "c1" [2%float; 2%float] 0;
                 sample_chunk "a" "a2" [0%float; 1%float] 1 ];
     lastUpdated := 0 |}.

(** An index with a chunk whose embedding is the zero vector. *)
Definition zero_norm_index : VaultIndex :=
  {| chunks := [ sample_chunk "a" "a1" [1%float; 0%float] 0;
                 sample_chunk "z" "z1" [0%float; 0%float] 0 ];
     lastUpdated := 0 |}.

Definition sample_settings : ConvergeSettings :=
  {| apiKey := "lm-studio"; userName := ""; systemPrompt := "Be helpful.";
     chunkSize := 500; chunkOverlap := 50; topK := 5;
     useSemanticSearch := false;
     discoverThreshold := 0.5%float |}.

Definition sample_plugin (index : VaultIndex) : ConvergePlugin :=
  {| settings := sample_settings; vaultIndex := index; isIndexing := false;
     notices := []; console := [] |}.

(** Services that read every note as ["query"], embed every text as
    (1, 0) and answer a completion request with status 500. *)
Definition sample_services : Services :=
  {| cachedRead := fun _ => Resolved "query"%string;
     getEmbedding := fun _ => Resolved [1%float; 0%float];
     fetch_completion := fun _ =>
       Resolved {| ok := false; status := "500";
                   response_text := Resolved "Internal Server Error"%string;
                   response_body := None |};
     parse_delta := fun _ => None |}.

(** A vault that holds note a and a folder, and a persisted index with
    one record for note a, one for a note that is gone and one whose path
    names the folder. *)
Definition sample_persisted : PersistedIndex :=
  {| persisted_chunks :=
       [ {| filePath := "a.md"; persisted_text := "alpha";
            persisted_embedding := [1%float; 0%float];
            persisted_startLine := 0; persisted_endLine := 3 |};
         {| filePath := "gone.md"; persisted_text := "beta";
            persisted_embedding := [0%float; 1%float];
            persisted_startLine := 0; persisted_endLine := 1 |};
         {| filePath := "notes"; persisted_text := "gamma";
            persisted_embedding := [1%float; 1%float];
            persisted_startLine := 2; persisted_endLine := 2 |} ];
     persisted_lastUpdated := 1700000000000 |}.

Definition sample_host : Host :=
  {| configDir := ".obsidian";
     vault_files := <[ "a.md"%string := File (sample_file "a") ]>
                      (<[ "notes"%string := Folder "notes" ]> ∅);
     markdownFiles := [sample_file "a"];
     adapter_exists := fun _ => Resolved true;
     adapter_read := fun _ => Resolved "{}"%string;
     JSON_parse := fun _ => Resolved sample_persisted;
     activeFile := Some (sample_file "a");
     fileCache := fun _ => None;
     firstLinkpathDest := fun _ _ => None |}.

(** A view with one earlier exchange and a message typed in. *)
(** The same host before an index was ever saved. *)
Definition fresh_host : Host :=
  {| configDir := configDir sample_host;
     vault_files := vault_files sample_host;
     markdownFiles := markdownFiles sample_host;
     adapter_exists := fun _ => Resolved false;
     adapter_read := fun _ => Rejected "ENOENT";
     JSON_parse := JSON_parse sample_host;
     activeFile := activeFile sample_host;
     fileCache := fileCache sample_host;
     firstLinkpathDest := firstLinkpathDest sample_host |}.

Definition sample_view : @ChatView float :=
  {| messages := [ {| role := user; content := "hi" |};
                   {| role := assistant; content := "hello" |} ];
     contextNotes := [sample_file "a"];
     isLoading := false;
     semanticResults := [];
     similarNotes := [];
     inputValue := "  what is alpha?  ";
     discoverPanel := PanelBlank;
     view_notices := [];
     requests := [] |}.

Definition sample_text : string := ("aaaaaaaa" ++ nl ++ "bbbbbbbb")%string.

(* ================================================================== *)
(** ** More of the program and its vocabulary *)
(* ================================================================== *)

(** *** More vocabulary of the chunker *)

(** The lines of the input that a chunk spans. *)
Definition lines_of (lines : list string) (c : TextChunk) : list string :=
  line_range lines (startLine c) (endLine c).

(** Chunk number [k] keeps to the chunk size, or it adds one line only to
    the lines of the chunks before it. *)
Definition fits (lines : list string) (chunkSize : nat)
    (cs : list TextChunk) (k : nat) (c : TextChunk) : Prop :=
  tokens_of (lines_of lines c) <= chunkSize \/ new_from cs k = endLine c.

(** The line after chunk [c] would have taken it over the chunk size. *)
Definition full (lines : list string) (chunkSize : nat) (c : TextChunk)
    : Prop :=
  exists line, lines !! Z.to_nat (endLine c + 1) = Some line /\
               chunkSize < tokens_of (lines_of lines c) + estimateTokens line.

(** What holds of the sizes before line [i]. *)
Definition size_inv (lines : list string) (chunkSize : nat) (i : Z)
    (st : Chunker) : Prop :=
  (forall k c, out st !! k = Some c ->
     fits lines chunkSize (out st) k c /\ full lines chunkSize c) /\
  (currentSize st <= chunkSize \/
   new_from (out st) (length (out st)) = (i - 1)%Z).

(** A note of four lines, of 2, 2, 1 and 3 estimated tokens. *)
Definition sample_note : string :=
  ("aaaaaaaa" ++ nl ++ "bbbbbbbb" ++ nl ++ "cccc" ++ nl ++ "dddddddddddd")%string.

(** Its second chunk at a chunk size of 3 without overlap. *)
Definition sample_note_chunk : TextChunk :=
  {| text := ("bbbbbbbb" ++ nl ++ "cccc")%string; startLine := 1; endLine := 2 |}.

(* ================================================================== *)
(** ** saveIndex *)
(* ================================================================== *)

Section Persistence.
Context {num : Type} `{Number num}.

(** The document [saveIndex] serialises: the index with its file
    references turned to paths. *)
Definition serializable (index : @VaultIndex num) : PersistedIndex :=
  {| persisted_chunks :=
       map (fun chunk =>
              {| filePath := path (file chunk);
                 persisted_text := chunk_text chunk;
                 persisted_embedding := embedding chunk;
                 persisted_startLine := chunk_startLine chunk;
                 persisted_endLine := chunk_endLine chunk |})
           (chunks index);
     persisted_lastUpdated := lastUpdated index |}.

(** The host once [adapter.write] has stored [data] at [p]: the file
    exists and reads as [data]. *)
Definition written (p data : string) (h : @Host num) : Host :=
  {| configDir := configDir h;
     vault_files := vault_files h;
     markdownFiles := markdownFiles h;
     adapter_exists := fun q =>
       if String.eqb q p then Resolved true else adapter_exists h q;
     adapter_read := fun q =>
       if String.eqb q p then Resolved data else adapter_read h q;
     JSON_parse := JSON_parse h;
     activeFile := activeFile h;
     fileCache := fileCache h;
     firstLinkpathDest := firstLinkpathDest h |}.

(** [saveIndex], given [JSON.stringify] and what [adapter.write] settles
    with: the plugin (its console) and the host it leaves.  A write that
    fails is caught and logged. *)
Definition saveIndex (JSON_stringify : @PersistedIndex num -> string)
    (write : string -> string -> Outcome unit) (h : Host)
    (p : ConvergePlugin) : ConvergePlugin * Host :=
  let data := JSON_stringify (serializable (vaultIndex p)) in
  match write (indexPath h) data with
  | Resolved _ =>
      (log (LogIndexSaved (length (chunks (vaultIndex p)))) p,
       written (indexPath h) data h)
  | Rejected e => (log (ErrorSaveIndex e) p, h)
  end.

End Persistence.

(** An index of one chunk of note a, and a host whose [JSON.parse] reads
    every document as the serialised form of this index. *)
Definition saved_index : VaultIndex :=
  {| chunks := [ sample_chunk "a" "alpha" [1%float; 0%float] 0 ];
     lastUpdated := 1700000000000 |}.

Definition saving_host : Host :=
  {| configDir := configDir fresh_host;
     vault_files := vault_files fresh_host;
     markdownFiles := markdownFiles fresh_host;
     adapter_exists := adapter_exists fresh_host;
     adapter_read := adapter_read fresh_host;
     JSON_parse := fun _ => Resolved (serializable saved_index);
     activeFile := activeFile fresh_host;
     fileCache := fileCache fresh_host;
     firstLinkpathDest := firstLinkpathDest fresh_host |}.

(* ================================================================== *)
(** ** A rebuild that runs undisturbed *)
(* ================================================================== *)

Section Rebuild.
Context {num : Type} `{Number num}.

(** What the call awaited at a suspended activation settles with, when the
    vault and the embedding service answer as [sv] does and the write of
    the index settles with [saved]. *)
Definition answer (sv : @Services num) (saved : Outcome unit)
    (pt : @RebuildPoint num) : Outcome Value :=
  match pt with
  | AwaitRead file _ _ _ _ =>
      content ← cachedRead sv file; mret (VText content)
  | AwaitEmbedding _ chunk _ _ _ _ _ =>
      e ← getEmbedding sv (text chunk); mret (VEmbedding e)
  | AwaitSave _ _ => _ ← saved; mret VUnit
  end.

(** The first activation in flight is resumed with its answer. *)
Definition settle_first (sv : @Services num) (saved : Outcome unit) (now : Z)
    (w : World) : World :=
  match inflight w with
  | pt :: _ => step w (Settle 0 (answer sv saved pt) now)
  | [] => w
  end.

(** [fuel] settlements, the one numbered [k] first; settlement [j] takes
    place at time [clock j]. *)
Fixpoint settle_all (sv : @Services num) (saved : Outcome unit)
    (clock : nat -> Z) (fuel k : nat) (w : World) : World :=
  match fuel with
  | 0 => w
  | S fuel' =>
      settle_all sv saved clock fuel' (S k)
        (settle_first sv saved (clock k) w)
  end.

(** *** Vocabulary of the properties *)

(** The chunks of one file that a rebuild adds to the index: those whose
    embedding succeeds. *)
Definition embed_chunks (sv : @Services num) (file : TFile)
    (textChunks : list TextChunk) : list IndexedChunk :=
  omap (fun chunk =>
          match getEmbedding sv (text chunk) with
          | Resolved e =>
              Some {| file := file; chunk_text := text chunk; embedding := e;
                      chunk_startLine := startLine chunk;
                      chunk_endLine := endLine chunk |}
          | Rejected _ => None
          end)
       textChunks.

(** The chunks that a rebuild of [files] adds to [chunks], or the error of
    the first file that cannot be read. *)
Fixpoint index_files (sv : @Services num) (s : @ConvergeSettings num)
    (files : list TFile) (chunks : list IndexedChunk)
    : Outcome (list IndexedChunk) :=
  match files with
  | [] => Resolved chunks
  | file :: rest =>
      content ← cachedRead sv file;
      index_files sv s rest
        (chunks ++ embed_chunks sv file
                     (chunkText content (chunkSize s) (chunkOverlap s)))
  end.

(** How a rebuild of [total] files that started from plugin [p0] leaves
    the plugin. *)
Definition rebuilt (p0 : @ConvergePlugin num) (total : nat)
    (result : Outcome (list IndexedChunk)) (p' : ConvergePlugin) : Prop :=
  isIndexing p' = false /\
  match result with
  | Resolved cs =>
      chunks (vaultIndex p') = cs /\
      last (notices p') = Some (NoticeIndexComplete (length cs) total)
  | Rejected e =>
      vaultIndex p' = vaultIndex p0 /\
      last (notices p') = Some (NoticeIndexingFailed e)
  end.

(** Settled one after the other from settlement [k] on, the activation at
    [pt] comes to its end and leaves a plugin of which [Q] holds. *)
Definition finishes (sv : @Services num) (saved : Outcome unit)
    (clock : nat -> Z) (k : nat) (pt : RebuildPoint) (p : ConvergePlugin)
    (Q : ConvergePlugin -> Prop) : Prop :=
  exists n, forall fuel, n <= fuel ->
    let w' := settle_all sv saved clock fuel k
                {| plugin := p; inflight := [pt] |} in
    inflight w' = [] /\ Q (plugin w').

(** The plugin still has the index and the settings the rebuild started
    with. *)
Definition untouched (p0 p : @ConvergePlugin num) : Prop :=
  vaultIndex p = vaultIndex p0 /\ settings p = settings p0.

(** The loop over the files comes to its end from its head, whatever it
    has gathered. *)
Definition files_finish (sv : @Services num) (saved : Outcome unit)
    (clock : nat -> Z) (p0 : @ConvergePlugin num) (total : nat)
    (files : list TFile) : Prop :=
  forall (cs : list IndexedChunk) (processed k : nat) (now : Z)
         (p : ConvergePlugin),
    untouched p0 p ->
    exists p' pt',
      next_file now files cs processed total p = (p', Some pt') /\
      finishes sv saved clock k pt' p'
        (rebuilt p0 total (index_files sv (settings p0) files cs)).

End Rebuild.

(** Services that cannot read note b. *)
Definition failing_services : Services :=
  {| cachedRead := fun f =>
       if String.eqb (path f) "b.md" then Rejected "EACCES"
       else Resolved "alpha"%string;
     getEmbedding := getEmbedding sample_services;
     fetch_completion := fetch_completion sample_services;
     parse_delta := parse_delta sample_services |}.

Section Indexed.
Context {num : Type} `{Number num}.

(** An indexed chunk that stands for lines of its file: the file is one
    of [files], the embedding is the one the service gave for the text,
    and the text is the lines [startLine] to [endLine] of what the file
    holds. *)
Definition indexed_from (sv : @Services num) (content_of : TFile -> string)
    (files : list TFile) (c : @IndexedChunk num) : Prop :=
  In (file c) files /\
  getEmbedding sv (chunk_text c) = Resolved (embedding c) /\
  let lines := split_lines (content_of (file c)) in
  (0 <= chunk_startLine c <= chunk_endLine c)%Z /\
  (chunk_endLine c < Z.of_nat (length lines))%Z /\
  split_lines (chunk_text c)
  = line_range lines (chunk_startLine c) (chunk_endLine c).

End Indexed.

(* ================================================================== *)
(** ** Discovery: the list of similar notes in the user's hands *)
(* ================================================================== *)

(** [filePath.replace(/^\/+/, "")] *)
Fixpoint strip_slashes (s : string) : string :=
  match s with
  | String c rest => if Ascii.eqb c "/" then strip_slashes rest else s
  | EmptyString => EmptyString
  end.

(** [s.endsWith(suffix)] *)
Definition ends_with (suffix s : string) : bool :=
  (String.length suffix <=? String.length s)%nat
  && String.eqb
       (substring (String.length s - String.length suffix)
          (String.length suffix) s)
       suffix.

(** The drop handler of the discover zone cleans the path it was given up:
    a path that is not empty loses its leading slashes and gets the
    extension [.md] unless it ends in it. *)
Definition clean_path (filePath : string) : string :=
  if String.eqb filePath "" then ""%string
  else
    let stripped := strip_slashes filePath in
    if ends_with ".md" stripped then stripped
    else (stripped ++ ".md")%string.

(** The notices of the discover zone. *)
Inductive Toast :=
| ToastNoDropPath
| ToastAdded (name : string)
| ToastAlreadyListed (name : string)
| ToastNotFound (filePath : string).

Section Discover.
Context {num : Type} `{Number num}.
Local Open Scope num_scope.

(** [this.similarNotes.find(n => n.file.path === p)] *)
Definition find_note (p : string) (notes : list (@SimilarNote num))
    : option SimilarNote :=
  List.find (fun n => String.eqb (path (note_file n)) p) notes.

(** The drop handler of the discover zone, from the point where the
    dragged text has been turned into [filePath]: the view it leaves and
    the notice it shows. *)
Definition setupDiscoverDropZone (h : @Host num) (p : @ConvergePlugin num)
    (filePath : string) (v : @ChatView num) : ChatView * Toast :=
  let filePath := clean_path filePath in
  if String.eqb filePath "" then (v, ToastNoDropPath)
  else
    match vault_files h !! filePath with
    | Some (File f) =>
        if String.eqb (extension f) "md"
        then match find_note (path f) (similarNotes v) with
             | None =>
                 (renderSimilarNotes p
                    (set_similarNotes
                       (similarNotes v
                        ++ [ {| note_file := f; score := of_nat 1;
                                selected := true; matchingChunks := [] |} ])
                       v),
                  ToastAdded (basename f))
             | Some _ => (v, ToastAlreadyListed (basename f))
             end
        else (v, ToastNotFound filePath)
    | _ => (v, ToastNotFound filePath)
    end.

Definition toggleSelectAll (p : @ConvergePlugin num) (select : bool)
    (v : @ChatView num) : ChatView :=
  renderSimilarNotes p
    (set_similarNotes
       (map (fun note =>
               {| note_file := note_file note; score := score note;
                  selected := select;
                  matchingChunks := matchingChunks note |})
            (similarNotes v))
       v).

Definition clearSimilarNotes (p : @ConvergePlugin num) (v : @ChatView num)
    : ChatView :=
  renderSimilarNotes p (set_similarNotes [] v).

Definition removeSimilarNote (p : @ConvergePlugin num) (filePath : string)
    (v : @ChatView num) : ChatView :=
  renderSimilarNotes p
    (set_similarNotes
       (List.filter (fun n => negb (String.eqb (path (note_file n)) filePath))
          (similarNotes v))
       v).

(** [updateDiscoverForActiveNote], as far as it touches the list: without
    an active markdown note the welcome text is shown and the list is
    left alone. *)
Definition updateDiscoverForActiveNote (sv : @Services num)
    (p : @ConvergePlugin num) (h : @Host num) (v : @ChatView num)
    : ChatView :=
  match activeFile h with
  | Some active =>
      if String.eqb (extension active) "md"
      then findSimilarNotes sv p active v
      else v
  | None => v
  end.

(** What the user and the workspace do to the list: another note becomes
    the active one (the index may have been rebuilt meanwhile), the
    threshold slider is moved to [k] percent, a file is dropped on the
    list, a listed note is removed, the list is cleared. *)
Inductive DiscoverAction :=
| ActiveNote (sv : @Services num) (h : @Host num) (index : @VaultIndex num)
| SlideThreshold (k : nat)
| DropNote (h : @Host num) (filePath : string)
| RemoveSimilar (filePath : string)
| ClearSimilar.

(** [parseInt(thresholdSlider.value) / 100] *)
Definition slider_value (k : nat) : num := of_nat k / of_nat 100.

Definition discover_step (st : @ConvergePlugin num * @ChatView num)
    (a : DiscoverAction) : ConvergePlugin * ChatView :=
  let '(p, v) := st in
  match a with
  | ActiveNote sv h index =>
      let p' := set_vaultIndex index p in
      (p', updateDiscoverForActiveNote sv p' h v)
  | SlideThreshold k =>
      let p' := set_threshold (slider_value k) p in
      (p', filterSimilarNotes p' v)
  | DropNote h filePath => (p, fst (setupDiscoverDropZone h p filePath v))
  | RemoveSimilar filePath => (p, removeSimilarNote p filePath v)
  | ClearSimilar => (p, clearSimilarNotes p v)
  end.

(** The [onChange] of the default threshold in the settings tab, given
    what [parseInt] made of the text ([None] for [NaN]). *)
Definition onChange_discoverThreshold (parsed : option Z)
    (p : @ConvergePlugin num) : ConvergePlugin :=
  match parsed with
  | Some n =>
      if (0 <=? n)%Z && (n <=? 100)%Z
      then set_threshold (of_nat (Z.to_nat n) / of_nat 100) p
      else p
  | None => p
  end.

(** *** Vocabulary of the properties *)

(** The notes a panel lists, when it was filled by [renderSimilarNotes]. *)
Definition listing (panel : @DiscoverPanel num) : option (list SimilarNote) :=
  match panel with
  | PanelList shown => Some shown
  | PanelNoSimilar | PanelNoneAboveThreshold => Some []
  | _ => None
  end.

(** The slider stands between 0 and 100. *)
Definition slider_ok (a : DiscoverAction) : bool :=
  match a with
  | SlideThreshold k => (k <=? 100)%nat
  | _ => true
  end.

(** The flags and the panel agree with the threshold. *)
Definition selection_ok (st : @ConvergePlugin num * @ChatView num) : Prop :=
  let threshold := discoverThreshold (settings (fst st)) in
  (of_nat 1 >=? threshold) = true /\
  Forall (fun n => selected n = (score n >=? threshold))
    (similarNotes (snd st)) /\
  forall shown, listing (discoverPanel (snd st)) = Some shown ->
    shown = List.filter (fun n => score n >=? threshold) (similarNotes (snd st)).

End Discover.

(** The notes similar to note a are looked for, the slider is pushed to 80
    percent, note a itself is dropped on the list, and note c is taken
    off it. *)
Definition sample_discover_actions : list (@DiscoverAction float) :=
  [ ActiveNote sample_services sample_host sample_index;
    SlideThreshold 80;
    DropNote sample_host "/a";
    RemoveSimilar "c.md" ].

(* ================================================================== *)
(** ** The pickers of tags and folders *)
(* ================================================================== *)

(** [Set.add] on a set of strings, its members in insertion order. *)
Definition set_add (x : string) (s : list string) : list string :=
  if existsb (String.eqb x) s then s else s ++ [x].

(** [sort()] without a comparator on an array of strings: by code
    units. *)
Definition sort_strings (l : list string) : list string :=
  stable_sort (fun x y => String.ltb y x) l.

(** [s.split(sep)] for a separator of one character. *)
Fixpoint split_on (sep : ascii) (s : string) : list string :=
  match s with
  | EmptyString => [EmptyString]
  | String c rest =>
      if Ascii.eqb c sep then EmptyString :: split_on sep rest
      else match split_on sep rest with
           | part :: parts => String c part :: parts
           | [] => [String c EmptyString]
           end
  end.

Section Pickers.
Context {num : Type} `{Number num}.

(** The body of the loop of [getAllTags] for one file. *)
Definition tags_of_file (h : @Host num) (tags : list string) (f : TFile)
    : list string :=
  let cache := fileCache h (path f) in
  let tags :=
    match cache with
    | Some c => match cache_tags c with
                | Some ts => fold_left (fun acc t => set_add t acc) ts tags
                | None => tags
                end
    | None => tags
    end in
  match cache with
  | Some c => match cache_frontmatter_tags c with
              | Some fm =>
                  fold_left (fun acc t => set_add ("#" ++ t)%string acc) fm tags
              | None => tags
              end
  | None => tags
  end.

(** [TagSuggestModal.getAllTags]: what the tag picker offers. *)
Definition getAllTags (h : @Host num) : list string :=
  sort_strings (fold_left (tags_of_file h) (markdownFiles h) []).

(** One turn of the inner loop of [getAllFolders]: [dir] is the local
    [path]. *)
Definition folder_step (st : string * list string) (part : string)
    : string * list string :=
  let dir := if String.eqb (fst st) "" then part
             else (fst st ++ "/" ++ part)%string in
  (dir, set_add dir (snd st)).

(** The body of the loop of [getAllFolders] for one file. *)
Definition folders_of_file (folders : list string) (f : TFile)
    : list string :=
  let parts := split_on "/" (path f) in
  if (1 <? length parts)%nat
  then snd (fold_left folder_step (removelast parts) (""%string, folders))
  else folders.

(** [FolderSuggestModal.getAllFolders]: what the folder picker offers. *)
Definition getAllFolders (h : @Host num) : list string :=
  sort_strings (fold_left folders_of_file (markdownFiles h) []).

(** *** Vocabulary of the properties *)

(** The files among [files] that a picker's test keeps. *)
Definition matching (keep : TFile -> bool) (files : list TFile) : list TFile :=
  List.filter keep files.

(** From view [v] to view [v'] a picker has appended to the context list
    the notes among [files] that [keep] keeps and that were not listed,
    and has shown their number. *)
Definition appended (keep : TFile -> bool) (files : list TFile)
    (v v' : @ChatView num) : Prop :=
  exists extra,
    contextNotes v' = contextNotes v ++ extra /\
    view_notices v' = view_notices v ++ [NoticeAddedCount (length extra)] /\
    sublist extra (matching keep files) /\
    Forall (fun f => ~ In (path f) (map path (contextNotes v))) extra /\
    forall f, In f files -> keep f = true ->
              In (path f) (map path (contextNotes v')).

(** The note paths of the vault are relative: none starts with a
    slash. *)
Definition relative_paths (h : @Host num) : bool :=
  forallb (fun f => negb (String.prefix "/" (path f))) (markdownFiles h).

End Pickers.

(** A vault with the notes a (tagged #x in its body), b (tagged x in its
    front matter) and c, the notes b and c in the folder [work/log]. *)
Definition tagged_host : Host :=
  {| configDir := configDir sample_host;
     vault_files := vault_files sample_host;
     markdownFiles :=
       [ sample_file "a"; sample_file "work/log/b"; sample_file "work/log/c" ];
     adapter_exists := adapter_exists sample_host;
     adapter_read := adapter_read sample_host;
     JSON_parse := JSON_parse sample_host;
     activeFile := None;
     fileCache := fun p =>
       if String.eqb p "a.md"
       then Some {| cache_tags := Some ["#x"; "#y"]%string;
                    cache_frontmatter_tags := None; cache_links := None |}
       else if String.eqb p "work/log/b.md"
       then Some {| cache_tags := None;
                    cache_frontmatter_tags := Some ["x"%string];
                    cache_links := None |}
       else None;
     firstLinkpathDest := firstLinkpathDest sample_host |}.

(* ================================================================== *)
(** ** The chat in the user's hands *)
(* ================================================================== *)

Section Chat.
Context {num : Type} `{Number num}.

(** What the user does to the chat: type into the input, press send (the
    services and the plugin being what they are at that moment), start a
    new chat. *)
Inductive ChatAction :=
| TypeInput (input : string)
| PressSend (sv : @Services num) (p : @ConvergePlugin num)
| PressNewChat.

Definition chat_step (v : @ChatView num) (a : ChatAction) : ChatView :=
  match a with
  | TypeInput input => set_inputValue input v
  | PressSend sv p => fst (sendMessage sv p v)
  | PressNewChat => clearChat v
  end.

(** *** Vocabulary of the properties *)

Definition is_role (r : Role) (m : ChatMessage) : bool :=
  match r, role m with
  | user, user | assistant, assistant | system, system => true
  | _, _ => false
  end.

(** A conversation of whole exchanges: a message of the user, the answer
    of the assistant, and so on. *)
Fixpoint exchanges (msgs : list ChatMessage) : bool :=
  match msgs with
  | [] => true
  | u :: rest =>
      match rest with
      | a :: rest' => is_role user u && is_role assistant a && exchanges rest'
      | [] => false
      end
  end.

(** A request for a completion: the system message, whole exchanges, and
    the message of the user that asks for the answer. *)
Definition well_formed_request (req : list ChatMessage) : Prop :=
  exists sys msgs u,
    req = sys :: msgs ++ [u] /\
    is_role system sys = true /\ exchanges msgs = true /\
    is_role user u = true.

(** The conversation holds whole exchanges, and while a message is being
    sent the message of the user that waits for its answer. *)
Definition conversation_ok (v : @ChatView num) : Prop :=
  Forall well_formed_request (requests v) /\
  (exchanges (messages v) = true \/
   isLoading v = true /\
   exists msgs u, messages v = msgs ++ [u] /\ exchanges msgs = true /\
                  is_role user u = true).

(** The messages of the view after the user's message was taken from the
    input. *)
Definition asked (v v2 : @ChatView num) : Prop :=
  messages v2
  = messages v ++ [ {| role := user; content := trim (inputValue v) |} ] /\
  isLoading v2 = true /\ inputValue v2 = ""%string /\
  requests v2 = requests v /\ contextNotes v2 = contextNotes v /\
  view_notices v2 = view_notices v.

End Chat.

(** What a line of the stream adds to the text of the answer. *)
Definition delta_of (parse : string -> option string) (line : string)
    : string :=
  sse_line parse "" line.


(** Services that answer a completion request with a stream of two
    pieces. *)
Definition streaming_services : Services :=
  {| cachedRead := cachedRead sample_services;
     getEmbedding := getEmbedding sample_services;
     fetch_completion := fun _ =>
       Resolved {| ok := true; status := "200";
                   response_text := Resolved ""%string;
                   response_body :=
                     Some [ Resolved ("data: Al" ++ nl ++ "data: pha")%string;
                            Resolved ("data: [DONE]" ++ nl)%string ] |};
     parse_delta := fun data => Some data |}.

(** The request that [sendMessage] sends for the sample view. *)
Definition sample_request : list ChatMessage :=
  [ {| role := system;
       content := ("Be helpful." ++ nl ++ nl ++ "Context from user's notes:"
                   ++ nl ++ nl ++ "--- a ---" ++ nl ++ "query")%string |};
    {| role := user; content := "hi" |};
    {| role := assistant; content := "hello" |};
    {| role := user; content := "what is alpha?" |} ].

(* ################################################################## *)
(** * Part II: properties *)
(* ################################################################## *)

(* ================================================================== *)
(** ** Cosine similarity *)
(* ================================================================== *)

Section CosineFacts.
Context {num : Type} `{Number num}.
Local Open Scope num_scope.

Lemma cosine_loop_dot (a b : list num) :
  forall d na nb, length a = length b ->
    cosine_loop a b d na nb
    = (dot_from d a b, dot_from na a a, dot_from nb b b).
Proof.
  revert b. induction a as [|x a IH]; intros [|y b] d na nb Hlen;
    simpl in Hlen; try discriminate; [reflexivity|].
  simpl. rewrite IH by congruence. reflexivity.
Qed.

Lemma cosineSimilarity_mismatch (a b : list num) :
  length a <> length b -> cosineSimilarity a b = zero.
Proof.
  intros Hne. unfold cosineSimilarity.
  destruct (Nat.eqb_spec (length a) (length b)); [contradiction|reflexivity].
Qed.

Lemma cosineSimilarity_formula (a b : list num) :
  length a = length b ->
  cosineSimilarity a b = dot a b / (sqrt (dot a a) * sqrt (dot b b)).
Proof.
  intros Hlen. unfold cosineSimilarity.
  rewrite Hlen, Nat.eqb_refl. simpl.
  rewrite cosine_loop_dot by assumption. reflexivity.
Qed.

End CosineFacts.

#[export] Instance exact_ordered : OrderedNumber R.
Proof.
  split; simpl; intros; repeat destruct (Rlt_dec _ _);
    repeat destruct (Rle_dec _ _); simpl in *; try congruence; try lra.
Qed.

(** In exact arithmetic the loop keeps the Cauchy-Schwarz inequality
    between its three accumulators. *)
Lemma dot_from_cauchy_schwarz (a b : list R) :
  forall d na nb : R,
    length a = length b ->
    (0 <= na)%R -> (0 <= nb)%R -> (d * d <= na * nb)%R ->
    (na <= dot_from na a a)%R /\ (nb <= dot_from nb b b)%R /\
    (dot_from d a b * dot_from d a b
     <= dot_from na a a * dot_from nb b b)%R.
Proof.
  revert b. induction a as [|x a IH]; intros [|y b] d na nb Hlen Hna Hnb Hd;
    simpl in Hlen; try discriminate.
  - unfold dot_from; simpl. lra.
  - change (dot_from na (x :: a) (x :: a)) with (dot_from (na + x * x)%R a a).
    change (dot_from nb (y :: b) (y :: b)) with (dot_from (nb + y * y)%R b b).
    change (dot_from d (x :: a) (y :: b)) with (dot_from (d + x * y)%R a b).
    assert (Hxy : (2 * d * x * y <= na * (y * y) + nb * (x * x))%R).
    { destruct (Rle_dec (2 * d * x * y) (na * (y * y) + nb * (x * x)))
        as [Hle|Hgt]; [exact Hle|exfalso].
      apply Rnot_le_lt in Hgt.
      pose proof (Rle_0_sqr (na * (y * y) - nb * (x * x))) as Hsq.
      unfold Rsqr in Hsq.
      assert (H0 : (0 <= na * (y * y) + nb * (x * x))%R).
      { pose proof (Rle_0_sqr x) as Hx. pose proof (Rle_0_sqr y) as Hy.
        unfold Rsqr in Hx, Hy.
        pose proof (Rmult_le_pos _ _ Hna Hy).
        pose proof (Rmult_le_pos _ _ Hnb Hx). lra. }
      assert (H1 : ((na * (y * y) + nb * (x * x))
                    * (na * (y * y) + nb * (x * x))
                    < (2 * d * x * y) * (2 * d * x * y))%R).
      { apply Rmult_le_0_lt_compat; lra. }
      assert (H2 : (0 <= (na * nb - d * d) * ((x * y) * (x * y)))%R).
      { apply Rmult_le_pos; [lra|]. pose proof (Rle_0_sqr (x * y)) as Hs.
        unfold Rsqr in Hs. exact Hs. }
      lra. }
    assert (Hx : (0 <= x * x)%R) by (pose proof (Rle_0_sqr x) as Hs; exact Hs).
    assert (Hy : (0 <= y * y)%R) by (pose proof (Rle_0_sqr y) as Hs; exact Hs).
    destruct (IH b (d + x * y)%R (na + x * x)%R (nb + y * y)%R)
      as (Ha & Hb & Hc); [congruence|lra|lra| |].
    + lra.
    + repeat split; [lra|lra|exact Hc].
Qed.

Lemma dot_from_positive (a : list R) :
  forall na : R, (0 <= na)%R -> Exists (fun x => x <> 0%R) a ->
    (0 < dot_from na a a)%R.
Proof.
  induction a as [|x a IH]; intros na Hna Hex.
  - inversion Hex.
  - assert (Hx : (0 <= x * x)%R)
      by (pose proof (Rle_0_sqr x) as Hs; exact Hs).
    destruct (dot_from_cauchy_schwarz a a 0%R (na + x * x)%R (na + x * x)%R)
      as (Hmono & _); [reflexivity|lra|lra| |].
    { assert (0 <= (na + x * x) * (na + x * x))%R
        by (apply Rmult_le_pos; lra). lra. }
    change (dot_from na (x :: a) (x :: a))
      with (dot_from (na + x * x)%R a a).
    inversion Hex as [? ? Hne|? ? Hrest]; subst.
    + assert (0 < x * x)%R.
      { destruct (Rtotal_order x 0) as [Hlt|[Heq|Hgt]]; [|contradiction|].
        - replace (x * x)%R with ((- x) * (- x))%R by ring.
          apply Rmult_lt_0_compat; lra.
        - apply Rmult_lt_0_compat; lra. }
      lra.
    + apply IH; [lra|exact Hrest].
Qed.

(** In exact arithmetic two vectors of one length with a non-zero entry
    each have a similarity between -1 and 1. *)
Lemma cosineSimilarity_exact_range (a b : list R) :
  length a = length b ->
  Exists (fun x => x <> 0%R) a -> Exists (fun x => x <> 0%R) b ->
  (-1 <= cosineSimilarity a b <= 1)%R.
Proof.
  intros Hlen Ha Hb. rewrite cosineSimilarity_formula by exact Hlen.
  unfold dot. simpl.
  pose proof (dot_from_positive a 0%R (Rle_refl 0) Ha) as Hpa.
  pose proof (dot_from_positive b 0%R (Rle_refl 0) Hb) as Hpb.
  destruct (dot_from_cauchy_schwarz a b 0%R 0%R 0%R Hlen) as (_ & _ & Hcs);
    [lra|lra|lra|].
  change (@zero R exact) with 0%R.
  set (d := dot_from 0%R a b) in *.
  set (na := dot_from 0%R a a) in *.
  set (nb := dot_from 0%R b b) in *.
  pose proof (sqrt_lt_R0 na Hpa) as Hsa.
  pose proof (sqrt_lt_R0 nb Hpb) as Hsb.
  pose proof (sqrt_sqrt na (Rlt_le _ _ Hpa)) as Hqa.
  pose proof (sqrt_sqrt nb (Rlt_le _ _ Hpb)) as Hqb.
  set (s := (R_sqrt.sqrt na * R_sqrt.sqrt nb)%R).
  assert (Hs : (0 < s)%R) by (apply Rmult_lt_0_compat; assumption).
  assert (Hss : (s * s = na * nb)%R).
  { unfold s.
    replace (R_sqrt.sqrt na * R_sqrt.sqrt nb
             * (R_sqrt.sqrt na * R_sqrt.sqrt nb))%R
      with ((R_sqrt.sqrt na * R_sqrt.sqrt na)
            * (R_sqrt.sqrt nb * R_sqrt.sqrt nb))%R by ring.
    rewrite Hqa, Hqb. reflexivity. }
  assert (Hds : (- s <= d <= s)%R).
  { split.
    - destruct (Rle_dec (- s) d) as [Hle|Hgt]; [exact Hle|exfalso].
      apply Rnot_le_lt in Hgt.
      assert (s * s < (- d) * (- d))%R
        by (apply Rmult_le_0_lt_compat; lra).
      lra.
    - destruct (Rle_dec d s) as [Hle|Hgt]; [exact Hle|exfalso].
      apply Rnot_le_lt in Hgt.
      assert (s * s < d * d)%R by (apply Rmult_le_0_lt_compat; lra).
      lra. }
  unfold Rdiv.
  pose proof (Rinv_0_lt_compat s Hs) as Hi.
  assert (Hsi : (s * / s = 1)%R) by (apply Rinv_r; lra).
  pose proof (Rmult_le_pos (s - d) (/ s)) as H1.
  pose proof (Rmult_le_pos (d + s) (/ s)) as H2.
  split.
  - assert (0 <= (d + s) * / s)%R by (apply H2; lra).
    replace ((d + s) * / s)%R with (d * / s + s * / s)%R in * by ring. lra.
  - assert (0 <= (s - d) * / s)%R by (apply H1; lra).
    replace ((s - d) * / s)%R with (s * / s - d * / s)%R in * by ring. lra.
Qed.

(** C1, as the code has it.  In every number system [cosineSimilarity]
    returns exactly 0 for vectors of different lengths, and for vectors of
    one length it returns dot(a,b) / (sqrt(dot(a,a)) * sqrt(dot(b,b))),
    the sums taken from left to right; nothing else is tested, so a zero
    norm is divided by.  In exact arithmetic the value lies in [-1, 1]
    whenever both vectors have a non-zero entry. *)
Theorem cosineSimilarity_spec :
  (forall (num : Type) (N : Number num) (a b : list num),
      (length a <> length b -> cosineSimilarity a b = zero) /\
      (length a = length b ->
       cosineSimilarity a b
       = (dot a b / (sqrt (dot a a) * sqrt (dot b b)))%num)) /\
  (forall a b : list R,
      length a = length b ->
      Exists (fun x => x <> 0%R) a -> Exists (fun x => x <> 0%R) b ->
      (-1 <= cosineSimilarity a b <= 1)%R).
Proof.
  split.
  - intros num N a b. split.
    + apply cosineSimilarity_mismatch.
    + apply cosineSimilarity_formula.
  - apply cosineSimilarity_exact_range.
Qed.

Lemma cosineSimilarity_spec_witness :
  cosineSimilarity [1%float; 2%float] [3%float] = 0%float /\
  cosineSimilarity [3%float; 4%float] [4%float; 3%float]
  = (dot [3%float; 4%float] [4%float; 3%float]
     / (sqrt (dot [3%float; 4%float] [3%float; 4%float])
        * sqrt (dot [4%float; 3%float] [4%float; 3%float])))%num /\
  (-1 <= cosineSimilarity [1%R; 0%R] [1%R; 1%R] <= 1)%R.
Proof.
  destruct cosineSimilarity_spec as [Hany Hexact]. split; [|split].
  - destruct (Hany float float64 [1%float; 2%float] [3%float]) as [Hzero _].
    apply Hzero. simpl. discriminate.
  - destruct (Hany float float64 [3%float; 4%float] [4%float; 3%float])
      as [_ Hformula].
    apply Hformula. reflexivity.
  - apply Hexact.
    + reflexivity.
    + apply Exists_cons_hd. lra.
    + apply Exists_cons_hd. lra.
Defined.

(** In binary64 the vector (3, 4) has the similarity 1 with itself, two
    orthogonal vectors have the similarity 0, and opposite ones -1. *)
Example cosineSimilarity_sample :
  cosineSimilarity [3%float; 4%float] [3%float; 4%float] = 1%float /\
  cosineSimilarity [1%float; 0%float] [0%float; 1%float] = 0%float /\
  cosineSimilarity [3%float; 4%float] [(-3)%float; (-4)%float] = (-1)%float.
Proof. split_and!; vm_compute; reflexivity. Qed.

(** C1 as stated fails on binary64: the similarity of the zero vector with
    itself is 0/0, which is NaN and not 0, and the similarity of (1,1,1)
    with itself is rounded to a value above 1. *)
Lemma cosineSimilarity_zero_norm_is_nan :
  PrimFloat.is_nan (cosineSimilarity [0%float] [0%float]) = true /\
  cosineSimilarity [0%float] [0%float] <> 0%float /\
  PrimFloat.leb (cosineSimilarity [1%float; 1%float; 1%float]
                   [1%float; 1%float; 1%float]) 1%float = false.
Proof.
  split; [vm_compute; reflexivity|]. split; [|vm_compute; reflexivity].
  intros Heq. apply (f_equal PrimFloat.is_nan) in Heq.
  vm_compute in Heq. discriminate Heq.
Qed.

(* ================================================================== *)
(** ** The chunker *)
(* ================================================================== *)

(** [estimateTokens] is the ceiling of a quarter of the length. *)
Lemma estimateTokens_ceil (text : string) :
  String.length text <= 4 * estimateTokens text < String.length text + 4.
Proof.
  unfold estimateTokens.
  pose proof (Nat.div_mod_eq (String.length text + 3) 4) as Hdiv.
  pose proof (Nat.mod_upper_bound (String.length text + 3) 4) as Hmod.
  lia.
Qed.

Lemma split_lines_nonempty (text : string) : split_lines text <> [].
Proof.
  induction text as [|c rest IH]; simpl; [discriminate|].
  destruct (Ascii.eqb c newline); [discriminate|].
  destruct (split_lines rest); discriminate.
Qed.

Lemma split_lines_single (text : string) :
  contains_newline text = false -> split_lines text = [text].
Proof.
  unfold contains_newline.
  induction text as [|c rest IH]; simpl; [reflexivity|].
  destruct (Ascii.eqb c newline); simpl; [discriminate|].
  intros Hrest. rewrite (IH Hrest). reflexivity.
Qed.

Lemma chunkText_single_line (text : string) (chunkSize overlap : nat) :
  contains_newline text = false ->
  chunkText text chunkSize overlap
  = [ {| text := text; startLine := 0; endLine := 0 |} ].
Proof.
  intros Hone. unfold chunkText. rewrite (split_lines_single text Hone).
  unfold chunk_loop, chunk_step. simpl.
  rewrite andb_false_r. simpl. reflexivity.
Qed.

Lemma overlap_loop_spec (overlap : nat) (reversed : list string) :
  forall (acc : list string) (size : nat),
    size = tokens_of acc ->
    (acc = [] \/ tokens_of (tail acc) < overlap) ->
    exists before window,
      overlap_loop overlap reversed acc size = (window, tokens_of window) /\
      rev reversed ++ acc = before ++ window /\
      length acc <= length window /\
      (window = [] \/ tokens_of (tail window) < overlap) /\
      (before = [] \/ overlap <= tokens_of window).
Proof.
  induction reversed as [|line rest IH]; intros acc size Hsize Hacc.
  - exists [], acc. simpl. subst size. repeat split; auto.
  - simpl. destruct (Nat.ltb_spec size overlap) as [Hlt|Hge].
    + destruct (IH (line :: acc) (size + estimateTokens line))
        as (before & window & Hrun & Hsplit & Hlen & Hwin & Hmax).
      * subst size. unfold tokens_of. simpl. lia.
      * right. simpl. subst size. exact Hlt.
      * exists before, window. split_and!; auto.
        -- rewrite <- Hsplit. simpl. rewrite <- app_assoc. reflexivity.
        -- simpl in Hlen. lia.
    + exists (rev rest ++ [line]), acc. subst size.
      split_and!; auto.
Qed.

Lemma tokens_of_app (l k : list string) :
  tokens_of (l ++ k) = tokens_of l + tokens_of k.
Proof. apply sum_list_with_app. Qed.

Lemma line_range_nat (lines : list string) (s e1 : nat) :
  s <= e1 ->
  line_range lines (Z.of_nat s) (Z.of_nat e1 - 1)
  = take (e1 - s) (drop s lines).
Proof.
  intros Hle. unfold line_range.
  replace (Z.to_nat (Z.of_nat e1 - 1 + 1 - Z.of_nat s)) with (e1 - s) by lia.
  rewrite Nat2Z.id. reflexivity.
Qed.

Lemma length_line_range (lines : list string) (s e1 : nat) :
  s <= e1 <= length lines ->
  length (line_range lines (Z.of_nat s) (Z.of_nat e1 - 1)) = e1 - s.
Proof.
  intros H. rewrite line_range_nat by lia.
  rewrite length_take, length_drop. lia.
Qed.

Lemma line_range_snoc (lines : list string) (s m : nat) (line : string) :
  s <= m -> lines !! m = Some line ->
  line_range lines (Z.of_nat s) (Z.of_nat (S m) - 1)
  = line_range lines (Z.of_nat s) (Z.of_nat m - 1) ++ [line].
Proof.
  intros Hle Hline. rewrite !line_range_nat by lia.
  replace (S m - s) with (S (m - s)) by lia.
  apply take_S_r. rewrite lookup_drop.
  replace (s + (m - s)) with m by lia. exact Hline.
Qed.

Lemma line_range_suffix (lines : list string) (s m : nat)
    (before window : list string) :
  s <= m <= length lines ->
  line_range lines (Z.of_nat s) (Z.of_nat m - 1) = before ++ window ->
  length window <= m - s /\
  (before = [] -> length window = m - s) /\
  window = line_range lines (Z.of_nat (m - length window)) (Z.of_nat m - 1).
Proof.
  intros Hsm Hsplit.
  assert (Hlen : length before + length window = m - s).
  { rewrite <- length_app, <- Hsplit. apply length_line_range. exact Hsm. }
  split; [lia|]. split; [intros ->; simpl in Hlen; lia|].
  rewrite line_range_nat in Hsplit by lia.
  rewrite line_range_nat by lia.
  replace (m - (m - length window)) with (length window) by lia.
  assert (Hw : window = drop (length before) (before ++ window))
    by (rewrite drop_app_length; reflexivity).
  rewrite Hw at 1. rewrite <- Hsplit.
  rewrite (take_drop_commute lines (m - s) s).
  rewrite (take_drop_commute lines (length window) (m - length window)).
  rewrite drop_drop.
  replace (s + (m - s)) with m by lia.
  replace (m - length window + length window) with m by lia.
  replace (s + length before) with (m - length window) by lia.
  reflexivity.
Qed.

Lemma tokens_of_snoc (l : list string) (line : string) :
  tokens_of (l ++ [line]) = tokens_of l + estimateTokens line.
Proof. rewrite tokens_of_app. unfold tokens_of. simpl. lia. Qed.

Lemma chunk_chain_next (lines : list string) (overlap : nat)
    (c c' : TextChunk) (earlier : list TextChunk) :
  whole_lines lines c' -> follows lines overlap c c' ->
  chunk_chain lines overlap (c :: earlier) ->
  chunk_chain lines overlap (c' :: c :: earlier).
Proof. intros Hw Hf Hc. split; [exact Hw|]. split; [exact Hf|exact Hc]. Qed.

Lemma chunk_step_inv (lines : list string) (chunkSize overlap m : nat)
    (line : string) (st : Chunker) :
  lines !! m = Some line ->
  chunker_inv lines overlap (Z.of_nat m) st ->
  chunker_inv lines overlap (Z.of_nat (S m))
    (chunk_step chunkSize overlap st (Z.of_nat m) line).
Proof.
  intros Hline (Hstart & Hbuf & Hsize & Hfirst & Hchain).
  assert (Hm : m < length lines) by (eapply lookup_lt_Some; exact Hline).
  assert (Hs : currentStart st = Z.of_nat (Z.to_nat (currentStart st)))
    by lia.
  set (s := Z.to_nat (currentStart st)) in *.
  assert (Hsm : s <= m) by lia.
  rewrite Hs in Hbuf.
  assert (Hlen : length (currentChunk st) = m - s).
  { rewrite Hbuf. apply length_line_range. lia. }
  unfold chunk_step.
  destruct ((chunkSize <? currentSize st + estimateTokens line)%nat
            && (0 <? length (currentChunk st))%nat) eqn:Hcond.
  - apply andb_true_iff in Hcond as [_ Hnonempty].
    apply Nat.ltb_lt in Hnonempty.
    destruct (overlap_loop_spec overlap (rev (currentChunk st)) [] 0)
      as (before & window & Hrun & Hsplit & _ & Hwin & Hmax);
      [reflexivity|left; reflexivity|].
    rewrite Hrun. rewrite rev_involutive, app_nil_r in Hsplit.
    rewrite Hsplit in Hbuf. symmetry in Hbuf.
    destruct (line_range_suffix lines s m before window) as (Hwl & Hall & Hw);
      [lia|exact Hbuf|].
    assert (Hnew : (Z.of_nat m - Z.of_nat (length window))%Z
                   = Z.of_nat (m - length window)) by lia.
    assert (Hrange : window ++ [line]
                     = line_range lines (Z.of_nat (m - length window))
                         (Z.of_nat (S m) - 1)).
    { rewrite line_range_snoc with (line := line) by (lia || exact Hline).
      rewrite <- Hw. reflexivity. }
    destruct Hchain as [_ Hold]; [lia|].
    unfold chunker_inv.
    cbn [out currentChunk currentSize currentStart].
    rewrite Hnew. split_and!.
    + lia.
    + lia.
    + exact Hrange.
    + rewrite tokens_of_snoc. reflexivity.
    + lia.
    + intros _. split; [lia|].
      rewrite rev_unit.
      apply chunk_chain_next.
      * unfold whole_lines, pending.
        cbn [startLine endLine text currentChunk currentStart].
        split_and!; [lia|lia|lia|].
        rewrite ?Hnew, Hrange. reflexivity.
      * unfold follows, pending.
        cbn [startLine endLine text currentChunk currentStart].
        rewrite ?Hnew, Hs, <- Hw. split_and!; [lia|lia|lia|exact Hwin|].
        destruct Hmax as [Hb|Hge]; [left|right; exact Hge].
        specialize (Hall Hb). lia.
      * exact Hold.
  - assert (Hrange : currentChunk st ++ [line]
                     = line_range lines (Z.of_nat s) (Z.of_nat (S m) - 1)).
    { rewrite line_range_snoc with (line := line) by (lia || exact Hline).
      rewrite <- Hbuf. reflexivity. }
    unfold chunker_inv.
    cbn [out currentChunk currentSize currentStart].
    split_and!.
    + lia.
    + lia.
    + rewrite Hs. exact Hrange.
    + rewrite tokens_of_snoc, Hsize. reflexivity.
    + lia.
    + intros _. split; [lia|].
      assert (Hwhole : whole_lines lines
                (pending {| out := out st;
                            currentChunk := currentChunk st ++ [line];
                            currentSize := currentSize st + estimateTokens line;
                            currentStart := currentStart st |}
                   (Z.of_nat (S m)))).
      { unfold whole_lines, pending.
        cbn [startLine endLine text currentChunk currentStart].
        split_and!; [lia|lia|lia|].
        rewrite Hs at 1. rewrite Hrange. reflexivity. }
      destruct (Nat.eq_dec m 0) as [Hzero|Hpos].
      * rewrite Hfirst by lia. cbn [rev chunk_chain].
        split_and!; [exact Hwhole| |exact I].
        cbn [pending startLine currentStart]. lia.
      * destruct Hchain as [_ (_ & Hlink & Hrest)]; [lia|].
        cbn [chunk_chain]. split_and!; [exact Hwhole| |exact Hrest].
        destruct (rev (out st)) as [|c earlier].
        -- exact Hlink.
        -- unfold follows, pending in *.
           cbn [startLine endLine text currentChunk currentStart] in *.
           destruct Hlink as (H1 & H2 & H3). split_and!; [lia|lia|lia|apply H3|apply H3].
Qed.

Lemma chunk_loop_inv (lines : list string) (chunkSize overlap : nat)
    (todo : list string) :
  forall (m : nat) (st : Chunker),
    drop m lines = todo -> m <= length lines ->
    chunker_inv lines overlap (Z.of_nat m) st ->
    chunker_inv lines overlap (Z.of_nat (length lines))
      (chunk_loop chunkSize overlap todo (Z.of_nat m) st).
Proof.
  induction todo as [|line rest IH]; intros m st Hdrop Hm Hinv.
  - apply (f_equal length) in Hdrop. rewrite length_drop in Hdrop.
    simpl in Hdrop. replace (length lines) with m by lia. exact Hinv.
  - assert (Hline : lines !! m = Some line).
    { pose proof (lookup_drop lines m 0) as Hl. rewrite Hdrop in Hl.
      simpl in Hl. rewrite Nat.add_0_r in Hl. symmetry. exact Hl. }
    simpl. replace (Z.of_nat m + 1)%Z with (Z.of_nat (S m)) by lia.
    apply IH.
    + rewrite (drop_S lines line m Hline) in Hdrop. congruence.
    + apply lookup_lt_Some in Hline. lia.
    + apply chunk_step_inv; assumption.
Qed.

Lemma chunker_inv_init (lines : list string) (overlap : nat) :
  chunker_inv lines overlap 0
    {| out := []; currentChunk := []; currentSize := 0; currentStart := 0 |}.
Proof.
  unfold chunker_inv. cbn [out currentChunk currentSize currentStart].
  split_and!; try lia; try reflexivity.
Qed.

(** The chunks of a text, latest first, form a chain that ends at the last
    line. *)
Lemma chunkText_chain (text : string) (chunkSize overlap : nat) :
  chunk_chain (split_lines text) overlap
    (rev (chunkText text chunkSize overlap)) /\
  exists c, last (chunkText text chunkSize overlap) = Some c /\
            endLine c = (Z.of_nat (length (split_lines text)) - 1)%Z.
Proof.
  unfold chunkText.
  set (lines := split_lines text).
  assert (Hn : 0 < length lines).
  { pose proof (split_lines_nonempty text) as Hne. fold lines in Hne.
    destruct lines; [contradiction|simpl; lia]. }
  pose proof (chunk_loop_inv lines chunkSize overlap lines 0 _
                eq_refl (Nat.le_0_l _) (chunker_inv_init lines overlap))
    as (Hstart & Hbuf & _ & _ & Hchain).
  change (Z.of_nat 0) with 0%Z in *.
  set (st := chunk_loop chunkSize overlap lines 0 _) in *.
  destruct Hchain as [Hlt Hchain]; [lia|].
  assert (Hlen : length (currentChunk st)
                 = length lines - Z.to_nat (currentStart st)).
  { rewrite Hbuf.
    replace (currentStart st) with (Z.of_nat (Z.to_nat (currentStart st)))
      at 1 by lia.
    apply length_line_range. lia. }
  assert (Hpos : (0 <? length (currentChunk st))%nat = true)
    by (apply Nat.ltb_lt; lia).
  rewrite Hpos. split.
  - rewrite rev_unit. exact Hchain.
  - eexists. split; [apply last_snoc|reflexivity].
Qed.

(** Reading a chain by position. *)
Lemma chunk_chain_lookup (lines : list string) (overlap : nat)
    (cs : list TextChunk) :
  chunk_chain lines overlap (rev cs) ->
  (forall k c, cs !! k = Some c -> whole_lines lines c) /\
  (forall c, cs !! 0 = Some c -> startLine c = 0%Z) /\
  (forall k c c', cs !! k = Some c -> cs !! S k = Some c' ->
                  follows lines overlap c c').
Proof.
  induction cs as [|x cs0 IH] using rev_ind; intros Hchain.
  - split_and!; intros; discriminate.
  - rewrite rev_unit in Hchain. destruct Hchain as (Hw & Hlink & Hrest).
    destruct (IH Hrest) as (IHw & IH0 & IHf).
    split_and!.
    + intros k c Hk. apply lookup_app_Some in Hk as [Hk|[_ Hk]].
      * eapply IHw; exact Hk.
      * apply list_lookup_singleton_Some in Hk as [_ <-]. exact Hw.
    + intros c Hc. apply lookup_app_Some in Hc as [Hc|[Hlen Hc]].
      * apply IH0; exact Hc.
      * apply list_lookup_singleton_Some in Hc as [_ <-].
        destruct cs0 as [|y cs0']; [exact Hlink|simpl in Hlen; lia].
    + intros k c c' Hk Hk'.
      apply lookup_app_Some in Hk' as [Hk'|[Hlen Hk']].
      * apply lookup_app_Some in Hk as [Hk|[Hlen' _]].
        -- eapply IHf; eassumption.
        -- apply lookup_lt_Some in Hk'. lia.
      * apply list_lookup_singleton_Some in Hk' as [Hidx <-].
        assert (Hlast : k = pred (length cs0)) by lia.
        apply lookup_app_Some in Hk as [Hk|[Hlen' _]]; [|lia].
        rewrite Hlast, <- last_lookup in Hk.
        destruct cs0 as [|y cs0' _] using rev_ind; [discriminate|].
        rewrite last_snoc in Hk. injection Hk as ->.
        rewrite rev_unit in Hlink. exact Hlink.
Qed.

Lemma chunk_ends_increase (lines : list string) (overlap : nat)
    (cs : list TextChunk) :
  (forall k c c', cs !! k = Some c -> cs !! S k = Some c' ->
                  follows lines overlap c c') ->
  forall d j cj ck, cs !! j = Some cj -> cs !! (j + S d) = Some ck ->
                    (endLine cj < endLine ck)%Z.
Proof.
  intros Hf. induction d as [|d IH]; intros j cj ck Hj Hk.
  - replace (j + 1) with (S j) in Hk by lia.
    destruct (Hf j cj ck Hj Hk) as (_ & Hlt & _). exact Hlt.
  - assert (Hmid : is_Some (cs !! (j + S d))).
    { apply lookup_lt_is_Some. apply lookup_lt_Some in Hk. lia. }
    destruct Hmid as [cm Hm].
    pose proof (IH j cj cm Hj Hm) as H1.
    replace (j + S (S d)) with (S (j + S d)) in Hk by lia.
    destruct (Hf _ cm ck Hm Hk) as (_ & H2 & _). lia.
Qed.

Lemma new_from_covers (cs : list TextChunk) (i : Z) :
  (0 <= i)%Z ->
  forall k c, cs !! k = Some c -> (i <= endLine c)%Z ->
    exists k0 c0, cs !! k0 = Some c0 /\ (new_from cs k0 <= i <= endLine c0)%Z.
Proof.
  intros Hi. induction k as [|k IH]; intros c Hk Hle.
  - exists 0, c. split; [exact Hk|]. simpl. lia.
  - assert (Hprev : is_Some (cs !! k)).
    { apply lookup_lt_is_Some. apply lookup_lt_Some in Hk. lia. }
    destruct Hprev as [cp Hp].
    destruct (Z_le_gt_dec i (endLine cp)) as [Hin|Hout].
    + eapply IH; eassumption.
    + exists (S k), c. split; [exact Hk|]. simpl. rewrite Hp. lia.
Qed.

Lemma new_from_after (lines : list string) (overlap : nat)
    (cs : list TextChunk) :
  (forall k c c', cs !! k = Some c -> cs !! S k = Some c' ->
                  follows lines overlap c c') ->
  forall j k cj ck, j < k -> cs !! j = Some cj -> cs !! k = Some ck ->
                    (endLine cj < new_from cs k)%Z.
Proof.
  intros Hf j k cj ck Hjk Hj Hk.
  destruct k as [|k']; [lia|]. simpl.
  assert (Hprev : is_Some (cs !! k')).
  { apply lookup_lt_is_Some. apply lookup_lt_Some in Hk. lia. }
  destruct Hprev as [cp Hp]. rewrite Hp.
  destruct (Nat.eq_dec j k') as [->|Hne].
  - rewrite Hj in Hp. injection Hp as ->. lia.
  - pose proof (chunk_ends_increase lines overlap cs Hf (k' - j - 1) j cj cp Hj)
      as Hinc.
    replace (j + S (k' - j - 1)) with k' in Hinc by lia.
    specialize (Hinc Hp). lia.
Qed.

(** C2, as the code has it.  Consecutive chunks of [chunkText] are linked
    by [follows]: the next chunk starts inside the closed one or right
    after it, the lines they share (the seeded window) stay below [overlap]
    once the first of them is left out, so the window passes [overlap] by
    less than the tokens of its first line, and the window reaches
    [overlap] unless it is the whole closed chunk.  Every chunk is a run of
    whole lines, and every line index is new in exactly one chunk. *)
Theorem chunkText_coverage (text : string) (chunkSize overlap : nat) :
  let lines := split_lines text in
  let cs := chunkText text chunkSize overlap in
  (forall k c c', cs !! k = Some c -> cs !! S k = Some c' ->
                  follows lines overlap c c') /\
  (forall k c, cs !! k = Some c ->
               whole_lines lines c /\ (startLine c <= new_from cs k)%Z) /\
  (forall i, (0 <= i < Z.of_nat (length lines))%Z ->
     exists! k, exists c,
       cs !! k = Some c /\ (new_from cs k <= i <= endLine c)%Z).
Proof.
  intros lines cs.
  destruct (chunkText_chain text chunkSize overlap) as (Hchain & cl & Hlast & Hend).
  fold lines cs in Hchain, Hlast, Hend.
  destruct (chunk_chain_lookup lines overlap cs Hchain) as (Hw & H0 & Hf).
  split_and!.
  - exact Hf.
  - intros k c Hk. split; [eapply Hw; exact Hk|].
    destruct k as [|k']; simpl.
    + rewrite (H0 c Hk). lia.
    + assert (Hprev : is_Some (cs !! k')).
      { apply lookup_lt_is_Some. apply lookup_lt_Some in Hk. lia. }
      destruct Hprev as [cp Hp]. rewrite Hp.
      destruct (Hf k' cp c Hp Hk) as (Hs & _). lia.
  - intros i Hi.
    rewrite last_lookup in Hlast.
    destruct (new_from_covers cs i (proj1 Hi) _ cl Hlast) as (k0 & c0 & Hk0 & Hin);
      [lia|].
    exists k0. split; [exists c0; split; assumption|].
    intros k1 (c1 & Hk1 & Hin1).
    destruct (Nat.lt_trichotomy k0 k1) as [Hlt|[Heq|Hgt]]; [|exact Heq|].
    + pose proof (new_from_after lines overlap cs Hf k0 k1 c0 c1 Hlt Hk0 Hk1). lia.
    + pose proof (new_from_after lines overlap cs Hf k1 k0 c1 c0 Hgt Hk1 Hk0). lia.
Qed.

Lemma chunkText_coverage_witness :
  follows (split_lines sample_text) 1
    {| text := "aaaaaaaa"; startLine := 0; endLine := 0 |}
    {| text := sample_text; startLine := 0; endLine := 1 |} /\
  whole_lines (split_lines sample_text)
    {| text := sample_text; startLine := 0; endLine := 1 |} /\
  exists! k, exists c,
    chunkText sample_text 2 1 !! k = Some c /\
    (new_from (chunkText sample_text 2 1) k <= 1 <= endLine c)%Z.
Proof.
  destruct (chunkText_coverage sample_text 2 1) as (Hf & Hw & Hcover).
  split_and!.
  - apply (Hf 0); reflexivity.
  - apply (Hw 1). reflexivity.
  - apply Hcover. vm_compute. split; [discriminate|reflexivity].
Defined.

(** C2 as stated fails: with [chunkSize] 2 and [overlap] 1 the first line
    of these two (2 tokens) closes a chunk when the second arrives, and
    the window seeded into the next chunk is that whole line: 2 tokens,
    more than the overlap of 1. *)
Lemma chunkText_window_exceeds_overlap :
  chunkText sample_text 2 1
  = [ {| text := "aaaaaaaa"; startLine := 0; endLine := 0 |};
      {| text := sample_text; startLine := 0; endLine := 1 |} ] /\
  overlap_loop 1 (rev ["aaaaaaaa"%string]) [] 0 = (["aaaaaaaa"%string], 2) /\
  tokens_of (line_range (split_lines sample_text) 0 0) = 2 /\
  ~ (2 <= 1).
Proof.
  split_and!; try reflexivity. lia.
Qed.

(** C7: the empty string is one empty line, and the chunker makes a chunk
    of it. *)
Theorem chunkText_empty_string (chunkSize overlap : nat) :
  chunkText "" chunkSize overlap
  = [ {| text := ""; startLine := 0; endLine := 0 |} ].
Proof. apply chunkText_single_line. reflexivity. Qed.

(* ================================================================== *)
(** ** Sorting *)
(* ================================================================== *)

Section SortFacts.
Context {A : Type} (after : A -> A -> bool).

Lemma sort_insert_perm (x : A) (l : list A) :
  sort_insert after x l ≡ₚ x :: l.
Proof.
  induction l as [|y l IH]; simpl; [reflexivity|].
  destruct (after x y); [|reflexivity].
  rewrite IH. apply Permutation_swap.
Qed.

Lemma stable_sort_perm (l : list A) : stable_sort after l ≡ₚ l.
Proof.
  induction l as [|x l IH]; simpl; [reflexivity|].
  rewrite sort_insert_perm, IH. reflexivity.
Qed.

Lemma length_stable_sort (l : list A) :
  length (stable_sort after l) = length l.
Proof. apply Permutation_length, stable_sort_perm. Qed.

End SortFacts.

Lemma sort_insert_map {A B : Type} (f : B -> A) (after : A -> A -> bool)
    (b : B) (bs : list B) :
  sort_insert after (f b) (map f bs)
  = map f (sort_insert (fun x y => after (f x) (f y)) b bs).
Proof.
  induction bs as [|y bs IH]; simpl; [reflexivity|].
  destruct (after (f b) (f y)); simpl; [rewrite IH|]; reflexivity.
Qed.

Lemma stable_sort_map {A B : Type} (f : B -> A) (after : A -> A -> bool)
    (bs : list B) :
  stable_sort after (map f bs)
  = map f (stable_sort (fun x y => after (f x) (f y)) bs).
Proof.
  induction bs as [|b bs IH]; simpl; [reflexivity|].
  rewrite IH. apply sort_insert_map.
Qed.

(** Sorting a list of numbered elements whose numbers increase: the result
    is sorted by the comparison first and by the numbers among ties.  The
    comparison need only be consistent on the elements that satisfy [P]. *)
Section NumberedSort.
Context {A : Type} (after : A -> A -> bool) (P : A -> Prop).
Hypothesis after_asym :
  forall x y, P x -> P y -> after x y = true -> after y x = false.
Hypothesis after_negtrans :
  forall x y z, P x -> P y -> P z ->
    after x y = false -> after y z = false -> after x z = false.

Lemma sort_insert_numbered (p : nat * A) (s : list (nat * A)) :
  P (snd p) -> Forall (fun q => P (snd q)) s ->
  StronglySorted (numbered_before after) s ->
  Forall (fun q => fst p < fst q) s ->
  StronglySorted (numbered_before after) (sort_insert (after_numbered after) p s).
Proof.
  intros Pp. induction s as [|y s IH]; intros Ps Hsorted Hsmall; simpl.
  - repeat constructor.
  - apply StronglySorted_inv in Hsorted as [Hs Hy].
    apply Forall_cons in Hsmall as [Hpy Hps].
    apply Forall_cons in Ps as [Py Ps].
    unfold after_numbered at 1.
    destruct (after (snd p) (snd y)) eqn:Hafter.
    + constructor; [apply IH; assumption|].
      rewrite sort_insert_perm. constructor; [|exact Hy].
      split; [apply after_asym; assumption|].
      intros Hno. rewrite Hafter in Hno. discriminate.
    + constructor; [constructor; assumption|].
      constructor; [split; [exact Hafter|intros _; exact Hpy]|].
      rewrite Forall_forall in Hy, Hps, Ps |- *.
      intros z Hz. split.
      * destruct (Hy z Hz) as [Hyz _].
        eapply (after_negtrans _ (snd y)); eauto.
      * intros _. apply Hps. exact Hz.
Qed.

Lemma stable_sort_numbered (ps : list (nat * A)) :
  Forall (fun q => P (snd q)) ps ->
  StronglySorted (fun p q => fst p < fst q) ps ->
  StronglySorted (numbered_before after)
    (stable_sort (after_numbered after) ps).
Proof.
  induction ps as [|p ps IH]; intros HP Hinc; simpl; [constructor|].
  apply StronglySorted_inv in Hinc as [Hps Hp].
  apply Forall_cons in HP as [Pp Pps].
  apply sort_insert_numbered; [exact Pp| |apply IH; assumption|].
  - rewrite stable_sort_perm. exact Pps.
  - rewrite stable_sort_perm. exact Hp.
Qed.

End NumberedSort.

Lemma sort_insert_ext {A : Type} (after after' : A -> A -> bool) (x : A)
    (l : list A) :
  (forall a b, after a b = after' a b) ->
  sort_insert after x l = sort_insert after' x l.
Proof.
  intros Hext. induction l as [|y l IH]; simpl; [reflexivity|].
  rewrite Hext, IH. reflexivity.
Qed.

Lemma stable_sort_ext {A : Type} (after after' : A -> A -> bool) (l : list A) :
  (forall a b, after a b = after' a b) ->
  stable_sort after l = stable_sort after' l.
Proof.
  intros Hext. induction l as [|x l IH]; simpl; [reflexivity|].
  rewrite IH. apply sort_insert_ext. exact Hext.
Qed.

(** The elements of a list with their positions, counted from [from]. *)
Lemma numbered_increasing {A : Type} (l : list A) :
  forall from : nat,
    StronglySorted (fun p q : nat * A => fst p < fst q)
      (zip (seq from (length l)) l) /\
    Forall (fun p : nat * A => from <= fst p /\ l !! (fst p - from) = Some (snd p))
      (zip (seq from (length l)) l).
Proof.
  induction l as [|x l IH]; intros from; simpl.
  - split; constructor.
  - destruct (IH (S from)) as [Hsorted Hall]. split.
    + constructor; [exact Hsorted|].
      eapply Forall_impl; [exact Hall|]. simpl. intros p [Hle _]. lia.
    + constructor; [simpl; split; [lia|]; rewrite Nat.sub_diag; reflexivity|].
      eapply Forall_impl; [exact Hall|]. simpl. intros p [Hle Hp].
      split; [lia|].
      replace (fst p - from) with (S (fst p - S from)) by lia. exact Hp.
Qed.

Lemma StronglySorted_map_on {A B : Type} (R : A -> A -> Prop)
    (R' : B -> B -> Prop) (P : A -> Prop) (f : A -> B) (l : list A) :
  (forall a b, P a -> P b -> R a b -> R' (f a) (f b)) ->
  Forall P l -> StronglySorted R l -> StronglySorted R' (map f l).
Proof.
  intros Hmap HP Hsorted. induction Hsorted as [|a l Hl IH Ha]; simpl.
  - constructor.
  - apply Forall_cons in HP as [Pa Pl].
    constructor; [apply IH; exact Pl|].
    rewrite List.Forall_forall in Ha, Pl. apply List.Forall_forall.
    intros b Hb. apply in_map_iff in Hb as (a' & <- & Ha').
    apply Hmap; [exact Pa|apply Pl; exact Ha'|apply Ha; exact Ha'].
Qed.

Section Ranking.
Context {num : Type} `{Number num}.
Local Open Scope num_scope.

Lemma comparable_scores_spec (scores : list num) :
  comparable_scores scores = true ->
  forall s t u, In s scores -> In t scores -> In u scores ->
    ((zero <? t - s) = true -> (zero <? s - t) = false) /\
    ((zero <? t - s) = false -> (zero <? u - t) = false ->
     (zero <? u - s) = false) /\
    (s >=? t) = negb (zero <? t - s).
Proof.
  unfold comparable_scores. intros Hall s t u Hs Ht Hu.
  rewrite !forallb_forall in Hall.
  specialize (Hall s Hs). rewrite forallb_forall in Hall.
  specialize (Hall t Ht). rewrite forallb_forall in Hall.
  specialize (Hall u Hu). unfold comparable3 in Hall.
  apply andb_true_iff in Hall as [Hall H3].
  apply andb_true_iff in Hall as [H1 H2].
  split_and!.
  - intros Hts. rewrite Hts in H1. simpl in H1.
    destruct (zero <? s - t); [discriminate|reflexivity].
  - intros Hts Hut. rewrite Hts, Hut in H2. simpl in H2.
    destruct (zero <? u - s); [discriminate|reflexivity].
  - apply Bool.eqb_prop in H3. exact H3.
Qed.

Lemma comparable_scores_In (scores : list num) :
  comparable_scores scores = true <->
  (forall s t u, In s scores -> In t scores -> In u scores ->
                 comparable3 s t u = true).
Proof.
  unfold comparable_scores. rewrite forallb_forall. split.
  - intros Hall s t u Hs Ht Hu. specialize (Hall s Hs).
    rewrite forallb_forall in Hall. specialize (Hall t Ht).
    rewrite forallb_forall in Hall. apply Hall. exact Hu.
  - intros Hall s Hs. rewrite forallb_forall. intros t Ht.
    rewrite forallb_forall. intros u Hu. apply Hall; assumption.
Qed.

Lemma comparable_scores_incl (scores scores' : list num) :
  (forall s, In s scores' -> In s scores) ->
  comparable_scores scores = true -> comparable_scores scores' = true.
Proof.
  rewrite !comparable_scores_In. intros Hincl Hall s t u Hs Ht Hu.
  apply Hall; apply Hincl; assumption.
Qed.

(** What [sort((a, b) => key(b) - key(a))] returns when the keys are
    comparable: the elements in the order of a ranking of their keys. *)
Lemma js_sort_ranking {A : Type} (key : A -> num) (l : list A) :
  comparable_scores (map key l) = true ->
  exists order : list nat,
    ranking (map key l) order /\
    Forall2 (fun x i => l !! i = Some x)
      (js_sort (fun a b => key b - key a) l) order.
Proof.
  intros Hcomp.
  pose proof (comparable_scores_spec _ Hcomp) as Hlaws.
  set (after := fun x y : A => zero <? key y - key x).
  set (numbered := zip (seq 0 (length l)) l).
  set (sorted := stable_sort (after_numbered after) numbered).
  assert (Hjs : js_sort (fun a b => key b - key a) l = map snd sorted).
  { unfold js_sort, sorted.
    change (after_numbered after)
      with (fun x y : nat * A => after (snd x) (snd y)).
    rewrite <- (stable_sort_map snd after numbered).
    unfold numbered. rewrite snd_zip by (rewrite length_seq; lia).
    reflexivity. }
  destruct (numbered_increasing l 0) as [Hinc Hpos]. fold numbered in Hinc, Hpos.
  assert (Hperm : sorted ≡ₚ numbered) by apply stable_sort_perm.
  assert (Hnum : Forall (fun p : nat * A => l !! fst p = Some (snd p)) numbered).
  { eapply Forall_impl; [exact Hpos|]. simpl.
    intros p [_ Hp]. rewrite Nat.sub_0_r in Hp. exact Hp. }
  assert (Hall : Forall (fun p : nat * A => l !! fst p = Some (snd p)) sorted)
    by (rewrite Hperm; exact Hnum).
  assert (Hin : forall x i, l !! i = Some x -> In (key x) (map key l)).
  { intros x i Hx. apply in_map. apply list_elem_of_In.
    eapply list_elem_of_lookup_2. exact Hx. }
  assert (Hsorted : StronglySorted (numbered_before after) sorted).
  { apply (stable_sort_numbered after (fun x => In (key x) (map key l)));
      [| | |exact Hinc]; unfold after.
    - intros x y Px Py. apply (Hlaws (key x) (key y) (key x)); assumption.
    - intros x y z Px Py Pz. apply (Hlaws (key x) (key y) (key z)); assumption.
    - eapply Forall_impl; [exact Hnum|]. simpl. intros p Hp.
      eapply Hin. exact Hp. }
  exists (map fst sorted). split; [split|].
  - rewrite Hperm. unfold numbered.
    change (map fst (zip (seq 0 (length l)) l))
      with ((zip (seq 0 (length l)) l).*1).
    rewrite fst_zip by (rewrite length_seq; lia).
    rewrite length_map. reflexivity.
  - eapply StronglySorted_map_on; [|exact Hall|exact Hsorted].
    intros [i x] [j y] Hi Hj [Hxy Hties]. simpl in *.
    unfold ranks_before. rewrite !list_lookup_fmap, Hi, Hj. simpl.
    unfold after in *.
    destruct (Hlaws (key x) (key y) (key x)) as (_ & _ & Hge1); eauto.
    destruct (Hlaws (key y) (key x) (key x)) as (_ & _ & Hge2); eauto.
    rewrite Hge1, Hge2, Hxy. split; [reflexivity|].
    intros Hyx. apply Hties.
    destruct (zero <? key x - key y); [discriminate|reflexivity].
  - rewrite Hjs. clear -Hall. induction Hall as [|p s Hp Hs IH]; simpl.
    + constructor.
    + constructor; [exact Hp|exact IH].
Qed.

End Ranking.

(** In an ordered number system all scores are comparable. *)
Lemma ordered_comparable {num : Type} `{OrderedNumber num} (scores : list num) :
  comparable_scores scores = true.
Proof.
  unfold comparable_scores. rewrite forallb_forall. intros s _.
  rewrite forallb_forall. intros t _. rewrite forallb_forall. intros u _.
  unfold comparable3. rewrite !sub_pos, leb_ltb.
  destruct (ltb s t) eqn:Hst, (ltb t s) eqn:Hts, (ltb t u) eqn:Htu,
    (ltb s u) eqn:Hsu; simpl; try reflexivity.
  - rewrite (ltb_asym s t Hst) in Hts. discriminate.
  - rewrite (ltb_asym s t Hst) in Hts. discriminate.
  - rewrite (ltb_asym s t Hst) in Hts. discriminate.
  - rewrite (ltb_asym s t Hst) in Hts. discriminate.
  - rewrite (ltb_negtrans s t u Hst Htu) in Hsu. discriminate.
  - rewrite (ltb_negtrans s t u Hst Htu) in Hsu. discriminate.
Qed.

(* ================================================================== *)
(** ** Binary64 *)
(* ================================================================== *)

(** The order of binary64 values and the sign of their differences,
    derived from the specification of the primitive floats.  NaN apart,
    [<] is a strict weak order, [<=] the complement of its converse, and a
    difference is positive exactly when its first operand is the larger:
    the subnormal numbers see to it that the difference of two distinct
    values does not round to zero. *)

Section Binary64.
Local Open Scope Z_scope.

Lemma SFcompare_antisym (x y : spec_float) :
  x <> S754_nan -> y <> S754_nan ->
  exists c, SFcompare x y = Some c /\ SFcompare y x = Some (CompOpp c).
Proof.
  intros Hx Hy.
  destruct x as [sx|sx| |sx mx ex], y as [sy|sy| |sy my ey];
    try congruence; simpl;
    try (destruct sx; destruct sy; eexists; split; reflexivity);
    try (destruct sx; eexists; split; reflexivity);
    try (destruct sy; eexists; split; reflexivity);
    try (eexists; split; reflexivity).
  destruct sx, sy; try (eexists; split; reflexivity).
  - rewrite (Z.compare_antisym ex ey).
    destruct (ex ?= ey) eqn:He; simpl; try (eexists; split; reflexivity).
    change (Pos.compare_cont Eq mx my) with (Pos.compare mx my).
    change (Pos.compare_cont Eq my mx) with (Pos.compare my mx).
    rewrite (Pos.compare_antisym mx my).
    destruct (mx ?= my)%positive; simpl; eexists; split; reflexivity.
  - rewrite (Z.compare_antisym ex ey).
    destruct (ex ?= ey) eqn:He; simpl; try (eexists; split; reflexivity).
    change (Pos.compare_cont Eq mx my) with (Pos.compare mx my).
    change (Pos.compare_cont Eq my mx) with (Pos.compare my mx).
    rewrite (Pos.compare_antisym mx my).
    destruct (mx ?= my)%positive; simpl; eexists; split; reflexivity.
Qed.

Ltac compare_cases :=
  repeat match goal with
         | |- context [Pos.compare_cont Eq ?a ?b] =>
             change (Pos.compare_cont Eq a b) with (Pos.compare a b)
         | H : context [Pos.compare_cont Eq ?a ?b] |- _ =>
             change (Pos.compare_cont Eq a b) with (Pos.compare a b) in H
         end;
  repeat match goal with
         | H : context [Z.compare ?a ?b] |- _ =>
             destruct (Z.compare_spec a b); simpl in H
         | H : context [Pos.compare ?a ?b] |- _ =>
             destruct (Pos.compare_spec a b); simpl in H
         | |- context [Z.compare ?a ?b] =>
             destruct (Z.compare_spec a b); simpl
         | |- context [Pos.compare ?a ?b] =>
             destruct (Pos.compare_spec a b); simpl
         end.

Lemma SFltb_negtrans (x y z : spec_float) :
  x <> S754_nan -> y <> S754_nan -> z <> S754_nan ->
  SFltb x y = false -> SFltb y z = false -> SFltb x z = false.
Proof.
  intros Hx Hy Hz. unfold SFltb.
  destruct x as [sx|sx| |sx mx ex], y as [sy|sy| |sy my ey],
    z as [sz|sz| |sz mz ez]; try congruence; simpl;
    try destruct sx; try destruct sy; try destruct sz; simpl;
    try reflexivity; try discriminate;
    intros Hxy Hyz; compare_cases;
    try reflexivity; try discriminate; try lia.
Qed.

Lemma SFltb_asym (x y : spec_float) :
  x <> S754_nan -> y <> S754_nan -> SFltb x y = true -> SFltb y x = false.
Proof.
  intros Hx Hy. unfold SFltb.
  destruct (SFcompare_antisym x y Hx Hy) as (c & -> & ->).
  destruct c; simpl; congruence.
Qed.

Lemma SFleb_ltb (x y : spec_float) :
  x <> S754_nan -> y <> S754_nan -> SFleb x y = negb (SFltb y x).
Proof.
  intros Hx Hy. unfold SFleb, SFltb.
  destruct (SFcompare_antisym x y Hx Hy) as (c & -> & ->).
  destruct c; reflexivity.
Qed.

Lemma digits2_pos_bounds (m : positive) :
  2 ^ (Zpos (digits2_pos m) - 1) <= Zpos m < 2 ^ Zpos (digits2_pos m).
Proof.
  induction m as [m IH|m IH|]; simpl digits2_pos.
  - rewrite Pos2Z.inj_succ.
    replace (Z.succ (Zpos (digits2_pos m)) - 1)
      with (Z.succ (Zpos (digits2_pos m) - 1)) by lia.
    rewrite !Z.pow_succ_r by lia. lia.
  - rewrite Pos2Z.inj_succ.
    replace (Z.succ (Zpos (digits2_pos m)) - 1)
      with (Z.succ (Zpos (digits2_pos m) - 1)) by lia.
    rewrite !Z.pow_succ_r by lia. lia.
  - simpl. lia.
Qed.

Lemma shr_1_div2 (mrs : shr_record) :
  0 <= shr_m mrs -> shr_m (shr_1 mrs) = shr_m mrs / 2.
Proof.
  destruct mrs as [m r s]. simpl. intros Hm.
  rewrite <- Z.div2_div.
  destruct m as [|[p|p|]|p]; try reflexivity; lia.
Qed.

Lemma iter_shr_1_div (p : positive) : forall mrs : shr_record,
  0 <= shr_m mrs ->
  shr_m (SpecFloat.iter_pos shr_1 p mrs) = shr_m mrs / 2 ^ Zpos p.
Proof.
  induction p as [p IH|p IH|]; intros mrs Hm; simpl SpecFloat.iter_pos.
  - assert (H1 : 0 <= shr_m (shr_1 mrs)).
    { rewrite shr_1_div2 by exact Hm. apply Z.div_pos; lia. }
    assert (H2 : 0 <= shr_m (SpecFloat.iter_pos shr_1 p (shr_1 mrs))).
    { rewrite IH by exact H1. apply Z.div_pos; [exact H1|].
      apply Z.pow_pos_nonneg; lia. }
    rewrite IH by exact H2. rewrite IH by exact H1.
    rewrite shr_1_div2 by exact Hm.
    assert (Hp : 0 < 2 ^ Zpos p) by (apply Z.pow_pos_nonneg; lia).
    rewrite !Z.div_div by lia. f_equal.
    change 2 with (2 ^ 1) at 1.
    rewrite <- !Z.pow_add_r by lia. f_equal. lia.
  - assert (H2 : 0 <= shr_m (SpecFloat.iter_pos shr_1 p mrs)).
    { rewrite IH by exact Hm. apply Z.div_pos; [exact Hm|].
      apply Z.pow_pos_nonneg; lia. }
    rewrite IH by exact H2. rewrite IH by exact Hm.
    assert (Hp : 0 < 2 ^ Zpos p) by (apply Z.pow_pos_nonneg; lia).
    rewrite !Z.div_div by lia. f_equal.
    rewrite <- !Z.pow_add_r by lia. f_equal. lia.
  - rewrite shr_1_div2 by exact Hm. reflexivity.
Qed.

Lemma iter_xO_mul (d m : positive) :
  Zpos (Pos.iter xO m d) = Zpos m * 2 ^ Zpos d.
Proof.
  induction d as [|d IH] using Pos.peano_ind.
  - simpl. lia.
  - rewrite Pos.iter_succ, Pos2Z.inj_xO, IH, Pos2Z.inj_succ.
    rewrite Z.pow_succ_r by lia. lia.
Qed.

Lemma shr_record_of_loc_m m l : shr_m (shr_record_of_loc m l) = m.
Proof. destruct l as [|[| |]]; reflexivity. Qed.

Lemma round_nearest_even_ge m l : m <= round_nearest_even m l.
Proof.
  destruct l as [|[| |]]; simpl; try lia. destruct (Z.even m); lia.
Qed.

Lemma fexp_ge e : emin64 <= fexp prec emax e.
Proof. unfold fexp, emin64. lia. Qed.

(** Shifting a positive mantissa to its canonical exponent leaves it
    positive, as long as its exponent is not below the least one. *)
Lemma shr_fexp_pos (m e : Z) (l : location) :
  0 < m -> emin64 <= e ->
  0 < shr_m (fst (shr_fexp prec emax m e l)) /\
  emin64 <= snd (shr_fexp prec emax m e l).
Proof.
  unfold emin64. intros Hm He. unfold shr_fexp, shr.
  destruct (fexp prec emax (Zdigits2 m + e) - e) as [|n|n] eqn:Hn; simpl;
    rewrite ?shr_record_of_loc_m; try (split; lia).
  rewrite iter_shr_1_div by (rewrite shr_record_of_loc_m; lia).
  rewrite shr_record_of_loc_m. split; [|lia].
  destruct m as [|m|m]; try lia. simpl Zdigits2 in Hn.
  pose proof (digits2_pos_bounds m) as [Hlo _].
  unfold fexp in Hn.
  assert (Hd : Zpos n <= Zpos (digits2_pos m) - 1).
  { unfold SpecFloat.emin, prec, emax in *. lia. }
  assert (Hle : 2 ^ Zpos n <= 2 ^ (Zpos (digits2_pos m) - 1)).
  { apply Z.pow_le_mono_r; lia. }
  assert (Hp : 0 < 2 ^ Zpos n) by (apply Z.pow_pos_nonneg; lia).
  apply Z.lt_le_trans with (1 := Z.lt_0_1).
  apply Z.div_le_lower_bound; lia.
Qed.

Lemma binary_round_aux_signed s m e l :
  0 < m -> emin64 <= e -> signed s (binary_round_aux prec emax s m e l).
Proof.
  intros Hm He. unfold binary_round_aux.
  pose proof (shr_fexp_pos m e l Hm He) as [Hm' He'].
  destruct (shr_fexp prec emax m e l) as [mrs' e']. simpl in Hm', He'.
  pose proof (round_nearest_even_ge (shr_m mrs') (loc_of_shr_record mrs'))
    as Hge.
  pose proof (shr_fexp_pos
                (round_nearest_even (shr_m mrs') (loc_of_shr_record mrs'))
                e' loc_Exact ltac:(lia) He') as [Hm'' _].
  destruct (shr_fexp prec emax _ e' loc_Exact) as [mrs'' e''].
  simpl in Hm''. destruct (shr_m mrs'') as [|m''|m'']; try lia.
  destruct (e'' <=? emax - prec); reflexivity.
Qed.

Lemma binary_round_signed s m e :
  emin64 <= e -> signed s (binary_round prec emax s m e).
Proof.
  intros He. unfold binary_round, shl_align.
  destruct (fexp prec emax (Zpos (digits2_pos m) + e) - e) eqn:Hd;
    apply binary_round_aux_signed; try lia; apply fexp_ge.
Qed.

Lemma SFltb_zero_signed s x :
  signed s x -> SFltb (S754_zero false) x = negb s.
Proof.
  destruct x as [| | |s' m e]; simpl; try tauto; intros ->;
    destruct s; reflexivity.
Qed.

(** The sign of a normalized integer is the sign of the integer: no
    nonzero multiple of the least unit rounds to zero. *)
Lemma binary_normalize_pos D e :
  emin64 <= e ->
  SFltb (S754_zero false) (binary_normalize prec emax D e false) = (0 <? D).
Proof.
  intros He. destruct D as [|m|m]; simpl binary_normalize.
  - reflexivity.
  - rewrite (SFltb_zero_signed false) by (apply binary_round_signed, He).
    reflexivity.
  - rewrite (SFltb_zero_signed true) by (apply binary_round_signed, He).
    reflexivity.
Qed.

Lemma shl_align_fst m e e' :
  e' <= e -> Zpos (fst (shl_align m e e')) = Zpos m * 2 ^ (e - e').
Proof.
  intros Hle. unfold shl_align.
  destruct (e' - e) as [|d|d] eqn:Hd; simpl fst.
  - replace (e - e') with 0 by lia. simpl. lia.
  - lia.
  - rewrite iter_xO_mul. f_equal. f_equal. lia.
Qed.

Lemma bounded_canonical m e :
  SpecFloat.bounded prec emax m e = true ->
  emin64 <= e /\ Zpos m < 2 ^ 53 /\ (emin64 < e -> 2 ^ 52 <= Zpos m).
Proof.
  unfold SpecFloat.bounded, canonical_mantissa, fexp, emin64.
  intros H. apply andb_prop in H as [H _]. apply Z.eqb_eq in H.
  pose proof (digits2_pos_bounds m) as [Hlo Hhi].
  unfold SpecFloat.emin, prec, emax in *.
  split; [lia|]. split.
  - apply Z.lt_le_trans with (1 := Hhi). apply Z.pow_le_mono_r; lia.
  - intros He. replace (Zpos (digits2_pos m)) with 53 in Hlo by lia.
    exact Hlo.
Qed.

Lemma cond_Zopp_cases s m :
  cond_Zopp s m = if s then - m else m.
Proof. reflexivity. Qed.

(** The order of two canonical finite floats is the order of their
    mantissas, aligned at the smaller exponent. *)
Lemma SFltb_finite sa ma ea sb mb eb :
  SpecFloat.bounded prec emax ma ea = true ->
  SpecFloat.bounded prec emax mb eb = true ->
  SFltb (S754_finite sb mb eb) (S754_finite sa ma ea) =
  (0 <? cond_Zopp sa (Zpos (fst (shl_align ma ea (Z.min ea eb))))
        - cond_Zopp sb (Zpos (fst (shl_align mb eb (Z.min ea eb))))).
Proof.
  intros Ha Hb.
  apply bounded_canonical in Ha as (Hea & Hma & Hna).
  apply bounded_canonical in Hb as (Heb & Hmb & Hnb).
  rewrite !shl_align_fst by lia.
  change (2 ^ 53) with (2 * 2 ^ 52) in *.
  set (h := 2 ^ 52) in *. assert (Hh : 0 < h) by reflexivity.
  unfold SFltb, SFcompare.
  change (Pos.compare_cont Eq mb ma) with (Pos.compare mb ma).
  rewrite !cond_Zopp_cases.
  destruct (Z.compare_spec eb ea) as [He|He|He].
  - subst eb. rewrite Z.min_id, Z.sub_diag, Z.pow_0_r, !Z.mul_1_r.
    destruct (Pos.compare_spec mb ma) as [Hm|Hm|Hm];
      destruct sa, sb; cbv beta iota delta [CompOpp]; symmetry;
      first [apply Z.ltb_lt | apply Z.ltb_ge]; lia.
  - rewrite Z.min_r by lia. rewrite Z.sub_diag, Z.pow_0_r, Z.mul_1_r.
    assert (Hp : 2 <= 2 ^ (ea - eb)).
    { change 2 with (2 ^ 1) at 1. apply Z.pow_le_mono_r; lia. }
    assert (Hb' : Zpos mb < Zpos ma * 2 ^ (ea - eb)) by nia.
    destruct sa, sb; cbv beta iota delta [CompOpp]; symmetry;
      first [apply Z.ltb_lt | apply Z.ltb_ge]; lia.
  - rewrite Z.min_l by lia. rewrite Z.sub_diag, Z.pow_0_r, Z.mul_1_r.
    assert (Hp : 2 <= 2 ^ (eb - ea)).
    { change 2 with (2 ^ 1) at 1. apply Z.pow_le_mono_r; lia. }
    assert (Ha' : Zpos ma < Zpos mb * 2 ^ (eb - ea)) by nia.
    destruct sa, sb; cbv beta iota delta [CompOpp]; symmetry;
      first [apply Z.ltb_lt | apply Z.ltb_ge]; lia.
Qed.

(** In binary64 the sign of a difference tells the order of its operands,
    NaN apart. *)
Lemma SF64sub_pos (x y : spec_float) :
  valid_binary x = true -> valid_binary y = true ->
  x <> S754_nan -> y <> S754_nan ->
  SFltb (S754_zero false) (SF64sub y x) = SFltb x y.
Proof.
  intros Vx Vy Hx Hy.
  destruct x as [sx|sx| |sx mx ex], y as [sy|sy| |sy my ey];
    try congruence;
    try (destruct sx; destruct sy; reflexivity);
    try (destruct sx; reflexivity); try (destruct sy; reflexivity).
  simpl in Vx, Vy. unfold SF64sub, SFsub.
  rewrite binary_normalize_pos.
  - symmetry. apply SFltb_finite; assumption.
  - apply bounded_canonical in Vx as (Hex & _).
    apply bounded_canonical in Vy as (Hey & _). lia.
Qed.

Lemma SFeqb_refl (x : spec_float) : SFeqb x x = negb
  match x with S754_nan => true | _ => false end.
Proof.
  unfold SFeqb. destruct x as [s|s| |s m e]; simpl; try reflexivity.
  - destruct s; reflexivity.
  - change (Pos.compare_cont Eq m m) with (Pos.compare m m).
    rewrite Z.compare_refl, Pos.compare_refl. destruct s; reflexivity.
Qed.

Lemma is_nan_Prim2SF (x : float) :
  PrimFloat.is_nan x = false <-> Prim2SF x <> S754_nan.
Proof.
  unfold PrimFloat.is_nan. rewrite FloatAxioms.eqb_spec, SFeqb_refl.
  destruct (Prim2SF x); simpl; split; congruence.
Qed.

Lemma float_sub_pos (x y : float) :
  PrimFloat.is_nan x = false -> PrimFloat.is_nan y = false ->
  (0 <? y - x)%float = (x <? y)%float.
Proof.
  intros Hx Hy. rewrite !FloatAxioms.ltb_spec, FloatAxioms.sub_spec.
  apply SF64sub_pos; try apply FloatAxioms.Prim2SF_valid;
    apply is_nan_Prim2SF; assumption.
Qed.

Lemma float_leb_ltb (x y : float) :
  PrimFloat.is_nan x = false -> PrimFloat.is_nan y = false ->
  (x <=? y)%float = negb (y <? x)%float.
Proof.
  intros Hx Hy. rewrite FloatAxioms.ltb_spec, FloatAxioms.leb_spec.
  apply SFleb_ltb; apply is_nan_Prim2SF; assumption.
Qed.

Lemma float_ltb_asym (x y : float) :
  PrimFloat.is_nan x = false -> PrimFloat.is_nan y = false ->
  (x <? y)%float = true -> (y <? x)%float = false.
Proof.
  intros Hx Hy. rewrite !FloatAxioms.ltb_spec.
  apply SFltb_asym; apply is_nan_Prim2SF; assumption.
Qed.

Lemma float_ltb_negtrans (x y z : float) :
  PrimFloat.is_nan x = false -> PrimFloat.is_nan y = false ->
  PrimFloat.is_nan z = false ->
  (x <? y)%float = false -> (y <? z)%float = false ->
  (x <? z)%float = false.
Proof.
  intros Hx Hy Hz. rewrite !FloatAxioms.ltb_spec.
  apply SFltb_negtrans; apply is_nan_Prim2SF; assumption.
Qed.

Lemma float_nan_leb (x : float) :
  PrimFloat.is_nan x = true -> (x <=? x)%float = false.
Proof.
  unfold PrimFloat.is_nan.
  rewrite FloatAxioms.eqb_spec, FloatAxioms.leb_spec, SFeqb_refl.
  destruct (Prim2SF x); try discriminate; reflexivity.
Qed.

Lemma float_nan_sub_pos (x : float) :
  PrimFloat.is_nan x = true -> (0 <? x - x)%float = false.
Proof.
  unfold PrimFloat.is_nan.
  rewrite FloatAxioms.eqb_spec, FloatAxioms.ltb_spec, FloatAxioms.sub_spec,
    SFeqb_refl.
  destruct (Prim2SF x); try discriminate; reflexivity.
Qed.

End Binary64.

(** In binary64 the scores of a list are comparable exactly when none of
    them is NaN. *)
Lemma float64_comparable (scores : list float) :
  comparable_scores scores = no_nan scores.
Proof.
  apply Bool.eq_true_iff_eq. rewrite comparable_scores_In.
  unfold no_nan. rewrite forallb_forall. split.
  - intros Hall s Hs. specialize (Hall s s s Hs Hs Hs).
    destruct (PrimFloat.is_nan s) eqn:Hnan; [|reflexivity].
    unfold comparable3 in Hall. cbn [ltb leb sub zero float64] in Hall.
    rewrite (float_nan_leb s Hnan), (float_nan_sub_pos s Hnan) in Hall.
    discriminate.
  - intros Hall s t u Hs Ht Hu.
    assert (Hns : PrimFloat.is_nan s = false)
      by (apply negb_true_iff, Hall, Hs).
    assert (Hnt : PrimFloat.is_nan t = false)
      by (apply negb_true_iff, Hall, Ht).
    assert (Hnu : PrimFloat.is_nan u = false)
      by (apply negb_true_iff, Hall, Hu).
    unfold comparable3. cbn [ltb leb sub zero float64].
    rewrite !float_sub_pos, float_leb_ltb by assumption.
    pose proof (float_ltb_asym s t Hns Hnt) as Hasym.
    pose proof (float_ltb_negtrans s t u Hns Hnt Hnu) as Htrans.
    destruct (PrimFloat.ltb s t), (PrimFloat.ltb t s), (PrimFloat.ltb t u),
      (PrimFloat.ltb s u); simpl; try reflexivity;
      first [specialize (Hasym eq_refl) | specialize (Htrans eq_refl eq_refl)];
      discriminate.
Qed.

(* ================================================================== *)
(** ** searchIndex *)
(* ================================================================== *)

(** In any number system [searchIndex] returns at most [topK] chunks, and
    all chunks of the index when [topK] is at least their number.  When
    the scores are comparable the chunks returned are the first [topK] of
    a ranking of the index. *)
Lemma searchIndex_ranked {num : Type} `{Number num} (index : VaultIndex)
    (queryEmbedding : list num) (topK : nat) :
  let scores :=
    map (fun chunk => cosineSimilarity queryEmbedding (embedding chunk))
        (chunks index) in
  let result := searchIndex index queryEmbedding topK in
  length result <= topK /\
  (length (chunks index) <= topK -> result ≡ₚ chunks index) /\
  (comparable_scores scores = true ->
   exists order : list nat,
     ranking scores order /\
     Forall2 (fun chunk i => chunks index !! i = Some chunk)
       result (take topK order)).
Proof.
  intros scores result. unfold result, searchIndex.
  set (scored := map (fun chunk =>
                        (chunk, cosineSimilarity queryEmbedding (embedding chunk)))
                     (chunks index)).
  assert (Hfst : map fst scored = chunks index).
  { unfold scored. rewrite map_map. simpl. apply map_id. }
  assert (Hsnd : map snd scored = scores).
  { unfold scored, scores. rewrite map_map. reflexivity. }
  split_and!.
  - rewrite length_map, length_take. lia.
  - intros Hall. rewrite take_ge.
    + unfold js_sort. rewrite stable_sort_perm. rewrite Hfst. reflexivity.
    + unfold js_sort. rewrite length_stable_sort. unfold scored.
      rewrite length_map. exact Hall.
  - intros Hcomp. rewrite <- Hsnd in Hcomp.
    destruct (js_sort_ranking snd scored Hcomp) as (order & Hrank & Hpos).
    exists order. split; [rewrite <- Hsnd; exact Hrank|].
    apply Forall2_fmap_l. apply Forall2_take.
    eapply Forall2_impl; [exact Hpos|]. simpl.
    intros [chunk s] i Hi. simpl.
    rewrite <- Hfst, list_lookup_fmap, Hi. reflexivity.
Qed.

(** C3, as the code has it, on the numbers the program runs on.
    [searchIndex] returns at most [topK] chunks, and all chunks of the
    index when [topK] is at least their number.  When no score is NaN the
    chunks returned are the first [topK] of a ranking of the index: they
    come with non-increasing scores, and chunks of equal score in the
    order they have in the index. *)
Theorem searchIndex_spec (index : VaultIndex) (queryEmbedding : list float)
    (topK : nat) :
  let scores :=
    map (fun chunk => cosineSimilarity queryEmbedding (embedding chunk))
        (chunks index) in
  let result := searchIndex index queryEmbedding topK in
  length result <= topK /\
  (length (chunks index) <= topK -> result ≡ₚ chunks index) /\
  (no_nan scores = true ->
   exists order : list nat,
     ranking scores order /\
     Forall2 (fun chunk i => chunks index !! i = Some chunk)
       result (take topK order)).
Proof.
  intros scores result.
  destruct (searchIndex_ranked index queryEmbedding topK)
    as (Hlen & Hall & Hrank).
  split; [exact Hlen|]. split; [exact Hall|].
  intros Hnan. apply Hrank. rewrite float64_comparable. exact Hnan.
Qed.

Lemma searchIndex_spec_witness :
  searchIndex sample_index [1%float; 0%float] 4 ≡ₚ chunks sample_index /\
  exists order : list nat,
    ranking
      (map (fun chunk =>
              cosineSimilarity [1%float; 0%float] (embedding chunk))
           (chunks sample_index)) order /\
    Forall2 (fun chunk i => chunks sample_index !! i = Some chunk)
      (searchIndex sample_index [1%float; 0%float] 2) (take 2 order).
Proof.
  split.
  - destruct (searchIndex_spec sample_index [1%float; 0%float] 4)
      as (_ & Hall & _).
    apply Hall. simpl. lia.
  - destruct (searchIndex_spec sample_index [1%float; 0%float] 2)
      as (_ & _ & Hrank).
    apply Hrank. vm_compute. reflexivity.
Defined.

(** The sample index is searched as expected: the best chunk first, then
    the two that tie in their original order, then the rest. *)
Example searchIndex_sample :
  map chunk_text (searchIndex sample_index [1%float; 0%float] 4)
  = ["b1"; "a1"; "c1"; "a2"]%string /\
  map chunk_text (searchIndex sample_index [1%float; 0%float] 2)
  = ["b1"; "a1"]%string /\
  cosineSimilarity [1%float; 0%float] [1%float; 1%float]
  = cosineSimilarity [1%float; 0%float] [2%float; 2%float].
Proof. split_and!; vm_compute; reflexivity. Qed.

(** C3 as stated fails on binary64: the score of a chunk whose embedding
    is the zero vector is NaN, which is neither at least nor at most the
    score of the other chunk, so the two chunks returned are in
    non-increasing order neither as returned nor the other way round. *)
Lemma searchIndex_nan_not_sorted :
  map chunk_text (searchIndex zero_norm_index [1%float; 0%float] 2)
  = ["a1"; "z1"]%string /\
  PrimFloat.leb (cosineSimilarity [1%float; 0%float] [0%float; 0%float])
    (cosineSimilarity [1%float; 0%float] [1%float; 0%float]) = false /\
  PrimFloat.leb (cosineSimilarity [1%float; 0%float] [1%float; 0%float])
    (cosineSimilarity [1%float; 0%float] [0%float; 0%float]) = false.
Proof. split_and!; vm_compute; reflexivity. Qed.

(* ================================================================== *)
(** ** Discovery *)
(* ================================================================== *)

Section DiscoveryFacts.
Context {num : Type} `{Number num}.
Local Open Scope num_scope.

Lemma map_has_spec (key : string) (m : list (string * @FileScore num)) :
  map_has key m = true <-> In key (map fst m).
Proof.
  unfold map_has. rewrite existsb_exists, in_map_iff. split.
  - intros (kv & Hin & Heq). apply String.eqb_eq in Heq. exists kv. auto.
  - intros (kv & Heq & Hin). exists kv. split; [exact Hin|].
    apply String.eqb_eq. exact Heq.
Qed.

Lemma map_update_keys (key : string) (f : @FileScore num -> @FileScore num)
    (m : list (string * @FileScore num)) :
  map fst (map_update key f m) = map fst m.
Proof.
  induction m as [|[k e] m IH]; simpl; [reflexivity|].
  destruct (String.eqb k key); simpl; [reflexivity|]. rewrite IH. reflexivity.
Qed.

Lemma map_update_Forall (Q Q' : string * @FileScore num -> Prop) (key : string)
    (f : @FileScore num -> @FileScore num) (m : list (string * @FileScore num)) :
  List.NoDup (map fst m) ->
  (forall e, Q (key, e) -> Q' (key, f e)) ->
  (forall k e, k <> key -> Q (k, e) -> Q' (k, e)) ->
  Forall Q m -> Forall Q' (map_update key f m).
Proof.
  intros Hnodup Hhit Hmiss. induction m as [|[k e] m IH]; intros HQ; simpl.
  - constructor.
  - apply Forall_cons in HQ as [Hke HQ].
    simpl in Hnodup. apply List.NoDup_cons_iff in Hnodup as [Hnotin Hnodup].
    destruct (String.eqb_spec k key) as [->|Hne].
    + constructor; [apply Hhit; exact Hke|].
      rewrite List.Forall_forall in HQ |- *. intros [k' e'] Hin.
      apply Hmiss; [|apply HQ; exact Hin].
      intros ->. apply Hnotin. apply in_map_iff. exists (key, e'). auto.
    + constructor; [apply Hmiss; assumption|]. apply IH; assumption.
Qed.

Lemma filter_snoc_path (p : string) (done : list (@IndexedChunk num))
    (c : @IndexedChunk num) :
  List.filter (fun c => String.eqb (path (file c)) p) (done ++ [c])
  = List.filter (fun c => String.eqb (path (file c)) p) done
    ++ (if String.eqb (path (file c)) p then [c] else []).
Proof. rewrite List.filter_app. reflexivity. Qed.

Lemma group_step_grouped (queryPath : string) (queryEmbedding : list num)
    (done : list IndexedChunk) (m : list (string * @FileScore num))
    (c : IndexedChunk) :
  grouped queryPath queryEmbedding done m ->
  grouped queryPath queryEmbedding (done ++ [c])
    (group_step queryPath queryEmbedding m c).
Proof.
  intros (Hnodup & Hall & Hcover). unfold group_step.
  destruct (String.eqb_spec (path (file c)) queryPath) as [Hself|Hother].
  - (* the chunk belongs to the query note *)
    split_and!; [exact Hnodup| |].
    + eapply Forall_impl; [exact Hall|]. intros [k e].
      unfold entry_ok. simpl. intros (Hk & Hp & Hg & Hs & Hc).
      rewrite filter_snoc_path.
      destruct (String.eqb_spec (path (file c)) k) as [Heq|_];
        [congruence|].
      rewrite app_nil_r. auto.
    + intros c' Hin Hne. apply in_app_iff in Hin as [Hin|[<-|[]]].
      * apply Hcover; assumption.
      * contradiction.
  - set (key := path (file c)).
    set (push := fun entry : FileScore =>
                   {| entry_file := entry_file entry;
                      scores := scores entry
                                ++ [cosineSimilarity queryEmbedding (embedding c)];
                      entry_chunks := entry_chunks entry ++
                        [ {| match_text := chunk_text c;
                             match_startLine := chunk_startLine c;
                             match_endLine := chunk_endLine c;
                             match_score :=
                               cosineSimilarity queryEmbedding (embedding c) |} ] |}).
    assert (Hpush_other : forall k e, k <> key ->
              entry_ok queryPath queryEmbedding done (k, e) ->
              entry_ok queryPath queryEmbedding (done ++ [c]) (k, e)).
    { intros k e Hk. unfold entry_ok. simpl. intros (Hq & Hp & Hg & Hs & Hc).
      rewrite filter_snoc_path.
      destruct (String.eqb_spec (path (file c)) k) as [Heq|_];
        [exfalso; apply Hk; symmetry; exact Heq|].
      rewrite app_nil_r. auto. }
    destruct (map_has key m) eqn:Hhas; simpl.
    + (* the note has an entry: the chunk is added to it *)
      split_and!.
      * rewrite map_update_keys. exact Hnodup.
      * eapply map_update_Forall; [exact Hnodup| |exact Hpush_other|exact Hall].
        intros e. unfold entry_ok. simpl. intros (Hq & Hp & Hg & Hs & Hc).
        rewrite filter_snoc_path. fold key. rewrite String.eqb_refl.
        split_and!; [exact Hq|exact Hp| | |].
        -- intros Hnil. apply app_eq_nil in Hnil as [_ Hnil]. discriminate.
        -- rewrite Hs, map_app. reflexivity.
        -- rewrite Hc, map_app. reflexivity.
      * rewrite map_update_keys. intros c' Hin Hne.
        apply in_app_iff in Hin as [Hin|[<-|[]]].
        -- apply Hcover; assumption.
        -- apply map_has_spec. exact Hhas.
    + (* the note is new: an entry is set, and the chunk added to it *)
      assert (Hnew : ~ In key (map fst m)).
      { intros Hin. apply map_has_spec in Hin. congruence. }
      assert (Hnone : List.filter (fun c0 => String.eqb (path (file c0)) key) done
                      = []).
      { destruct (List.filter _ done) as [|c0 l] eqn:Hf; [reflexivity|exfalso].
        assert (Hin : In c0 (List.filter
                               (fun c0 => String.eqb (path (file c0)) key) done))
          by (rewrite Hf; left; reflexivity).
        apply filter_In in Hin as [Hin Heq]. apply String.eqb_eq in Heq.
        apply Hnew. rewrite <- Heq. apply Hcover; [exact Hin|].
        rewrite Heq. exact Hother. }
      unfold map_set.
      assert (Hnodup' : List.NoDup (map fst (m ++ [(key,
                 {| entry_file := file c; scores := []; entry_chunks := [] |})]))).
      { rewrite map_app. simpl. apply NoDup_ListNoDup, NoDup_app. split_and!.
        - apply NoDup_ListNoDup. exact Hnodup.
        - intros x Hx Hx'. apply list_elem_of_In in Hx.
          apply list_elem_of_singleton in Hx'. subst x. contradiction.
        - apply NoDup_singleton. }
      split_and!.
      * rewrite map_update_keys. exact Hnodup'.
      * eapply (map_update_Forall
                  (fun kv => (fst kv <> key /\
                              entry_ok queryPath queryEmbedding done kv)
                             \/ kv = (key, {| entry_file := file c; scores := [];
                                              entry_chunks := [] |})));
          [exact Hnodup'| | |].
        -- intros e [[Hk _]|Heq]; [simpl in Hk; contradiction|].
           injection Heq as ->. unfold entry_ok. simpl.
           rewrite filter_snoc_path. fold key. rewrite String.eqb_refl, Hnone.
           simpl. split_and!; [exact Hother|reflexivity|discriminate| |];
             reflexivity.
        -- intros k e Hk [[_ Hok]|Heq]; [|congruence].
           apply Hpush_other; assumption.
        -- apply Forall_app. split.
           ++ rewrite List.Forall_forall in Hall |- *. intros [k e] Hin. left.
              split; [|apply Hall; exact Hin]. simpl. intros ->.
              apply Hnew. apply in_map_iff. exists (key, e). auto.
           ++ constructor; [right; reflexivity|constructor].
      * rewrite map_update_keys, map_app. simpl. intros c' Hin Hne.
        apply in_app_iff. apply in_app_iff in Hin as [Hin|[<-|[]]].
        -- left. apply Hcover; assumption.
        -- right. left. reflexivity.
Qed.


Lemma group_loop_grouped (queryPath : string) (queryEmbedding : list num)
    (todo : list IndexedChunk) :
  forall (done : list IndexedChunk) (m : list (string * @FileScore num)),
    grouped queryPath queryEmbedding done m ->
    grouped queryPath queryEmbedding (done ++ todo)
      (fold_left (group_step queryPath queryEmbedding) todo m).
Proof.
  induction todo as [|c todo IH]; intros done m Hg; simpl.
  - rewrite app_nil_r. exact Hg.
  - replace (done ++ c :: todo) with ((done ++ [c]) ++ todo)
      by (rewrite <- app_assoc; reflexivity).
    apply IH. apply group_step_grouped. exact Hg.
Qed.

Lemma grouped_nil (queryPath : string) (queryEmbedding : list num) :
  grouped queryPath queryEmbedding [] [].
Proof.
  split_and!; [constructor|constructor|]. intros c [].
Qed.

Lemma Forall2_StronglySorted {A B : Type} (P : A -> B -> Prop)
    (R : B -> B -> Prop) (R' : A -> A -> Prop) (xs : list A) (ys : list B) :
  (forall x i y j, P x i -> P y j -> R i j -> R' x y) ->
  Forall2 P xs ys -> StronglySorted R ys -> StronglySorted R' xs.
Proof.
  intros Hmap Hall. induction Hall as [|x i xs ys Hxi Hrest IH]; intros Hs.
  - constructor.
  - apply StronglySorted_inv in Hs as [Hs Hi].
    constructor; [apply IH; exact Hs|].
    clear IH Hs. induction Hrest as [|y j xs ys Hyj Hrest IH].
    + constructor.
    + apply Forall_cons in Hi as [Hij Hi].
      constructor; [eapply Hmap; eassumption|apply IH; exact Hi].
Qed.

(** [sort((a, b) => key(b) - key(a))] leaves comparable keys in
    non-increasing order. *)
Lemma js_sort_sorted {A : Type} (key : A -> num) (l : list A) :
  comparable_scores (map key l) = true ->
  StronglySorted (fun a b => (key a >=? key b) = true)
    (js_sort (fun a b => key b - key a) l).
Proof.
  intros Hcomp.
  destruct (js_sort_ranking key l Hcomp) as (order & [_ Hsorted] & Hpos).
  eapply Forall2_StronglySorted; [|exact Hpos|exact Hsorted].
  intros x i y j Hx Hy. unfold ranks_before.
  rewrite !list_lookup_fmap, Hx, Hy. simpl. intros [Hge _]. exact Hge.
Qed.

Lemma js_sort_perm {A : Type} (comparefn : A -> A -> num) (l : list A) :
  js_sort comparefn l ≡ₚ l.
Proof. apply stable_sort_perm. Qed.

(** What [findSimilarNotes] computes from the index. *)
Lemma rank_similar_spec (index : VaultIndex) (queryPath : string)
    (queryEmbedding : list num) (threshold : num) :
  let notes := rank_similar index queryPath queryEmbedding threshold in
  (forall note, In note notes ->
     let group := chunks_of index (path (note_file note)) in
     let sims := map (similarity_to queryEmbedding) group in
     path (note_file note) <> queryPath /\
     group <> [] /\
     score note = mean sims /\
     selected note = (score note >=? threshold) /\
     length (matchingChunks note) <= 5 /\
     (comparable_scores sims = true ->
      exists order : list nat,
        ranking sims order /\
        Forall2 (fun mc i =>
                   map (matching_of queryEmbedding) group !! i = Some mc)
          (matchingChunks note) (take 5 order))) /\
  List.NoDup (map (fun note => path (note_file note)) notes) /\
  (forall c, In c (chunks index) -> path (file c) <> queryPath ->
     exists note, In note notes /\ path (note_file note) = path (file c)) /\
  (comparable_scores (map score notes) = true ->
   StronglySorted (fun a b => (score a >=? score b) = true) notes).
Proof.
  intros notes. unfold notes, rank_similar.
  set (m := fold_left (group_step queryPath queryEmbedding) (chunks index) []).
  set (unsorted := map (fun kv => similar_of_entry threshold (snd kv)) m).
  pose proof (group_loop_grouped queryPath queryEmbedding (chunks index) [] []
                (grouped_nil _ _)) as (Hnodup & Hall & Hcover).
  simpl in Hall, Hcover. fold m in Hnodup, Hall, Hcover.
  pose proof (js_sort_perm (fun a b : SimilarNote => score b - score a) unsorted)
    as Hperm.
  rewrite List.Forall_forall in Hall.
  split_and!.
  - intros note Hin.
    apply (Permutation_in _ Hperm) in Hin.
    apply in_map_iff in Hin as ([k e] & <- & Hkv).
    destruct (Hall _ Hkv) as (Hk & Hp & Hg & Hs & Hc). simpl in *.
    unfold chunks_of. simpl. rewrite Hp.
    split_and!.
    + exact Hk.
    + exact Hg.
    + unfold mean. rewrite <- Hs. reflexivity.
    + reflexivity.
    + rewrite length_take. lia.
    + intros Hcomp. rewrite Hc.
      destruct (js_sort_ranking match_score
                  (map (matching_of queryEmbedding)
                     (List.filter (fun c => String.eqb (path (file c)) k)
                        (chunks index))))
        as (order & Hrank & Hpos).
      { rewrite map_map. exact Hcomp. }
      exists order. rewrite map_map in Hrank. split; [exact Hrank|].
      apply Forall2_take. exact Hpos.
  - apply (Permutation_NoDup (l := map (fun note => path (note_file note)) unsorted)).
    + apply Permutation_map. symmetry. exact Hperm.
    + unfold unsorted. rewrite map_map. simpl.
      replace (map (fun kv : string * FileScore => path (entry_file (snd kv))) m)
        with (map fst m); [exact Hnodup|].
      apply map_ext_in. intros kv Hkv.
      destruct (Hall _ Hkv) as (_ & Hp & _). symmetry. exact Hp.
  - intros c Hc Hne. specialize (Hcover c Hc Hne).
    apply in_map_iff in Hcover as ([k e] & Hk & Hkv). simpl in Hk. subst k.
    exists (similar_of_entry threshold e). split.
    + apply (Permutation_in _ (Permutation_sym Hperm)).
      apply in_map_iff. exists (path (file c), e). auto.
    + simpl. destruct (Hall _ Hkv) as (_ & Hp & _). exact Hp.
  - intros Hcomp. apply js_sort_sorted.
    eapply comparable_scores_incl; [|exact Hcomp].
    intros s Hs. apply in_map_iff in Hs as (note & <- & Hin).
    apply in_map. apply (Permutation_in _ (Permutation_sym Hperm)). exact Hin.
Qed.

End DiscoveryFacts.

Section DiscoveryView.
Context {num : Type} `{Number num}.
Local Open Scope num_scope.

Lemma reselect_id (threshold : num) (notes : list SimilarNote) :
  (forall note, In note notes -> selected note = (score note >=? threshold)) ->
  map (fun note =>
         {| note_file := note_file note; score := score note;
            selected := score note >=? threshold;
            matchingChunks := matchingChunks note |}) notes
  = notes.
Proof.
  intros Hsel. rewrite <- (map_id notes) at 2. apply map_ext_in.
  intros [f s b mcs] Hin. specialize (Hsel _ Hin). simpl in *.
  rewrite <- Hsel. reflexivity.
Qed.

Lemma similarNotes_renderSimilarNotes (p : ConvergePlugin) (v : ChatView) :
  similarNotes (renderSimilarNotes p v) = similarNotes v.
Proof.
  unfold renderSimilarNotes.
  destruct (similarNotes v) eqn:Hn; [simpl; exact Hn|].
  destruct (List.filter _ _); simpl; exact Hn.
Qed.

(** A successful [findSimilarNotes] stores the ranked list. *)
Lemma findSimilarNotes_resolved (sv : Services) (p : ConvergePlugin)
    (f : TFile) (v : ChatView) (content : string) (queryEmbedding : list num) :
  chunks (vaultIndex p) <> [] ->
  cachedRead sv f = Resolved content ->
  getEmbedding sv (slice_prefix 2000 content) = Resolved queryEmbedding ->
  similarNotes (findSimilarNotes sv p f v)
  = rank_similar (vaultIndex p) (path f) queryEmbedding
      (discoverThreshold (settings p)).
Proof.
  intros Hne Hread Hembed. unfold findSimilarNotes.
  destruct (chunks (vaultIndex p)) as [|c cs] eqn:Hchunks; [contradiction|].
  simpl length. simpl Nat.eqb. cbv iota.
  rewrite Hread. simpl mbind. unfold Outcome_bind. rewrite Hembed.
  unfold filterSimilarNotes. rewrite similarNotes_renderSimilarNotes.
  simpl similarNotes. apply reselect_id.
  intros note Hin.
  pose proof (rank_similar_spec (vaultIndex p) (path f) queryEmbedding
                (discoverThreshold (settings p))) as (Hnotes & _).
  destruct (Hnotes note Hin) as (_ & _ & _ & Hsel & _). exact Hsel.
Qed.

(** In any number system: when the index has chunks and the note is read
    and embedded, [findSimilarNotes] leaves in [similarNotes] one entry
    for each note other than the query note that has a chunk in the
    index, and no other entry, with the mean for its score; comparable
    similarities are ranked, and entries of comparable scores sorted. *)
Lemma findSimilarNotes_ranked (sv : Services) (p : ConvergePlugin)
    (f : TFile) (v : ChatView) (content : string) (queryEmbedding : list num) :
  chunks (vaultIndex p) <> [] ->
  cachedRead sv f = Resolved content ->
  getEmbedding sv (slice_prefix 2000 content) = Resolved queryEmbedding ->
  let notes := similarNotes (findSimilarNotes sv p f v) in
  let index := vaultIndex p in
  (forall note, In note notes ->
     let group := chunks_of index (path (note_file note)) in
     let sims := map (similarity_to queryEmbedding) group in
     path (note_file note) <> path f /\
     group <> [] /\
     score note = mean sims /\
     selected note = (score note >=? discoverThreshold (settings p)) /\
     length (matchingChunks note) <= 5 /\
     (comparable_scores sims = true ->
      exists order : list nat,
        ranking sims order /\
        Forall2 (fun mc i =>
                   map (matching_of queryEmbedding) group !! i = Some mc)
          (matchingChunks note) (take 5 order))) /\
  List.NoDup (map (fun note => path (note_file note)) notes) /\
  (forall c, In c (chunks index) -> path (file c) <> path f ->
     exists note, In note notes /\ path (note_file note) = path (file c)) /\
  (comparable_scores (map score notes) = true ->
   StronglySorted (fun a b => (score a >=? score b) = true) notes).
Proof.
  intros Hne Hread Hembed notes index. unfold notes.
  rewrite (findSimilarNotes_resolved sv p f v content queryEmbedding)
    by assumption.
  apply rank_similar_spec.
Qed.

(** C8.  [filterSimilarNotes] keeps every entry of [similarNotes] in its
    place with its note, score and matching chunks, and sets [selected] to
    [score >= threshold]; of the view it changes nothing else but the
    panel that shows the list.  The slider's handler, which stores a new
    threshold before it calls [filterSimilarNotes], leaves the index as
    it is. *)
Theorem filterSimilarNotes_frame (val : num) (p : ConvergePlugin)
    (v : ChatView) :
  let p' := set_threshold val p in
  let v' := filterSimilarNotes p' v in
  Forall2 (fun n' n =>
             note_file n' = note_file n /\ score n' = score n /\
             matchingChunks n' = matchingChunks n /\
             selected n' = (score n >=? val))
    (similarNotes v') (similarNotes v) /\
  length (similarNotes v') = length (similarNotes v) /\
  vaultIndex p' = vaultIndex p /\
  (messages v' = messages v /\ contextNotes v' = contextNotes v /\
   semanticResults v' = semanticResults v /\ isLoading v' = isLoading v /\
   inputValue v' = inputValue v /\ requests v' = requests v /\
   view_notices v' = view_notices v).
Proof.
  intros p' v'.
  assert (Hnotes : similarNotes v'
                   = map (fun note =>
                            {| note_file := note_file note; score := score note;
                               selected := score note >=? val;
                               matchingChunks := matchingChunks note |})
                         (similarNotes v)).
  { unfold v', filterSimilarNotes. rewrite similarNotes_renderSimilarNotes.
    reflexivity. }
  assert (Hframe : forall w : ChatView,
            messages (renderSimilarNotes p' w) = messages w /\
            contextNotes (renderSimilarNotes p' w) = contextNotes w /\
            semanticResults (renderSimilarNotes p' w) = semanticResults w /\
            isLoading (renderSimilarNotes p' w) = isLoading w /\
            inputValue (renderSimilarNotes p' w) = inputValue w /\
            requests (renderSimilarNotes p' w) = requests w /\
            view_notices (renderSimilarNotes p' w) = view_notices w).
  { intros w. unfold renderSimilarNotes. destruct (similarNotes w);
      [|destruct (List.filter _ _)]; simpl; repeat split; reflexivity. }
  split; [|split; [|split]].
  - rewrite Hnotes. apply Forall2_fmap_l. apply Forall_Forall2_diag.
    apply Forall_forall. intros n _. simpl. auto.
  - rewrite Hnotes. apply length_map.
  - reflexivity.
  - unfold v', filterSimilarNotes.
    destruct (Hframe (set_similarNotes
                (map (fun note =>
                        {| note_file := note_file note; score := score note;
                           selected :=
                             score note >=? discoverThreshold (settings p');
                           matchingChunks := matchingChunks note |})
                     (similarNotes v)) v))
      as (H1 & H2 & H3 & H4 & H5 & H6 & H7).
    rewrite H1, H2, H3, H4, H5, H6, H7. simpl. repeat split; reflexivity.
Qed.

End DiscoveryView.

(** C6, as the code has it, on the numbers the program runs on.  When the
    index has chunks and the note is read and embedded, [findSimilarNotes]
    leaves in [similarNotes] one entry for each note other than the query
    note that has a chunk in the index, and no other entry.  The score of
    an entry is the mean of the similarities of the chunks of its note,
    and it holds at most 5 matching chunks.  When none of these
    similarities is NaN the matching chunks are the first 5 of a ranking
    of them; when no score of an entry is NaN the entries come with
    non-increasing scores. *)
Theorem findSimilarNotes_spec (sv : Services) (p : ConvergePlugin)
    (f : TFile) (v : ChatView) (content : string)
    (queryEmbedding : list float) :
  chunks (vaultIndex p) <> [] ->
  cachedRead sv f = Resolved content ->
  getEmbedding sv (slice_prefix 2000 content) = Resolved queryEmbedding ->
  let notes := similarNotes (findSimilarNotes sv p f v) in
  let index := vaultIndex p in
  (forall note, In note notes ->
     let group := chunks_of index (path (note_file note)) in
     let sims := map (similarity_to queryEmbedding) group in
     path (note_file note) <> path f /\
     group <> [] /\
     score note = mean sims /\
     selected note
     = PrimFloat.leb (discoverThreshold (settings p)) (score note) /\
     length (matchingChunks note) <= 5 /\
     (no_nan sims = true ->
      exists order : list nat,
        ranking sims order /\
        Forall2 (fun mc i =>
                   map (matching_of queryEmbedding) group !! i = Some mc)
          (matchingChunks note) (take 5 order))) /\
  List.NoDup (map (fun note => path (note_file note)) notes) /\
  (forall c, In c (chunks index) -> path (file c) <> path f ->
     exists note, In note notes /\ path (note_file note) = path (file c)) /\
  (no_nan (map score notes) = true ->
   StronglySorted (fun a b => PrimFloat.leb (score b) (score a) = true)
     notes).
Proof.
  intros Hne Hread Hembed notes index.
  destruct (findSimilarNotes_ranked sv p f v content queryEmbedding
              Hne Hread Hembed)
    as (Hnotes & Hnodup & Hcover & Hsorted).
  split; [|split; [exact Hnodup|split; [exact Hcover|]]].
  - intros note Hin group sims.
    destruct (Hnotes note Hin) as (H1 & H2 & H3 & H4 & H5 & H6).
    split; [exact H1|]. split; [exact H2|]. split; [exact H3|].
    split; [exact H4|]. split; [exact H5|].
    intros Hnan. apply H6. rewrite float64_comparable. exact Hnan.
  - intros Hnan. apply Hsorted. rewrite float64_comparable. exact Hnan.
Qed.

Lemma findSimilarNotes_spec_witness :
  List.NoDup
    (map (fun note => path (note_file note))
       (similarNotes
          (findSimilarNotes sample_services (sample_plugin sample_index)
             (sample_file "q") new_view))) /\
  StronglySorted (fun a b => PrimFloat.leb (score b) (score a) = true)
    (similarNotes
       (findSimilarNotes sample_services (sample_plugin sample_index)
          (sample_file "q") new_view)) /\
  List.Forall
    (fun note =>
       path (note_file note) <> path (sample_file "q") /\
       score note
       = mean (map (similarity_to [1%float; 0%float])
                 (chunks_of sample_index (path (note_file note)))))
    (similarNotes
       (findSimilarNotes sample_services (sample_plugin sample_index)
          (sample_file "q") new_view)).
Proof.
  destruct (findSimilarNotes_spec sample_services (sample_plugin sample_index)
              (sample_file "q") new_view "query" [1%float; 0%float])
    as (Hnotes & Hnodup & _ & Hsorted).
  - discriminate.
  - reflexivity.
  - reflexivity.
  - split; [exact Hnodup|]. split; [apply Hsorted; vm_compute; reflexivity|].
    apply List.Forall_forall. intros note Hin.
    destruct (Hnotes note Hin) as (Hother & _ & Hmean & _).
    split; [exact Hother|exact Hmean].
Defined.

(** The sample index seen from a fourth note: the best note first; note a,
    whose two chunks score about 0.71 and 0, has the mean of the two and
    falls below the threshold of 0.5. *)
Example findSimilarNotes_sample :
  let notes :=
    similarNotes
      (findSimilarNotes sample_services (sample_plugin sample_index)
         (sample_file "q") new_view) in
  map (fun note => basename (note_file note)) notes = ["b"; "c"; "a"]%string /\
  map selected notes = [true; true; false] /\
  map (fun note => map match_text (matchingChunks note)) notes
  = [["b1"]; ["c1"]; ["a1"; "a2"]]%string.
Proof. vm_compute. repeat split; reflexivity. Qed.

(** C6 as stated fails on binary64: the one chunk of note z has the zero
    vector for its embedding, so the mean score of z is NaN, which is
    neither at least nor at most the score of note a; listed together,
    the two notes are in descending order neither way round. *)
Lemma findSimilarNotes_nan_not_sorted :
  exists a z,
    similarNotes
      (findSimilarNotes sample_services (sample_plugin zero_norm_index)
         (sample_file "q") new_view) = [a; z] /\
    basename (note_file a) = "a"%string /\
    basename (note_file z) = "z"%string /\
    PrimFloat.is_nan (score z) = true /\
    PrimFloat.leb (score z) (score a) = false /\
    PrimFloat.leb (score a) (score z) = false.
Proof.
  eexists. eexists. split; [vm_compute; reflexivity|].
  split_and!; vm_compute; reflexivity.
Qed.

(* ================================================================== *)
(** ** loadIndex *)
(* ================================================================== *)

Section LoadFacts.
Context {num : Type} `{Number num}.

Lemma revive_Some (h : Host) (item : PersistedChunk) (c : @IndexedChunk num) :
  revive h item = Some c -> is_live h (filePath item) = true /\ revived_from h c item.
Proof.
  unfold revive, is_live, revived_from.
  destruct (vault_files h !! filePath item) as [[f|d]|]; try discriminate.
  intros [= <-]. simpl. repeat split; reflexivity.
Qed.

Lemma revive_None (h : @Host num) (item : PersistedChunk) :
  revive h item = None -> is_live h (filePath item) = false.
Proof.
  unfold revive, is_live.
  destruct (vault_files h !! filePath item) as [[f|d]|]; try discriminate;
    reflexivity.
Qed.

(** The loop of [loadIndex] keeps the records whose path is live, in their
    order, and drops the others. *)
Lemma revive_all (h : @Host num) (items : list PersistedChunk) :
  Forall2 (revived_from h) (omap (revive h) items)
    (List.filter (fun item => is_live h (filePath item)) items).
Proof.
  induction items as [|item items IH]; simpl; [constructor|].
  destruct (revive h item) as [c|] eqn:Hrev.
  - destruct (revive_Some h item c Hrev) as [-> Hc]. constructor; assumption.
  - rewrite (revive_None h item Hrev). exact IH.
Qed.

(** C9.  [loadIndex] never rejects.  When the adapter finds no index file
    the index is left as it is, which at startup is the empty index.  When
    the file is read and parsed, the loaded index holds one chunk for each
    record whose stored path names a file of the vault, in the order of
    the records and with their text, embedding and lines, and none for the
    other records. *)
Theorem loadIndex_spec (h : @Host num) (p : ConvergePlugin) :
  (exists p', loadIndex h p = Resolved p') /\
  (adapter_exists h (indexPath h) = Resolved false ->
   exists p', loadIndex h p = Resolved p' /\
              vaultIndex p' = vaultIndex p /\
              (forall s, p = new_plugin s ->
                         vaultIndex p' = {| chunks := []; lastUpdated := 0 |})) /\
  (forall data parsed,
     adapter_exists h (indexPath h) = Resolved true ->
     adapter_read h (indexPath h) = Resolved data ->
     JSON_parse h data = Resolved parsed ->
     exists p', loadIndex h p = Resolved p' /\
       lastUpdated (vaultIndex p') = persisted_lastUpdated parsed /\
       Forall2 (revived_from h) (chunks (vaultIndex p'))
         (List.filter (fun item => is_live h (filePath item))
            (persisted_chunks parsed))).
Proof.
  split_and!.
  - unfold loadIndex. destruct (loadIndex_try h p); eexists; reflexivity.
  - intros Hno. unfold loadIndex, loadIndex_try. rewrite Hno. simpl.
    eexists. split; [reflexivity|]. split; [reflexivity|].
    intros s ->. reflexivity.
  - intros data parsed Hyes Hread Hparse.
    unfold loadIndex, loadIndex_try. rewrite Hyes. simpl.
    rewrite Hread. simpl. rewrite Hparse. simpl.
    eexists. split; [reflexivity|]. simpl. split; [reflexivity|].
    apply revive_all.
Qed.

End LoadFacts.

Lemma loadIndex_spec_witness :
  (exists p',
     loadIndex fresh_host (new_plugin sample_settings) = Resolved p' /\
     vaultIndex p' = {| chunks := []; lastUpdated := 0 |}) /\
  (exists p',
     loadIndex sample_host (new_plugin sample_settings) = Resolved p' /\
     lastUpdated (vaultIndex p') = persisted_lastUpdated sample_persisted /\
     Forall2 (revived_from sample_host) (chunks (vaultIndex p'))
       (List.filter (fun item => is_live sample_host (filePath item))
          (persisted_chunks sample_persisted))).
Proof.
  split.
  - destruct (loadIndex_spec fresh_host (new_plugin sample_settings))
      as (_ & Hnone & _).
    destruct (Hnone eq_refl) as (p' & Hload & _ & Hempty).
    exists p'. split; [exact Hload|]. apply (Hempty sample_settings).
    reflexivity.
  - destruct (loadIndex_spec sample_host (new_plugin sample_settings))
      as (_ & _ & Hload).
    apply (Hload "{}"%string sample_persisted); reflexivity.
Defined.

(** Of the three sample records the one for note a is loaded; the record
    of the note that is gone and the record whose path is a folder are
    not. *)
Example loadIndex_sample :
  exists p',
    loadIndex sample_host (new_plugin sample_settings) = Resolved p' /\
    map chunk_text (chunks (vaultIndex p')) = ["alpha"%string].
Proof. eexists. split; [vm_compute; reflexivity|]. reflexivity. Qed.

(* ================================================================== *)
(** ** rebuildIndex *)
(* ================================================================== *)

Section RebuildFacts.
Context {num : Type} `{Number num}.

Lemma releases_AwaitSave (nchunks nfiles : nat) :
  releases (@AwaitSave num nchunks nfiles).
Proof.
  constructor.
  - intros now r p p' Hres. simpl in Hres. injection Hres as <-. reflexivity.
  - intros now r p p' pt' Hres. simpl in Hres. discriminate.
Qed.

(** After the last chunk of a file the loop goes on with the next file:
    it ends as the activation at the head of the files to come ends. *)
Lemma next_file_cases (now : Z) (files : list TFile)
    (chunks : list (@IndexedChunk num)) (processed total : nat)
    (p : ConvergePlugin) :
  exists p' pt', next_file now files chunks processed total p = (p', Some pt') /\
    isIndexing p' = isIndexing p /\
    match files with
    | [] => exists n m, pt' = AwaitSave n m
    | file :: rest => exists cs k t, pt' = AwaitRead file rest cs k t
    end.
Proof.
  destruct files as [|file rest]; simpl.
  - eexists _, _. split; [reflexivity|]. split; [reflexivity|]. eauto.
  - eexists _, _. split; [reflexivity|]. split; [reflexivity|]. eauto.
Qed.

Lemma next_chunk_cases (now : Z) (file : TFile) (textChunks : list TextChunk)
    (rest : list TFile) (chunks : list (@IndexedChunk num))
    (processed total : nat) (p : ConvergePlugin) :
  exists p' pt',
    next_chunk now file textChunks rest chunks processed total p = (p', Some pt') /\
    isIndexing p' = isIndexing p /\
    match textChunks with
    | chunk :: more =>
        exists cs k t, pt' = AwaitEmbedding file chunk more rest cs k t
    | [] => match rest with
            | [] => exists n m, pt' = AwaitSave n m
            | f :: fs => exists cs k t, pt' = AwaitRead f fs cs k t
            end
    end.
Proof.
  destruct textChunks as [|chunk more]; simpl.
  - destruct (next_file_cases now rest chunks (S processed) total
                (if (S processed mod 10 =? 0)%nat
                 then notice (NoticeIndexed (S processed) total) p else p))
      as (p' & pt' & Hnext & Hflag & Hpt).
    exists p', pt'. split; [exact Hnext|]. split; [|exact Hpt].
    rewrite Hflag. destruct (S processed mod 10 =? 0)%nat; reflexivity.
  - eexists _, _. split; [reflexivity|]. split; [reflexivity|]. eauto.
Qed.

Lemma next_chunk_releases (now : Z) (file : TFile) (textChunks : list TextChunk)
    (rest : list TFile) (chunks : list (@IndexedChunk num))
    (processed total : nat) (p : ConvergePlugin) :
  @next_releases num rest ->
  (forall chunk more (cs : list (@IndexedChunk num)) k t,
     textChunks = chunk :: more ->
     releases (AwaitEmbedding file chunk more rest cs k t)) ->
  exists p' pt',
    next_chunk now file textChunks rest chunks processed total p = (p', Some pt') /\
    releases pt'.
Proof.
  intros Hrest Hmore.
  destruct (next_chunk_cases now file textChunks rest chunks processed total p)
    as (p' & pt' & Hnext & _ & Hpt).
  exists p', pt'. split; [exact Hnext|].
  destruct textChunks as [|chunk more].
  - destruct rest as [|f fs].
    + destruct Hpt as (n & m & ->). apply releases_AwaitSave.
    + destruct Hpt as (cs & k & t & ->). apply Hrest.
  - destruct Hpt as (cs & k & t & ->). apply Hmore. reflexivity.
Qed.

Lemma releases_AwaitEmbedding (rest : list TFile) :
  @next_releases num rest ->
  forall more file chunk (cs : list (@IndexedChunk num)) k t,
    releases (AwaitEmbedding file chunk more rest cs k t).
Proof.
  intros Hrest. induction more as [|c more IH]; intros file chunk cs k t.
  - constructor; intros now r p p'.
    + intros Hres. cbn [resume] in Hres.
      destruct r as [[s|e|]|e];
        match type of Hres with
        | next_chunk ?n ?f ?tc ?rs ?c ?k ?t ?q = _ =>
            destruct (next_chunk_cases n f tc rs c k t q)
              as (? & ? & Hnext & _); rewrite Hnext in Hres; discriminate
        end.
    + intros pt' Hres. cbn [resume] in Hres.
      destruct r as [[s|e|]|e];
        match type of Hres with
        | next_chunk ?n ?f ?tc ?rs ?c ?k ?t ?q = _ =>
            destruct (next_chunk_releases n f tc rs c k t q Hrest)
              as (? & ? & Hnext & Hrel); [intros; discriminate|];
            rewrite Hnext in Hres; injection Hres as <- <-; exact Hrel
        end.
  - constructor; intros now r p p'.
    + intros Hres. cbn [resume] in Hres.
      destruct r as [[s|e|]|e];
        match type of Hres with
        | next_chunk ?n ?f ?tc ?rs ?c ?k ?t ?q = _ =>
            destruct (next_chunk_cases n f tc rs c k t q)
              as (? & ? & Hnext & _); rewrite Hnext in Hres; discriminate
        end.
    + intros pt' Hres. cbn [resume] in Hres.
      destruct r as [[s|e|]|e];
        match type of Hres with
        | next_chunk ?n ?f ?tc ?rs ?c ?k ?t ?q = _ =>
            destruct (next_chunk_releases n f tc rs c k t q Hrest)
              as (? & ? & Hnext & Hrel);
              [intros ? ? ? ? ? [= <- <-]; apply IH|];
            rewrite Hnext in Hres; injection Hres as <- <-; exact Hrel
        end.
Qed.

Lemma releases_AwaitRead (rest : list TFile) :
  forall file (cs : list (@IndexedChunk num)) k t,
    releases (AwaitRead file rest cs k t).
Proof.
  induction rest as [|f fs IH]; intros file cs k t.
  - constructor; intros now r p p'.
    + intros Hres. cbn [resume] in Hres.
      destruct r as [[s|e|]|e]; try (injection Hres as <-; reflexivity).
      destruct (next_chunk_cases now file
                  (chunkText s (chunkSize (settings p))
                     (chunkOverlap (settings p))) [] cs k t p)
        as (? & ? & Hnext & _). rewrite Hnext in Hres. discriminate.
    + intros pt' Hres. cbn [resume] in Hres.
      destruct r as [[s|e|]|e]; try discriminate.
      destruct (next_chunk_releases now file
                  (chunkText s (chunkSize (settings p))
                     (chunkOverlap (settings p))) [] cs k t p I)
        as (? & ? & Hnext & Hrel).
      { intros. apply releases_AwaitEmbedding. exact I. }
      rewrite Hnext in Hres. injection Hres as <- <-. exact Hrel.
  - assert (Hrest : @next_releases num (f :: fs)) by (intros ? ? ?; apply IH).
    constructor; intros now r p p'.
    + intros Hres. cbn [resume] in Hres.
      destruct r as [[s|e|]|e]; try (injection Hres as <-; reflexivity).
      destruct (next_chunk_cases now file
                  (chunkText s (chunkSize (settings p))
                     (chunkOverlap (settings p))) (f :: fs) cs k t p)
        as (? & ? & Hnext & _). rewrite Hnext in Hres. discriminate.
    + intros pt' Hres. cbn [resume] in Hres.
      destruct r as [[s|e|]|e]; try discriminate.
      destruct (next_chunk_releases now file
                  (chunkText s (chunkSize (settings p))
                     (chunkOverlap (settings p))) (f :: fs) cs k t p Hrest)
        as (? & ? & Hnext & Hrel).
      { intros. apply releases_AwaitEmbedding. exact Hrest. }
      rewrite Hnext in Hres. injection Hres as <- <-. exact Hrel.
Qed.

(** Every suspended activation comes to its end and clears the flag. *)
Lemma releases_all (pt : @RebuildPoint num) : releases pt.
Proof.
  destruct pt as [file rest cs k t|file chunk more rest cs k t|n m].
  - apply releases_AwaitRead.
  - apply releases_AwaitEmbedding.
    destruct rest; [exact I|]. intros ? ? ?. apply releases_AwaitRead.
  - apply releases_AwaitSave.
Qed.

(** While an activation goes on the flag stays set; when it ends the flag
    is cleared. *)
Lemma resume_flag (now : Z) (pt : @RebuildPoint num) (r : Outcome Value)
    (p : ConvergePlugin) :
  isIndexing p = true ->
  match resume now pt r p with
  | (p', None) => isIndexing p' = false
  | (p', Some _) => isIndexing p' = true
  end.
Proof.
  intros Hflag.
  destruct pt as [file rest cs k t|file chunk more rest cs k t|n m];
    cbn [resume].
  - destruct r as [[s|e|]|e]; try reflexivity.
    destruct (next_chunk_cases now file
                (chunkText s (chunkSize (settings p))
                   (chunkOverlap (settings p))) rest cs k t p)
      as (p' & pt' & -> & Hsame & _).
    rewrite Hsame. exact Hflag.
  - destruct r as [[s|e|]|e];
      match goal with
      | |- context [next_chunk ?n ?f ?tc ?rs ?c ?k ?t ?q] =>
          destruct (next_chunk_cases n f tc rs c k t q)
            as (p' & pt' & -> & Hsame & _); rewrite Hsame; exact Hflag
      end.
  - reflexivity.
Qed.

Lemma rebuildIndex_starts (files : list TFile) (now : Z)
    (p : @ConvergePlugin num) :
  isIndexing p = false ->
  exists p' pt, rebuildIndex files now p = (p', Some pt) /\ isIndexing p' = true.
Proof.
  intros Hflag. unfold rebuildIndex. rewrite Hflag.
  destruct (next_file_cases now files [] 0 (length files)
              (notice NoticeBuildingIndex (set_isIndexing true p)))
    as (p' & pt' & Hnext & Hsame & _).
  exists p', pt'. split; [exact Hnext|]. rewrite Hsame. reflexivity.
Qed.

Lemma step_ok (w : @World num) (ev : Event) : world_ok w -> world_ok (step w ev).
Proof.
  intros [[Hflag Hnone]|[Hflag [pt Hone]]]; destruct ev as [files now|k r now];
    unfold step.
  - destruct (rebuildIndex_starts files now (plugin w) Hflag)
      as (p' & pt & -> & Hset).
    right. simpl. rewrite Hnone. eauto.
  - rewrite Hnone. simpl. left. auto.
  - unfold rebuildIndex. rewrite Hflag. simpl. rewrite app_nil_r.
    right. eauto.
  - rewrite Hone. destruct k as [|k]; simpl; [|right; rewrite Hone; eauto].
    pose proof (resume_flag now pt r (plugin w) Hflag) as Hres.
    destruct (resume now pt r (plugin w)) as [p' [pt'|]]; simpl.
    + right. eauto.
    + left. auto.
Qed.

Lemma run_ok (trace : list Event) :
  forall w : @World num, world_ok w -> world_ok (run w trace).
Proof.
  induction trace as [|ev trace IH]; intros w Hok; simpl; [exact Hok|].
  apply IH. apply step_ok. exact Hok.
Qed.

(** C5.  Whatever calls of [rebuildIndex] and answers to its awaits come
    in whatever order, at most one activation is in flight, and
    [isIndexing] is set exactly while one is.  A call made while the flag
    is set only shows a notice: the activation in flight, the index and
    the flag stay as they are.  Every activation comes to its end whatever
    its awaits answer, and the flag is false when it does; a read that
    rejects ends it at once through [catch] and [finally]. *)
Theorem rebuildIndex_exclusive :
  (forall (s : @ConvergeSettings num) (trace : list Event),
     let w := run (new_world s) trace in
     length (inflight w) <= 1 /\
     (isIndexing (plugin w) = true <-> inflight w <> [])) /\
  (forall (w : @World num) (files : list TFile) (now : Z),
     isIndexing (plugin w) = true ->
     let w' := step w (CallRebuildIndex files now) in
     inflight w' = inflight w /\
     vaultIndex (plugin w') = vaultIndex (plugin w) /\
     isIndexing (plugin w') = true /\
     notices (plugin w') = notices (plugin w) ++ [NoticeIndexingInProgress]) /\
  (forall pt : @RebuildPoint num, releases pt) /\
  (forall (now : Z) file rest (cs : list (@IndexedChunk num)) k t e p,
     exists p', resume now (AwaitRead file rest cs k t) (Rejected e) p = (p', None)
                /\ isIndexing p' = false
                /\ vaultIndex p' = vaultIndex p).
Proof.
  split_and!.
  - intros s trace w.
    assert (Hok : world_ok w).
    { apply run_ok. left. split; reflexivity. }
    destruct Hok as [[Hflag Hnone]|[Hflag [pt Hone]]].
    + rewrite Hnone, Hflag. simpl. split; [lia|]. split; [discriminate|].
      intros Hne. contradiction.
    + rewrite Hone, Hflag. simpl. split; [lia|]. split; [discriminate|].
      reflexivity.
  - intros w files now Hflag w'. unfold w', step, rebuildIndex.
    rewrite Hflag. simpl. rewrite app_nil_r. rewrite Hflag.
    repeat split; reflexivity.
  - apply releases_all.
  - intros now file rest cs k t e p. eexists. split; [reflexivity|].
    split; reflexivity.
Qed.

End RebuildFacts.

Lemma rebuildIndex_exclusive_witness :
  inflight
    (step (run (new_world sample_settings)
             [CallRebuildIndex [sample_file "a"] 1])
       (CallRebuildIndex [sample_file "a"; sample_file "b"] 2))
  = inflight (run (new_world sample_settings)
                [CallRebuildIndex [sample_file "a"] 1]).
Proof.
  destruct (@rebuildIndex_exclusive float) as (_ & Hreject & _).
  apply (Hreject (run (new_world sample_settings)
                    [CallRebuildIndex [sample_file "a"] 1])).
  reflexivity.
Defined.

(** A rebuild of a vault of one note whose text makes one chunk: the
    second call is turned away, the embedding arrives, the index is
    swapped and saved, and the flag is down again. *)
Example rebuildIndex_sample :
  let w := run (new_world sample_settings)
             [ CallRebuildIndex [sample_file "a"] 1;
               CallRebuildIndex [sample_file "a"] 2;
               Settle 0 (Resolved (VText "alpha")) 3;
               Settle 0 (Resolved (VEmbedding [1%float; 0%float])) 4;
               Settle 0 (Resolved VUnit) 5 ] in
  isIndexing (plugin w) = false /\ inflight w = [] /\
  map chunk_text (chunks (vaultIndex (plugin w))) = ["alpha"%string] /\
  lastUpdated (vaultIndex (plugin w)) = 4%Z /\
  notices (plugin w)
  = [NoticeBuildingIndex; NoticeIndexingInProgress; NoticeIndexComplete 1 1].
Proof. vm_compute. repeat split; reflexivity. Qed.

(* ================================================================== *)
(** ** sendMessage *)
(* ================================================================== *)

Section SendFacts.
Context {num : Type} `{Number num}.

Lemma performSemanticSearch_frame (sv : Services) (p : ConvergePlugin)
    (query : string) (v : ChatView) :
  messages (performSemanticSearch sv p query v) = messages v /\
  requests (performSemanticSearch sv p query v) = requests v /\
  contextNotes (performSemanticSearch sv p query v) = contextNotes v.
Proof.
  unfold performSemanticSearch.
  destruct (String.eqb (trim query) ""); [auto|].
  destruct (length (chunks (vaultIndex p)) =? 0)%nat; [simpl; auto|].
  destruct (getEmbedding sv query); simpl; auto.
Qed.

(** A read of the stream that rejects makes the whole call reject: what
    was accumulated from the pieces before it is dropped. *)
Lemma read_stream_broken (parse : string -> option string)
    (delivered : list string) (e : string) (rest : list (Outcome string)) :
  forall fullContent,
    read_stream parse (map Resolved delivered ++ Rejected e :: rest) fullContent
    = Rejected e.
Proof.
  induction delivered as [|piece delivered IH]; intros fullContent; simpl.
  - reflexivity.
  - apply IH.
Qed.

(** The ways a completion call fails: the transport fails, the service
    answers with a status that is not a success, the response has no body,
    or a read of the stream fails. *)
Lemma callLLMStreaming_failures (sv : @Services num) (msgs : list ChatMessage) :
  (forall e, fetch_completion sv msgs = Rejected e ->
             callLLMStreaming sv msgs = Rejected e) /\
  (forall response, fetch_completion sv msgs = Resolved response ->
     ok response = false -> exists e, callLLMStreaming sv msgs = Rejected e) /\
  (forall response, fetch_completion sv msgs = Resolved response ->
     ok response = true -> response_body response = None ->
     callLLMStreaming sv msgs = Rejected "No response body") /\
  (forall response delivered e rest,
     fetch_completion sv msgs = Resolved response ->
     ok response = true ->
     response_body response
     = Some (map Resolved delivered ++ Rejected e :: rest) ->
     callLLMStreaming sv msgs = Rejected e).
Proof.
  unfold callLLMStreaming. split_and!.
  - intros e ->. reflexivity.
  - intros response -> Hok. simpl. rewrite Hok. simpl.
    destruct (response_text response); simpl; eexists; reflexivity.
  - intros response -> Hok Hbody. simpl. rewrite Hok, Hbody. reflexivity.
  - intros response delivered e rest -> Hok Hbody. simpl.
    rewrite Hok, Hbody. simpl. apply read_stream_broken.
Qed.

Lemma app_singleton_neq {A : Type} (l : list A) (x : A) : l <> l ++ [x].
Proof.
  intros Heq. apply (f_equal length) in Heq. rewrite length_app in Heq.
  simpl in Heq. lia.
Qed.

(** C4.  When [sendMessage] has made its completion call (the request it
    sent is [req]) and the call failed, the history is what it was before
    the send: the request held the history with the user's message
    appended, and the message has been taken off again; no assistant
    message is in the history, the error is shown, and the view is no
    longer loading. *)
Theorem sendMessage_rollback (sv : Services) (p : ConvergePlugin)
    (v : ChatView) (req : list ChatMessage) (e : string) :
  let v' := fst (sendMessage sv p v) in
  requests v' = requests v ++ [req] ->
  callLLMStreaming sv req = Rejected e ->
  messages v' = messages v /\
  length (messages v') = length (messages v) /\
  (exists systemContent,
     req = {| role := system; content := systemContent |}
           :: messages v
           ++ [ {| role := user; content := trim (inputValue v) |} ]) /\
  view_notices v' = view_notices v ++ [NoticeError e] /\
  isLoading v' = false /\
  snd (sendMessage sv p v) = Resolved tt.
Proof.
  intros v'. unfold v', sendMessage.
  destruct (String.eqb (trim (inputValue v)) "" || isLoading v) eqn:Hguard.
  { simpl. intros Hreq. exfalso. exact (app_singleton_neq _ _ Hreq). }
  destruct (String.eqb (apiKey (settings p)) "") eqn:Hkey.
  { simpl. intros Hreq. exfalso. exact (app_singleton_neq _ _ Hreq). }
  set (v1 := set_inputValue ""
               (set_messages
                  (messages v ++ [ {| role := user;
                                      content := trim (inputValue v) |} ])
                  (set_isLoading true v))).
  set (v2 := if useSemanticSearch (settings p)
                && (0 <? length (chunks (vaultIndex p)))%nat
             then performSemanticSearch sv p (trim (inputValue v)) v1
             else v1).
  assert (Hv2 : messages v2 = messages v1 /\ requests v2 = requests v1 /\
                contextNotes v2 = contextNotes v1).
  { unfold v2. destruct (_ && _); [apply performSemanticSearch_frame|auto]. }
  destruct Hv2 as (Hm & Hr & _).
  destruct (read_context sv (contextNotes v2) "") as [notesText|e'] eqn:Hread.
  { cbn [fst snd]. cbn [requests set_isLoading].
    intros Hreq Hfail.
    assert (Hsent : req = {| role := system;
                             content := system_content (settings p)
                                          (semantic_context (semanticResults v2)
                                             notesText) |} :: messages v2).
    { destruct (callLLMStreaming sv _) in Hreq; simpl in Hreq;
        rewrite Hr in Hreq; simpl in Hreq;
        apply app_inj_tail in Hreq as [_ Hreq]; symmetry; exact Hreq. }
    rewrite <- Hsent, Hfail. simpl. rewrite Hm. simpl.
    rewrite removelast_last.
    assert (Hnotices : view_notices v2 = view_notices v).
    { unfold v2. destruct (_ && _) eqn:Hsem; [|reflexivity].
      unfold performSemanticSearch.
      destruct (String.eqb (trim (trim (inputValue v))) ""); [reflexivity|].
      destruct (length (chunks (vaultIndex p)) =? 0)%nat eqn:Hzero.
      - exfalso. clear -Hzero Hsem. apply andb_true_iff in Hsem as [_ Hpos].
        apply Nat.ltb_lt in Hpos. apply Nat.eqb_eq in Hzero. lia.
      - destruct (getEmbedding sv (trim (inputValue v))); reflexivity. }
    split_and!; try reflexivity.
    - exists (system_content (settings p)
                (semantic_context (semanticResults v2) notesText)).
      rewrite Hsent, Hm. reflexivity.
    - rewrite Hnotices. reflexivity. }
  { cbn [fst]. rewrite Hr. simpl. intros Hreq. exfalso.
    exact (app_singleton_neq _ _ Hreq). }
Qed.

End SendFacts.

Lemma sendMessage_rollback_witness :
  messages
    (fst (sendMessage sample_services (sample_plugin sample_index) sample_view))
  = messages sample_view.
Proof.
  apply (sendMessage_rollback sample_services (sample_plugin sample_index)
           sample_view
           (hd [] (requests
                     (fst (sendMessage sample_services
                             (sample_plugin sample_index) sample_view))))
           "API error 500: Internal Server Error").
  - vm_compute. reflexivity.
  - vm_compute. reflexivity.
Defined.

(** Scenario D: the service answers with status 500; the history is as
    before, the error is shown and the view is idle again. *)
Example sendMessage_http_500 :
  let v' := fst (sendMessage sample_services (sample_plugin sample_index)
                   sample_view) in
  map content (messages v') = ["hi"; "hello"]%string /\
  view_notices v' = [NoticeError "API error 500: Internal Server Error"] /\
  isLoading v' = false /\
  map (map content) (requests v')
  = [ [ ("Be helpful." ++ nl ++ nl ++ "Context from user's notes:" ++ nl ++ nl
         ++ "--- a ---" ++ nl ++ "query")%string;
        "hi"%string; "hello"%string; "what is alpha?"%string ] ].
Proof. vm_compute. repeat split; reflexivity. Qed.

(* ================================================================== *)
(** ** The context list *)
(* ================================================================== *)

Section ContextFacts.
Context {num : Type} `{Number num}.

Lemma find_path_None (p : string) (notes : list TFile) :
  find_path p notes = None -> ~ In p (map path notes).
Proof.
  unfold find_path. intros Hnone Hin.
  apply in_map_iff in Hin as (f & Hp & Hf).
  pose proof (find_none _ _ Hnone f Hf) as Hneq. simpl in Hneq.
  rewrite Hp, String.eqb_refl in Hneq. discriminate.
Qed.

Lemma push_NoDup (f : TFile) (notes : list TFile) :
  find_path (path f) notes = None ->
  List.NoDup (map path notes) -> List.NoDup (map path (notes ++ [f])).
Proof.
  intros Hnone Hnodup. rewrite map_app. simpl.
  apply NoDup_ListNoDup, NoDup_app. split_and!.
  - apply NoDup_ListNoDup. exact Hnodup.
  - intros x Hx Hx'. apply list_elem_of_In in Hx.
    apply list_elem_of_singleton in Hx'. subst x.
    exact (find_path_None _ _ Hnone Hx).
  - apply NoDup_singleton.
Qed.

Lemma add_matching_NoDup (keep : TFile -> bool) (files : list TFile) :
  forall (notes : list TFile) (added : nat),
    List.NoDup (map path notes) ->
    List.NoDup (map path (fst (add_matching keep files notes added))).
Proof.
  induction files as [|f files IH]; intros notes added Hnodup; simpl.
  - exact Hnodup.
  - destruct (keep f); [|apply IH; exact Hnodup].
    destruct (find_path (path f) notes) eqn:Hfind; [apply IH; exact Hnodup|].
    apply IH. apply push_NoDup; assumption.
Qed.

Lemma filter_path_NoDup (keep : TFile -> bool) (notes : list TFile) :
  List.NoDup (map path notes) ->
  List.NoDup (map path (List.filter keep notes)).
Proof.
  induction notes as [|f notes IH]; simpl; intros Hnodup; [constructor|].
  apply List.NoDup_cons_iff in Hnodup as [Hnotin Hnodup].
  destruct (keep f); simpl; [|apply IH; exact Hnodup].
  constructor; [|apply IH; exact Hnodup].
  intros Hin. apply Hnotin. apply in_map_iff in Hin as (g & Hg & Hgin).
  apply filter_In in Hgin as [Hgin _]. apply in_map_iff. exists g. auto.
Qed.

Lemma context_step_NoDup (v : @ChatView num) (a : Host * ContextAction) :
  List.NoDup (map path (contextNotes v)) ->
  List.NoDup (map path (contextNotes (context_step v a))).
Proof.
  intros Hnodup. destruct a as [h [filePath|f|tag|folder| | |p|]];
    unfold context_step; cbn [fst snd].
  - unfold setupDropZone. destruct (String.eqb filePath ""); [exact Hnodup|].
    destruct (vault_files h !! filePath) as [[f|d]|]; try exact Hnodup.
    destruct (String.eqb (extension f) "md"); [|exact Hnodup].
    destruct (find_path (path f) (contextNotes v)) eqn:Hfind; [exact Hnodup|].
    simpl. apply push_NoDup; assumption.
  - unfold showNoteSuggest.
    destruct (find_path (path f) (contextNotes v)) eqn:Hfind; [exact Hnodup|].
    simpl. apply push_NoDup; assumption.
  - unfold showTagSuggest.
    pose proof (add_matching_NoDup
                  (fun f => hasTag (fileCache h (path f)) tag)
                  (markdownFiles h) (contextNotes v) 0 Hnodup) as Hadd.
    destruct (add_matching _ _ _ _) as [notes added]. exact Hadd.
  - unfold showFolderSuggest.
    pose proof (add_matching_NoDup
                  (fun f => String.prefix (folder ++ "/") (path f))
                  (markdownFiles h) (contextNotes v) 0 Hnodup) as Hadd.
    destruct (add_matching _ _ _ _) as [notes added]. exact Hadd.
  - unfold addLinkedNotes. destruct (activeFile h) as [active|]; [|exact Hnodup].
    match goal with
    | |- context [add_matching ?k ?fs ?ns ?n] =>
        pose proof (add_matching_NoDup k fs ns n Hnodup) as Hadd;
        destruct (add_matching k fs ns n) as [notes added]
    end.
    exact Hadd.
  - unfold autoAddCurrentNote. destruct (activeFile h) as [active|]; [|exact Hnodup].
    destruct (String.eqb (extension active) "md"); [|exact Hnodup].
    destruct (find_path (path active) (contextNotes v)); [exact Hnodup|].
    simpl. constructor; [intros []|constructor].
  - unfold removeContextNote. simpl. apply filter_path_NoDup. exact Hnodup.
  - unfold clearChat. simpl. constructor.
Qed.

(** C10.  Whatever the user does to the context list, from the start of
    the view on, no two entries of the list have the same path. *)
Theorem contextNotes_NoDup (actions : list (@Host num * ContextAction)) :
  List.NoDup
    (map path (contextNotes (fold_left context_step actions new_view))).
Proof.
  assert (Hany : forall v : @ChatView num,
            List.NoDup (map path (contextNotes v)) ->
            List.NoDup
              (map path (contextNotes (fold_left context_step actions v)))).
  { induction actions as [|a actions IH]; intros v Hnodup; simpl.
    - exact Hnodup.
    - apply IH. apply context_step_NoDup. exact Hnodup. }
  apply Hany. simpl. constructor.
Qed.

End ContextFacts.

(** Picking the sample note twice, by the picker and by a drop, lists it
    once. *)
Example contextNotes_sample :
  map path
    (contextNotes
       (fold_left context_step
          [ (sample_host, PickNote (sample_file "a"));
            (sample_host, DropFile "a.md");
            (sample_host, PickFolder "notes");
            (sample_host, ActiveLeafChange) ]
          new_view))
  = ["a.md"%string].
Proof. vm_compute. reflexivity. Qed.

(* ================================================================== *)
(** ** The chunker: sizes, line numbers and reassembly *)
(* ================================================================== *)

Lemma join_lines_cons (line : string) (lines : list string) :
  lines <> [] ->
  join_lines (line :: lines) = (line ++ nl ++ join_lines lines)%string.
Proof. destruct lines; [contradiction|reflexivity]. Qed.

Lemma join_lines_String (c : ascii) (line : string) (lines : list string) :
  join_lines (String c line :: lines) = String c (join_lines (line :: lines)).
Proof. destruct lines; reflexivity. Qed.

(** [split] and [join] are inverse to each other. *)
Lemma join_split_lines (text : string) : join_lines (split_lines text) = text.
Proof.
  induction text as [|c rest IH]; cbn [split_lines]; [reflexivity|].
  destruct (Ascii.eqb_spec c newline) as [->|Hc].
  - rewrite join_lines_cons by apply split_lines_nonempty.
    rewrite IH. reflexivity.
  - pose proof (split_lines_nonempty rest) as Hne.
    destruct (split_lines rest) as [|line lines]; [contradiction|].
    rewrite join_lines_String, IH. reflexivity.
Qed.

Lemma split_lines_app (line rest : string) :
  contains_newline line = false ->
  split_lines (line ++ nl ++ rest) = line :: split_lines rest.
Proof.
  unfold contains_newline.
  induction line as [|c line IH]; simpl.
  - intros _. reflexivity.
  - destruct (Ascii.eqb c newline); simpl; [discriminate|].
    intros Hline. rewrite (IH Hline). reflexivity.
Qed.

Lemma split_join_lines (lines : list string) :
  lines <> [] -> Forall (fun line => contains_newline line = false) lines ->
  split_lines (join_lines lines) = lines.
Proof.
  induction lines as [|line lines IH]; intros Hne Hall; [contradiction|].
  apply Forall_cons in Hall as [Hline Hall].
  destruct lines as [|line' lines].
  - apply split_lines_single. exact Hline.
  - rewrite join_lines_cons by discriminate.
    rewrite split_lines_app by exact Hline.
    rewrite IH by (discriminate || exact Hall). reflexivity.
Qed.

Lemma split_lines_no_newline (text : string) :
  Forall (fun line => contains_newline line = false) (split_lines text).
Proof.
  induction text as [|c rest IH]; simpl.
  - constructor; [reflexivity|constructor].
  - destruct (Ascii.eqb c newline) eqn:Hc.
    + constructor; [reflexivity|exact IH].
    + destruct (split_lines rest) as [|line lines].
      * constructor; [|constructor]. unfold contains_newline. simpl.
        rewrite Hc. reflexivity.
      * apply Forall_cons in IH as [Hline Hlines].
        constructor; [|exact Hlines].
        unfold contains_newline in *. simpl. rewrite Hc. exact Hline.
Qed.

Lemma new_from_app_l (cs : list TextChunk) (x : TextChunk) (k : nat) :
  k <= length cs -> new_from (cs ++ [x]) k = new_from cs k.
Proof.
  intros Hk. destruct k as [|k']; [reflexivity|]. simpl.
  rewrite lookup_app_l by lia. reflexivity.
Qed.

Lemma new_from_snoc (cs : list TextChunk) (x : TextChunk) :
  new_from (cs ++ [x]) (length (cs ++ [x])) = (endLine x + 1)%Z.
Proof.
  rewrite length_app. simpl. replace (length cs + 1) with (S (length cs)) by lia.
  simpl. rewrite lookup_app_r by lia. rewrite Nat.sub_diag. reflexivity.
Qed.

(** Closing the buffer at line [m] keeps the invariant of the sizes for
    the chunks closed so far. *)
Lemma size_inv_close (lines : list string) (chunkSize overlap m : nat)
    (st : Chunker) :
  m <= length lines ->
  chunker_inv lines overlap (Z.of_nat m) st ->
  size_inv lines chunkSize (Z.of_nat m) st ->
  forall k c, (out st ++ [pending st (Z.of_nat m)]) !! k = Some c ->
    fits lines chunkSize (out st ++ [pending st (Z.of_nat m)]) k c /\
    (full lines chunkSize c \/ k = length (out st)).
Proof.
  intros Hm (Hstart & Hbuf & Hsize & _ & _) (Hout & Hcur) k c Hk.
  apply lookup_app_Some in Hk as [Hk|[Hlen Hk]].
  - destruct (Hout k c Hk) as [Hfit Hfull]. split; [|left; exact Hfull].
    unfold fits in *. rewrite new_from_app_l; [exact Hfit|].
    apply lookup_lt_Some in Hk. lia.
  - apply list_lookup_singleton_Some in Hk as [Hidx <-].
    assert (Hkl : k = length (out st)) by lia. subst k.
    split; [|right; reflexivity].
    unfold fits, lines_of, pending. cbn [startLine endLine].
    rewrite <- Hbuf, <- Hsize. rewrite new_from_app_l by lia.
    exact Hcur.
Qed.

Lemma size_step_inv (lines : list string) (chunkSize overlap m : nat)
    (line : string) (st : Chunker) :
  lines !! m = Some line ->
  chunker_inv lines overlap (Z.of_nat m) st ->
  size_inv lines chunkSize (Z.of_nat m) st ->
  size_inv lines chunkSize (Z.of_nat (S m))
    (chunk_step chunkSize overlap st (Z.of_nat m) line).
Proof.
  intros Hline Hinv Hsz.
  assert (Hm : m < length lines) by (eapply lookup_lt_Some; exact Hline).
  pose proof (size_inv_close lines chunkSize overlap m st
                ltac:(lia) Hinv Hsz) as Hclose.
  destruct Hinv as (Hstart & Hbuf & Hsize & Hfirst & Hchain).
  destruct Hsz as (Hout & Hcur).
  unfold chunk_step.
  destruct ((chunkSize <? currentSize st + estimateTokens line)%nat
            && (0 <? length (currentChunk st))%nat) eqn:Hcond.
  - apply andb_true_iff in Hcond as [Hbig _]. apply Nat.ltb_lt in Hbig.
    destruct (overlap_loop overlap (rev (currentChunk st)) [] 0)
      as [overlapLines overlapSize].
    unfold size_inv. cbn [out currentSize].
    change {| text := join_lines (currentChunk st);
              startLine := currentStart st;
              endLine := Z.of_nat m - 1 |}
      with (pending st (Z.of_nat m)).
    split.
    + intros k c Hk. destruct (Hclose k c Hk) as [Hfit [Hfull|Hlast]].
      * split; assumption.
      * split; [exact Hfit|]. subst k.
        rewrite lookup_app_r in Hk by lia. rewrite Nat.sub_diag in Hk.
        injection Hk as <-.
        exists line. unfold lines_of, pending. cbn [startLine endLine].
        rewrite <- Hbuf, <- Hsize.
        replace (Z.to_nat (Z.of_nat m - 1 + 1)) with m by lia.
        split; [exact Hline|exact Hbig].
    + right. rewrite new_from_snoc. unfold pending. cbn [endLine]. lia.
  - unfold size_inv. cbn [out currentSize]. split; [exact Hout|].
    apply andb_false_iff in Hcond as [Hsmall|Hempty].
    + left. apply Nat.ltb_ge in Hsmall. exact Hsmall.
    + right. apply Nat.ltb_ge in Hempty.
      destruct (Nat.eq_dec m 0) as [->|Hpos].
      * rewrite Hfirst by reflexivity. reflexivity.
      * exfalso. destruct Hchain as [Hlt _]; [lia|].
        assert (Hlen : length (currentChunk st)
                       = m - Z.to_nat (currentStart st)).
        { rewrite Hbuf.
          replace (currentStart st)
            with (Z.of_nat (Z.to_nat (currentStart st))) at 1 by lia.
          apply length_line_range. lia. }
        lia.
Qed.

Lemma size_loop_inv (lines : list string) (chunkSize overlap : nat)
    (todo : list string) :
  forall (m : nat) (st : Chunker),
    drop m lines = todo -> m <= length lines ->
    chunker_inv lines overlap (Z.of_nat m) st ->
    size_inv lines chunkSize (Z.of_nat m) st ->
    size_inv lines chunkSize (Z.of_nat (length lines))
      (chunk_loop chunkSize overlap todo (Z.of_nat m) st).
Proof.
  induction todo as [|line rest IH]; intros m st Hdrop Hm Hinv Hsz.
  - apply (f_equal length) in Hdrop. rewrite length_drop in Hdrop.
    simpl in Hdrop. replace (length lines) with m by lia. exact Hsz.
  - assert (Hline : lines !! m = Some line).
    { pose proof (lookup_drop lines m 0) as Hl. rewrite Hdrop in Hl.
      simpl in Hl. rewrite Nat.add_0_r in Hl. symmetry. exact Hl. }
    simpl. replace (Z.of_nat m + 1)%Z with (Z.of_nat (S m)) by lia.
    apply IH.
    + rewrite (drop_S lines line m Hline) in Hdrop. congruence.
    + apply lookup_lt_Some in Hline. lia.
    + apply chunk_step_inv; assumption.
    + apply size_step_inv; assumption.
Qed.

Lemma size_inv_init (lines : list string) (chunkSize : nat) :
  size_inv lines chunkSize 0
    {| out := []; currentChunk := []; currentSize := 0; currentStart := 0 |}.
Proof.
  split; cbn [out currentSize]; [intros k c Hk; discriminate|left; lia].
Qed.

(** The sizes of the chunks of a text. *)
Lemma chunkText_sizes (text : string) (chunkSize overlap : nat) :
  let lines := split_lines text in
  let cs := chunkText text chunkSize overlap in
  forall k c, cs !! k = Some c ->
    fits lines chunkSize cs k c /\
    (full lines chunkSize c \/ S k = length cs).
Proof.
  intros lines cs. unfold cs, chunkText. fold lines.
  pose proof (chunk_loop_inv lines chunkSize overlap lines 0 _
                eq_refl (Nat.le_0_l _) (chunker_inv_init lines overlap))
    as Hinv.
  pose proof (size_loop_inv lines chunkSize overlap lines 0 _
                eq_refl (Nat.le_0_l _) (chunker_inv_init lines overlap)
                (size_inv_init lines chunkSize))
    as Hsz.
  change (Z.of_nat 0) with 0%Z in *.
  set (st := chunk_loop chunkSize overlap lines 0 _) in *.
  pose proof (size_inv_close lines chunkSize overlap (length lines) st
                (Nat.le_refl _) Hinv Hsz) as Hclose.
  destruct ((0 <? length (currentChunk st))%nat).
  - intros k c Hk.
    change {| text := join_lines (currentChunk st);
              startLine := currentStart st;
              endLine := Z.of_nat (length lines) - 1 |}
      with (pending st (Z.of_nat (length lines))) in *.
    destruct (Hclose k c Hk) as [Hfit Hfull]. split; [exact Hfit|].
    destruct Hfull as [Hfull| ->]; [left; exact Hfull|right].
    rewrite length_app. simpl. lia.
  - intros k c Hk. destruct Hsz as [Hout _].
    destruct (Hout k c Hk) as [Hfit Hfull]. split; [exact Hfit|left; exact Hfull].
Qed.

Lemma length_line_range_Z (lines : list string) (s e : Z) :
  (0 <= s)%Z -> (s <= e + 1)%Z -> (e < Z.of_nat (length lines))%Z ->
  length (line_range lines s e) = Z.to_nat (e + 1 - s).
Proof.
  intros Hs Hse He. unfold line_range. rewrite length_take, length_drop. lia.
Qed.

Lemma append_assoc (a b c : string) :
  ((a ++ b) ++ c = a ++ (b ++ c))%string.
Proof.
  induction a as [|x a IH]; [reflexivity|].
  change (String x ((a ++ b) ++ c) = String x (a ++ (b ++ c)))%string.
  rewrite IH. reflexivity.
Qed.

Lemma join_lines_app (a b : list string) :
  a <> [] -> b <> [] ->
  join_lines (a ++ b) = (join_lines a ++ nl ++ join_lines b)%string.
Proof.
  intros Ha Hb. induction a as [|x a IH]; [contradiction|].
  destruct a as [|y a].
  - simpl app. rewrite join_lines_cons by exact Hb. reflexivity.
  - change ((x :: y :: a) ++ b) with (x :: ((y :: a) ++ b)).
    rewrite !join_lines_cons by discriminate.
    rewrite IH by discriminate. rewrite !append_assoc.
    reflexivity.
Qed.

Lemma join_lines_concat (rs : list (list string)) :
  Forall (fun r => r <> []) rs ->
  join_lines (map join_lines rs) = join_lines (concat rs).
Proof.
  induction rs as [|r rs IH]; intros Hall; [reflexivity|].
  apply Forall_cons in Hall as [Hr Hrs].
  destruct rs as [|r' rs].
  - simpl. rewrite app_nil_r. reflexivity.
  - change (map join_lines (r :: r' :: rs))
      with (join_lines r :: map join_lines (r' :: rs)).
    rewrite join_lines_cons by discriminate.
    rewrite IH by exact Hrs.
    change (concat (r :: r' :: rs)) with (r ++ concat (r' :: rs)).
    rewrite join_lines_app; [reflexivity|exact Hr|].
    apply Forall_cons in Hrs as [Hr' _].
    simpl. destruct r'; [contradiction|discriminate].
Qed.

Lemma whole_lines_nonempty (lines : list string) (c : TextChunk) :
  whole_lines lines c -> lines_of lines c <> [].
Proof.
  intros (Hse & He & _) Hnil. apply (f_equal length) in Hnil.
  unfold lines_of in Hnil. rewrite length_line_range_Z in Hnil by lia.
  simpl in Hnil. lia.
Qed.

(** Without overlap the chunks up to the latest one span, one after the
    other, the lines up to its last line. *)
Lemma chunk_chain_partition (lines : list string)
    (latest_first : list TextChunk) :
  chunk_chain lines 0 latest_first ->
  match latest_first with
  | [] => True
  | c' :: _ =>
      concat (map (lines_of lines) (rev latest_first))
      = take (Z.to_nat (endLine c' + 1)) lines
  end.
Proof.
  induction latest_first as [|c' earlier IH]; [intros _; exact I|].
  intros (Hw & Hlink & Hrest). specialize (IH Hrest).
  destruct Hw as (Hse & He & _).
  destruct earlier as [|c earlier].
  - simpl. rewrite app_nil_r. unfold lines_of, line_range.
    rewrite Hlink. simpl. rewrite drop_0.
    replace (Z.to_nat (endLine c' + 1 - 0)) with (Z.to_nat (endLine c' + 1))
      by lia.
    reflexivity.
  - destruct Hlink as (Hs & Hee & Hwin & _).
    assert (Hnext : startLine c' = (endLine c + 1)%Z).
    { destruct Hwin as [Hnil|Hlt]; [|lia].
      apply (f_equal length) in Hnil. unfold line_range in Hnil.
      rewrite length_take, length_drop in Hnil. simpl in Hnil. lia. }
    change (rev (c' :: c :: earlier)) with (rev (c :: earlier) ++ [c']).
    rewrite map_app, concat_app, IH. simpl. rewrite app_nil_r.
    unfold lines_of, line_range. rewrite Hnext.
    rewrite take_take_drop. f_equal. lia.
Qed.

(** X1.  Every chunk keeps to the chunk size, the estimated tokens of its
    lines added up as [chunkText] adds them, unless it adds a single line
    to the chunks before it: a chunk is over the size only by the lines of
    the overlap window and one more line. *)
Theorem chunkText_size_bound (text : string) (chunkSize overlap k : nat)
    (c : TextChunk) :
  let lines := split_lines text in
  let cs := chunkText text chunkSize overlap in
  cs !! k = Some c ->
  tokens_of (lines_of lines c) <= chunkSize \/ new_from cs k = endLine c.
Proof.
  intros lines cs Hk.
  destruct (chunkText_sizes text chunkSize overlap k c Hk) as [Hfit _].
  exact Hfit.
Qed.

(** X2.  A chunk is closed only when it is full: after every chunk but
    the last there is a line that would have taken it over the chunk
    size. *)
Theorem chunkText_greedy (text : string) (chunkSize overlap k : nat)
    (c : TextChunk) :
  let lines := split_lines text in
  let cs := chunkText text chunkSize overlap in
  cs !! k = Some c -> S k < length cs ->
  exists line,
    lines !! Z.to_nat (endLine c + 1) = Some line /\
    chunkSize < tokens_of (lines_of lines c) + estimateTokens line.
Proof.
  intros lines cs Hk Hlast.
  destruct (chunkText_sizes text chunkSize overlap k c Hk) as [_ [Hfull|Hend]].
  - exact Hfull.
  - fold cs in Hend. lia.
Qed.

(** X3.  The text of a chunk, split into lines again, is the lines of the
    input from [startLine] to [endLine]: the line numbers of a chunk tell
    where its text stands in the note. *)
Theorem chunkText_text_lines (input : string) (chunkSize overlap k : nat)
    (c : TextChunk) :
  chunkText input chunkSize overlap !! k = Some c ->
  split_lines (text c) = lines_of (split_lines input) c /\
  Z.of_nat (length (split_lines (text c)))
  = (endLine c - startLine c + 1)%Z.
Proof.
  intros Hk.
  destruct (chunkText_chain input chunkSize overlap) as [Hchain _].
  destruct (chunk_chain_lookup _ _ _ Hchain) as (Hwhole & _ & _).
  specialize (Hwhole k c Hk).
  pose proof (whole_lines_nonempty _ _ Hwhole) as Hne.
  destruct Hwhole as (Hse & He & Htext).
  assert (Hsplit : split_lines (text c)
                   = lines_of (split_lines input) c).
  { rewrite Htext. apply split_join_lines; [exact Hne|].
    unfold line_range. apply Forall_take, Forall_drop.
    apply split_lines_no_newline. }
  split; [exact Hsplit|].
  rewrite Hsplit. unfold lines_of. rewrite length_line_range_Z by lia. lia.
Qed.

(** X4.  Without overlap the chunks cut the text at line ends and lose
    nothing: joined by line feeds they are the text. *)
Theorem chunkText_reassemble (input : string) (chunkSize : nat) :
  join_lines (map text (chunkText input chunkSize 0)) = input.
Proof.
  destruct (chunkText_chain input chunkSize 0) as (Hchain & cl & Hlast & Hend).
  pose proof (chunk_chain_lookup _ _ _ Hchain) as (Hwhole & _ & _).
  pose proof (chunk_chain_partition _ _ Hchain) as Hpart.
  set (cs := chunkText input chunkSize 0) in *.
  set (lines := split_lines input) in *.
  assert (Htexts : map text cs
                   = map join_lines (map (lines_of lines) cs)).
  { rewrite map_map. apply map_ext_in. intros c Hc.
    apply list_elem_of_In, list_elem_of_lookup_1 in Hc as [k Hk].
    destruct (Hwhole k c Hk) as (_ & _ & Htext). exact Htext. }
  rewrite Htexts, join_lines_concat.
  - destruct cs as [|c0 cs0] using rev_ind; [discriminate|].
    rewrite last_snoc in Hlast. injection Hlast as ->.
    rewrite rev_unit in Hpart. rewrite <- rev_unit, rev_involutive in Hpart.
    rewrite Hpart, Hend, take_ge by lia. apply join_split_lines.
  - apply List.Forall_forall. intros r Hr.
    apply in_map_iff in Hr as (c & <- & Hc).
    apply list_elem_of_In, list_elem_of_lookup_1 in Hc as [k Hk].
    apply whole_lines_nonempty. eapply Hwhole. exact Hk.
Qed.

Lemma chunkText_size_bound_witness :
  tokens_of (lines_of (split_lines sample_note) sample_note_chunk) <= 3 \/
  new_from (chunkText sample_note 3 0) 1 = endLine sample_note_chunk.
Proof.
  apply (chunkText_size_bound sample_note 3 0 1 sample_note_chunk).
  reflexivity.
Defined.

Lemma chunkText_greedy_witness :
  exists line,
    split_lines sample_note !! Z.to_nat (endLine sample_note_chunk + 1)
    = Some line /\
    3 < tokens_of (lines_of (split_lines sample_note) sample_note_chunk)
        + estimateTokens line.
Proof.
  apply (chunkText_greedy sample_note 3 0 1 sample_note_chunk).
  - reflexivity.
  - vm_compute. lia.
Defined.

Lemma chunkText_text_lines_witness :
  split_lines (text sample_note_chunk)
  = lines_of (split_lines sample_note) sample_note_chunk /\
  Z.of_nat (length (split_lines (text sample_note_chunk)))
  = (endLine sample_note_chunk - startLine sample_note_chunk + 1)%Z.
Proof.
  apply (chunkText_text_lines sample_note 3 0 1 sample_note_chunk).
  reflexivity.
Defined.

(** The sample note in chunks of at most 3 tokens, with and without an
    overlap of 1 token. *)
Example chunkText_sample_note :
  map (fun c => (startLine c, endLine c)) (chunkText sample_note 3 0)
  = [(0, 0); (1, 2); (3, 3)]%Z /\
  map (fun c => (startLine c, endLine c)) (chunkText sample_note 3 1)
  = [(0, 0); (0, 1); (1, 2); (2, 3)]%Z.
Proof. split; vm_compute; reflexivity. Qed.

Lemma chunk_ends_from (lines : list string) (overlap : nat)
    (cs : list TextChunk) :
  chunk_chain lines overlap (rev cs) ->
  forall k c, cs !! k = Some c -> (Z.of_nat k <= endLine c)%Z.
Proof.
  intros Hchain.
  destruct (chunk_chain_lookup _ _ _ Hchain) as (Hwhole & _ & Hfollows).
  induction k as [|k IH]; intros c Hk.
  - destruct (Hwhole 0 c Hk) as (Hse & _). lia.
  - assert (Hprev : is_Some (cs !! k)).
    { apply lookup_lt_is_Some. apply lookup_lt_Some in Hk. lia. }
    destruct Hprev as [cp Hp]. specialize (IH cp Hp).
    destruct (Hfollows k cp c Hp Hk) as (_ & Hlt & _). lia.
Qed.

(** X5.  A text gives at least one chunk and at most as many chunks as it
    has lines, whatever the sizes: every chunk ends on a later line than
    the one before it. *)
Theorem chunkText_count (input : string) (chunkSize overlap : nat) :
  1 <= length (chunkText input chunkSize overlap)
  <= length (split_lines input).
Proof.
  destruct (chunkText_chain input chunkSize overlap)
    as (Hchain & cl & Hlast & Hend).
  set (cs := chunkText input chunkSize overlap) in *.
  assert (Hpos : 1 <= length cs)
    by (destruct cs; [discriminate|simpl; lia]).
  split; [exact Hpos|].
  rewrite last_lookup in Hlast.
  pose proof (chunk_ends_from _ _ _ Hchain _ _ Hlast) as Hk. lia.
Qed.

(* ================================================================== *)
(** ** Search and similarity: selection, symmetry, direction *)
(* ================================================================== *)

(** X6.  [searchIndex] returns chunks of the index, none more often than
    the index holds it, and as many as [topK] allows: the smaller of
    [topK] and the number of chunks indexed. *)
Theorem searchIndex_selects {num : Type} `{Number num} (index : VaultIndex)
    (queryEmbedding : list num) (topK : nat) :
  searchIndex index queryEmbedding topK ⊆+ chunks index /\
  length (searchIndex index queryEmbedding topK)
  = Nat.min topK (length (chunks index)).
Proof.
  unfold searchIndex.
  set (scored := map (fun chunk =>
                        (chunk, cosineSimilarity queryEmbedding (embedding chunk)))
                     (chunks index)).
  assert (Hfst : map fst scored = chunks index).
  { unfold scored. rewrite map_map. simpl. apply map_id. }
  split.
  - rewrite <- Hfst. apply fmap_submseteq.
    etransitivity; [apply sublist_submseteq, sublist_take|].
    apply Permutation_submseteq. unfold js_sort. apply stable_sort_perm.
  - rewrite length_map, length_take. unfold js_sort.
    rewrite length_stable_sort. unfold scored. rewrite length_map.
    reflexivity.
Qed.

Section Symmetry.
Context {num : Type} `{Number num}.
Local Open Scope num_scope.
Hypothesis mul_comm : forall x y : num, x * y = y * x.

Lemma cosine_loop_swap (a : list num) :
  forall (b : list num) (d na nb : num),
    cosine_loop b a d nb na
    = let '(d', na', nb') := cosine_loop a b d na nb in (d', nb', na').
Proof.
  induction a as [|x a IH]; intros b d na nb.
  - destruct b; reflexivity.
  - destruct b as [|y b]; [reflexivity|].
    simpl. rewrite (mul_comm y x). apply IH.
Qed.

Lemma cosineSimilarity_swap (a b : list num) :
  cosineSimilarity a b = cosineSimilarity b a.
Proof.
  unfold cosineSimilarity. rewrite (Nat.eqb_sym (length b) (length a)).
  destruct (negb (length a =? length b)%nat); [reflexivity|].
  rewrite (cosine_loop_swap a b).
  destruct (cosine_loop a b zero zero zero) as [[d na] nb].
  rewrite (mul_comm (sqrt nb) (sqrt na)). reflexivity.
Qed.

End Symmetry.

Lemma SFmul_comm (x y : spec_float) : SF64mul x y = SF64mul y x.
Proof.
  unfold SF64mul.
  destruct x as [sx|sx| |sx mx ex], y as [sy|sy| |sy my ey]; simpl;
    rewrite ?(xorb_comm sx sy); try reflexivity.
  rewrite (Pos.mul_comm mx my), (Z.add_comm ex ey). reflexivity.
Qed.

(** Multiplication of binary64 values commutes. *)
Lemma float_mul_comm (x y : float) : PrimFloat.mul x y = PrimFloat.mul y x.
Proof.
  rewrite <- (FloatAxioms.SF2Prim_Prim2SF (PrimFloat.mul x y)).
  rewrite <- (FloatAxioms.SF2Prim_Prim2SF (PrimFloat.mul y x)).
  rewrite !FloatAxioms.mul_spec, SFmul_comm. reflexivity.
Qed.

(** X7.  [cosineSimilarity] is symmetric, in binary64 as in exact
    arithmetic: the two vectors can change places. *)
Theorem cosineSimilarity_symmetric :
  (forall a b : list float, cosineSimilarity a b = cosineSimilarity b a) /\
  (forall a b : list R, cosineSimilarity a b = cosineSimilarity b a).
Proof.
  split; intros a b; apply cosineSimilarity_swap.
  - exact float_mul_comm.
  - exact Rmult_comm.
Qed.

Lemma dot_from_scale_l (k : R) (a b : list R) :
  forall acc : R,
    dot_from (k * acc)%R (map (Rmult k) a) b = (k * dot_from acc a b)%R.
Proof.
  revert b. induction a as [|x a IH]; intros [|y b] acc; try reflexivity.
  change (dot_from (k * acc)%R (map (Rmult k) (x :: a)) (y :: b))
    with (dot_from (k * acc + k * x * y)%R (map (Rmult k) a) b).
  change (dot_from acc (x :: a) (y :: b))
    with (dot_from (acc + x * y)%R a b).
  rewrite <- IH. f_equal. ring.
Qed.

Lemma dot_from_scale_both (k : R) (a : list R) :
  forall acc : R,
    dot_from (k * k * acc)%R (map (Rmult k) a) (map (Rmult k) a)
    = (k * k * dot_from acc a a)%R.
Proof.
  induction a as [|x a IH]; intros acc; [reflexivity|].
  change (dot_from (k * k * acc)%R (map (Rmult k) (x :: a))
            (map (Rmult k) (x :: a)))
    with (dot_from (k * k * acc + k * x * (k * x))%R (map (Rmult k) a)
            (map (Rmult k) a)).
  change (dot_from acc (x :: a) (x :: a))
    with (dot_from (acc + x * x)%R a a).
  rewrite <- IH. f_equal. ring.
Qed.

(** X8.  In exact arithmetic the similarity tells directions only.  A
    vector with a non-zero entry has the similarity 1 with itself, and
    the similarity of two such vectors stays what it is when one of them
    is scaled by a positive factor. *)
Theorem cosineSimilarity_direction (a b : list R) (k : R) :
  Exists (fun x => x <> 0%R) a -> Exists (fun x => x <> 0%R) b ->
  (0 < k)%R ->
  cosineSimilarity a a = 1%R /\
  cosineSimilarity (map (Rmult k) a) b = cosineSimilarity a b.
Proof.
  intros Ha Hb Hk.
  pose proof (dot_from_positive a 0%R (Rle_refl 0) Ha) as Hpa.
  pose proof (dot_from_positive b 0%R (Rle_refl 0) Hb) as Hpb.
  pose proof (sqrt_lt_R0 _ Hpa) as Hsa.
  pose proof (sqrt_lt_R0 _ Hpb) as Hsb.
  split.
  - rewrite cosineSimilarity_formula by reflexivity.
    unfold dot. simpl. change (@zero R exact) with 0%R.
    rewrite sqrt_sqrt by lra. unfold Rdiv. apply Rinv_r. lra.
  - destruct (Nat.eq_dec (length a) (length b)) as [Hlen|Hlen].
    + rewrite !cosineSimilarity_formula by (rewrite ?length_map; exact Hlen).
      unfold dot. simpl. change (@zero R exact) with 0%R.
      replace 0%R with (k * 0)%R at 1 by ring.
      replace 0%R with (k * k * 0)%R at 2 by ring.
      rewrite dot_from_scale_l, dot_from_scale_both.
      rewrite sqrt_mult by (try apply Rmult_le_pos; lra).
      rewrite sqrt_square by lra.
      field. split; lra.
    + rewrite !cosineSimilarity_mismatch by (rewrite ?length_map; exact Hlen).
      reflexivity.
Qed.

Lemma cosineSimilarity_direction_witness :
  cosineSimilarity [3%R; 4%R] [3%R; 4%R] = 1%R /\
  cosineSimilarity (map (Rmult 2) [3%R; 4%R]) [4%R; 3%R]
  = cosineSimilarity [3%R; 4%R] [4%R; 3%R].
Proof.
  apply (cosineSimilarity_direction [3%R; 4%R] [4%R; 3%R] 2%R).
  - apply Exists_cons_hd. lra.
  - apply Exists_cons_hd. lra.
  - lra.
Defined.

(* ================================================================== *)
(** ** Saving and loading the index *)
(* ================================================================== *)

Section PersistenceFacts.
Context {num : Type} `{Number num}.

Lemma revive_serializable (h : @Host num) (cs : list IndexedChunk) :
  Forall (fun c => vault_files h !! path (file c) = Some (File (file c))) cs ->
  omap (revive h) (persisted_chunks (serializable {| chunks := cs; lastUpdated := 0 |}))
  = cs.
Proof.
  induction 1 as [|c cs Hc Hcs IH]; [reflexivity|].
  simpl in *. unfold revive at 1. simpl. rewrite Hc.
  destruct c. simpl. f_equal. exact IH.
Qed.

(** X9.  What [saveIndex] writes, [loadIndex] reads back: when the write
    succeeds, the document survives [JSON.stringify] and [JSON.parse], and
    every indexed file is still in the vault under its path, a later
    [loadIndex] restores the index as it was saved, in whatever state the
    plugin then is. *)
Theorem saveIndex_loadIndex (JSON_stringify : @PersistedIndex num -> string)
    (write : string -> string -> Outcome unit) (h : @Host num)
    (p p0 : ConvergePlugin) :
  let data := JSON_stringify (serializable (vaultIndex p)) in
  write (indexPath h) data = Resolved tt ->
  JSON_parse h data = Resolved (serializable (vaultIndex p)) ->
  Forall (fun c => vault_files h !! path (file c) = Some (File (file c)))
    (chunks (vaultIndex p)) ->
  vaultIndex (fst (saveIndex JSON_stringify write h p)) = vaultIndex p /\
  exists p', loadIndex (snd (saveIndex JSON_stringify write h p)) p0
             = Resolved p' /\
             vaultIndex p' = vaultIndex p.
Proof.
  intros data Hwrite Hparse Hlive. unfold saveIndex. fold data.
  rewrite Hwrite. cbn [fst snd]. split; [reflexivity|].
  unfold loadIndex, loadIndex_try.
  change (indexPath (written (indexPath h) data h)) with (indexPath h).
  cbn [adapter_exists adapter_read written JSON_parse].
  rewrite String.eqb_refl. cbn [mbind Outcome_bind negb].
  rewrite Hparse. cbn [mret Outcome_ret].
  eexists. split; [reflexivity|].
  cbn [vaultIndex log set_vaultIndex].
  destruct (vaultIndex p) as [cs updated]. simpl in Hlive |- *.
  f_equal. apply (revive_serializable h cs Hlive).
Qed.

End PersistenceFacts.

Lemma saveIndex_loadIndex_witness :
  vaultIndex
    (fst (saveIndex (fun _ => "{...}"%string) (fun _ _ => Resolved tt)
            saving_host (sample_plugin saved_index)))
  = saved_index /\
  exists p',
    loadIndex
      (snd (saveIndex (fun _ => "{...}"%string) (fun _ _ => Resolved tt)
              saving_host (sample_plugin saved_index)))
      (new_plugin sample_settings)
    = Resolved p' /\
    vaultIndex p' = saved_index.
Proof.
  apply (saveIndex_loadIndex (fun _ => "{...}"%string)
           (fun _ _ => Resolved tt) saving_host (sample_plugin saved_index)
           (new_plugin sample_settings)).
  - reflexivity.
  - reflexivity.
  - constructor; [reflexivity|constructor].
Defined.

(* ================================================================== *)
(** ** A rebuild that runs undisturbed *)
(* ================================================================== *)

Section RebuildRun.
Context {num : Type} `{Number num}.
Variables (sv : @Services num) (saved : Outcome unit) (clock : nat -> Z).
Variables (p0 : @ConvergePlugin num) (total : nat).

Lemma settle_all_done (fuel k : nat) (p : ConvergePlugin) :
  settle_all sv saved clock fuel k {| plugin := p; inflight := [] |}
  = {| plugin := p; inflight := [] |}.
Proof.
  revert k. induction fuel as [|fuel IH]; intros k; [reflexivity|].
  simpl. unfold settle_first. simpl. apply IH.
Qed.

(** One settlement takes an activation to its next await or to its end. *)
Lemma finishes_step (k : nat) (pt : RebuildPoint) (p : ConvergePlugin)
    (Q : ConvergePlugin -> Prop) :
  match resume (clock k) pt (answer sv saved pt) p with
  | (p', None) => Q p'
  | (p', Some pt') => finishes sv saved clock (S k) pt' p' Q
  end ->
  finishes sv saved clock k pt p Q.
Proof.
  intros Hnext.
  assert (Hstep : forall fuel,
            settle_all sv saved clock (S fuel) k
              {| plugin := p; inflight := [pt] |}
            = settle_all sv saved clock fuel (S k)
                {| plugin := fst (resume (clock k) pt (answer sv saved pt) p);
                   inflight :=
                     option_to_list
                       (snd (resume (clock k) pt (answer sv saved pt) p)) |}).
  { intros fuel. simpl. unfold settle_first. simpl.
    destruct (resume (clock k) pt (answer sv saved pt) p) as [p' opt].
    simpl. rewrite app_nil_r. reflexivity. }
  destruct (resume (clock k) pt (answer sv saved pt) p) as [p' [pt'|]].
  - destruct Hnext as (n & Hn). exists (S n). intros fuel Hfuel.
    destruct fuel as [|fuel]; [lia|]. rewrite Hstep. simpl.
    apply Hn. lia.
  - exists 1. intros fuel Hfuel. destruct fuel as [|fuel]; [lia|].
    rewrite Hstep. simpl. rewrite settle_all_done. simpl. auto.
Qed.

Lemma finishes_save (k : nat) (cs : list IndexedChunk) (now : Z)
    (p : ConvergePlugin) :
  finishes sv saved clock k (AwaitSave (length cs) total)
    (set_vaultIndex {| chunks := cs; lastUpdated := now |} p)
    (rebuilt p0 total (Resolved cs)).
Proof.
  apply finishes_step. cbn [resume answer].
  split; [reflexivity|]. split.
  - destruct saved; reflexivity.
  - destruct saved; cbn; apply last_snoc.
Qed.

Lemma chunks_finish (file : TFile) (rest : list TFile) :
  files_finish sv saved clock p0 total rest ->
  forall (textChunks : list TextChunk) (cs : list IndexedChunk)
         (processed k : nat) (now : Z) (p : ConvergePlugin),
    untouched p0 p ->
    exists p' pt',
      next_chunk now file textChunks rest cs processed total p
      = (p', Some pt') /\
      finishes sv saved clock k pt' p'
        (rebuilt p0 total
           (index_files sv (settings p0) rest
              (cs ++ embed_chunks sv file textChunks))).
Proof.
  intros Hrest.
  induction textChunks as [|chunk more IH]; intros cs processed k now p Hp.
  - cbn [next_chunk embed_chunks omap list_omap]. rewrite app_nil_r.
    apply Hrest.
    destruct (S processed mod 10 =? 0)%nat; [|exact Hp].
    destruct Hp as [Hi Hs]. split; [exact Hi|exact Hs].
  - cbn [next_chunk]. eexists. eexists. split; [reflexivity|].
    apply finishes_step. cbn [resume answer].
    unfold embed_chunks. cbn [omap list_omap]. fold (embed_chunks sv file more).
    destruct (getEmbedding sv (text chunk)) as [e|e];
      cbn [mbind Outcome_bind mret Outcome_ret].
    + destruct (IH (cs ++ [ {| file := file; chunk_text := text chunk;
                               embedding := e;
                               chunk_startLine := startLine chunk;
                               chunk_endLine := endLine chunk |} ])
                  processed (S k) (clock k) p Hp)
        as (p' & pt' & Hnext & Hfin).
      rewrite Hnext. rewrite <- app_assoc in Hfin. exact Hfin.
    + destruct (IH cs processed (S k) (clock k)
                  (log (ErrorEmbedChunk (path file) e) p))
        as (p' & pt' & Hnext & Hfin).
      { destruct Hp as [Hi Hs]. split; [exact Hi|exact Hs]. }
      rewrite Hnext. exact Hfin.
Qed.

Lemma all_files_finish (files : list TFile) :
  files_finish sv saved clock p0 total files.
Proof.
  induction files as [|file rest IH]; intros cs processed k now p Hp.
  - cbn [next_file index_files]. eexists. eexists. split; [reflexivity|].
    apply finishes_save.
  - cbn [next_file index_files]. eexists. eexists. split; [reflexivity|].
    apply finishes_step. cbn [resume answer].
    destruct Hp as [Hi Hs].
    destruct (cachedRead sv file) as [content|e];
      cbn [mbind Outcome_bind mret Outcome_ret].
    + destruct (chunks_finish file rest IH
                  (chunkText content (chunkSize (settings p))
                     (chunkOverlap (settings p)))
                  cs processed (S k) (clock k) p (conj Hi Hs))
        as (p' & pt' & Hnext & Hfin).
      rewrite Hnext. rewrite Hs in Hfin. exact Hfin.
    + split; [reflexivity|]. split; [exact Hi|].
      cbn. apply last_snoc.
Qed.

End RebuildRun.

(** X10.  A rebuild that no other call disturbs.  Called while no rebuild
    is going on, and settled one await after the other, [rebuildIndex]
    comes to its end and clears the flag.  If every file can be read, the
    new index holds, file after file and in the order of [chunkText], the
    chunks whose embedding succeeded: a failed embedding costs its chunk
    only.  If a file cannot be read the rebuild stops there and the index
    stays as it was before the call. *)
Theorem rebuildIndex_result {num : Type} `{Number num} (sv : @Services num)
    (saved : Outcome unit) (clock : nat -> Z) (w : World)
    (files : list TFile) :
  isIndexing (plugin w) = false -> inflight w = [] ->
  exists n, forall fuel, n <= fuel ->
    let w' := settle_all sv saved clock fuel 1
                (step w (CallRebuildIndex files (clock 0))) in
    inflight w' = [] /\
    rebuilt (plugin w) (length files)
      (index_files sv (settings (plugin w)) files []) (plugin w').
Proof.
  intros Hidle Hnone.
  destruct (all_files_finish sv saved clock (plugin w) (length files) files
              [] 0 1 (clock 0)
              (notice NoticeBuildingIndex (set_isIndexing true (plugin w))))
    as (p' & pt' & Hnext & n & Hn).
  { split; reflexivity. }
  exists n. intros fuel Hfuel.
  cbn [step]. unfold rebuildIndex. rewrite Hidle, Hnext, Hnone.
  cbn [app option_to_list]. apply Hn. exact Hfuel.
Qed.

Lemma rebuildIndex_result_witness :
  exists n, forall fuel, n <= fuel ->
    inflight
      (settle_all failing_services (Resolved tt) Z.of_nat fuel 1
         (step {| plugin := sample_plugin sample_index; inflight := [] |}
            (CallRebuildIndex [sample_file "a"; sample_file "b"] 0)))
    = [] /\
    rebuilt (sample_plugin sample_index) 2
      (index_files failing_services sample_settings
         [sample_file "a"; sample_file "b"] [])
      (plugin
         (settle_all failing_services (Resolved tt) Z.of_nat fuel 1
            (step {| plugin := sample_plugin sample_index; inflight := [] |}
               (CallRebuildIndex [sample_file "a"; sample_file "b"] 0)))).
Proof.
  apply (rebuildIndex_result failing_services (Resolved tt) Z.of_nat
           {| plugin := sample_plugin sample_index; inflight := [] |}
           [sample_file "a"; sample_file "b"]).
  - reflexivity.
  - reflexivity.
Defined.

(** Two rebuilds of the notes a and b over the sample index.  When both
    notes are read the new index holds their two chunks; when note b
    cannot be read the index stays as it was, although note a had been
    read and embedded by then. *)
Example rebuildIndex_runs :
  let w0 := {| plugin := sample_plugin sample_index; inflight := [] |} in
  let call := CallRebuildIndex [sample_file "a"; sample_file "b"] 0 in
  let good := settle_all sample_services (Resolved tt) Z.of_nat 5 1
                (step w0 call) in
  let bad := settle_all failing_services (Resolved tt) Z.of_nat 5 1
               (step w0 call) in
  map (fun c => (path (file c), chunk_text c)) (chunks (vaultIndex (plugin good)))
  = [("a.md", "query"); ("b.md", "query")]%string /\
  lastUpdated (vaultIndex (plugin good)) = 4%Z /\
  notices (plugin good) = [NoticeBuildingIndex; NoticeIndexComplete 2 2] /\
  vaultIndex (plugin bad) = sample_index /\
  notices (plugin bad) = [NoticeBuildingIndex; NoticeIndexingFailed "EACCES"] /\
  isIndexing (plugin bad) = false.
Proof. vm_compute. repeat split; reflexivity. Qed.

Lemma chunkText_whole_lines (input : string) (chunkSize overlap : nat)
    (c : TextChunk) :
  In c (chunkText input chunkSize overlap) ->
  whole_lines (split_lines input) c.
Proof.
  intros Hc. apply list_elem_of_In, list_elem_of_lookup_1 in Hc as [k Hk].
  destruct (chunkText_chain input chunkSize overlap) as [Hchain _].
  destruct (chunk_chain_lookup _ _ _ Hchain) as (Hwhole & _ & _).
  eapply Hwhole. exact Hk.
Qed.

Lemma whole_lines_split (input : string) (c : TextChunk) :
  whole_lines (split_lines input) c ->
  split_lines (text c)
  = line_range (split_lines input) (startLine c) (endLine c).
Proof.
  intros Hwhole. pose proof (whole_lines_nonempty _ _ Hwhole) as Hne.
  destruct Hwhole as (_ & _ & Htext). rewrite Htext.
  apply split_join_lines; [exact Hne|].
  unfold line_range. apply Forall_take, Forall_drop.
  apply split_lines_no_newline.
Qed.

Section IndexedFacts.
Context {num : Type} `{Number num}.
Variables (sv : @Services num) (content_of : TFile -> string).
Variable files : list TFile.

Lemma embed_chunks_indexed (f : TFile) (textChunks : list TextChunk) :
  In f files ->
  Forall (whole_lines (split_lines (content_of f))) textChunks ->
  Forall (indexed_from sv content_of files) (embed_chunks sv f textChunks).
Proof.
  intros Hf. induction 1 as [|chunk more Hchunk Hmore IH]; [constructor|].
  unfold embed_chunks. cbn [omap list_omap]. fold (embed_chunks sv f more).
  destruct (getEmbedding sv (text chunk)) as [e|e] eqn:Hembed; [|exact IH].
  constructor; [|exact IH].
  unfold indexed_from.
  cbn [file chunk_text embedding chunk_startLine chunk_endLine].
  split; [exact Hf|]. split; [exact Hembed|].
  pose proof (whole_lines_split _ _ Hchunk) as Hsplit.
  destruct Hchunk as (Hse & He & _).
  split; [exact Hse|]. split; [exact He|exact Hsplit].
Qed.

Lemma index_files_indexed (s : @ConvergeSettings num) (todo : list TFile) :
  forall acc : list IndexedChunk,
    Forall (fun f => In f files /\ cachedRead sv f = Resolved (content_of f))
      todo ->
    Forall (indexed_from sv content_of files) acc ->
    exists cs, index_files sv s todo acc = Resolved cs /\
               Forall (indexed_from sv content_of files) cs.
Proof.
  induction todo as [|f todo IH]; intros acc Hreads Hacc.
  - exists acc. split; [reflexivity|exact Hacc].
  - apply Forall_cons in Hreads as [[Hf Hread] Hreads].
    cbn [index_files]. rewrite Hread. cbn [mbind Outcome_bind].
    apply IH; [exact Hreads|].
    apply Forall_app. split; [exact Hacc|].
    apply embed_chunks_indexed; [exact Hf|].
    apply List.Forall_forall. intros c Hc.
    eapply chunkText_whole_lines. exact Hc.
Qed.

End IndexedFacts.

(** X11.  What a rebuilt index holds.  After a rebuild that no other call
    disturbs and in which every file was read, every chunk of the index
    belongs to one of the files, carries the embedding that the service
    gave for its text, and its text is the lines [startLine] to [endLine]
    of what was read from its file: the line numbers kept in the index
    point at the text that was embedded. *)
Theorem rebuildIndex_index_sound {num : Type} `{Number num}
    (sv : @Services num) (saved : Outcome unit) (clock : nat -> Z)
    (w : World) (files : list TFile) (content_of : TFile -> string) :
  isIndexing (plugin w) = false -> inflight w = [] ->
  Forall (fun f => cachedRead sv f = Resolved (content_of f)) files ->
  exists n, forall fuel, n <= fuel ->
    let w' := settle_all sv saved clock fuel 1
                (step w (CallRebuildIndex files (clock 0))) in
    inflight w' = [] /\
    Forall (indexed_from sv content_of files)
      (chunks (vaultIndex (plugin w'))).
Proof.
  intros Hidle Hnone Hreads.
  destruct (all_files_finish sv saved clock (plugin w) (length files) files
              [] 0 1 (clock 0)
              (notice NoticeBuildingIndex (set_isIndexing true (plugin w))))
    as (p' & pt' & Hnext & n & Hn).
  { split; reflexivity. }
  destruct (index_files_indexed sv content_of files (settings (plugin w))
              files [])
    as (cs & Hcs & Hsound).
  { apply List.Forall_forall. intros f Hf. split; [exact Hf|].
    rewrite List.Forall_forall in Hreads. apply Hreads. exact Hf. }
  { constructor. }
  exists n. intros fuel Hfuel.
  cbn [step]. unfold rebuildIndex. rewrite Hidle, Hnext, Hnone.
  cbn [app option_to_list].
  destruct (Hn fuel Hfuel) as (Hdone & _ & Hresult).
  rewrite Hcs in Hresult. destruct Hresult as [Hchunks _].
  split; [exact Hdone|]. rewrite Hchunks. exact Hsound.
Qed.

Lemma rebuildIndex_index_sound_witness :
  exists n, forall fuel, n <= fuel ->
    inflight
      (settle_all sample_services (Resolved tt) Z.of_nat fuel 1
         (step {| plugin := sample_plugin sample_index; inflight := [] |}
            (CallRebuildIndex [sample_file "a"; sample_file "b"] 0)))
    = [] /\
    Forall (indexed_from sample_services (fun _ => "query"%string)
              [sample_file "a"; sample_file "b"])
      (chunks
         (vaultIndex
            (plugin
               (settle_all sample_services (Resolved tt) Z.of_nat fuel 1
                  (step {| plugin := sample_plugin sample_index;
                           inflight := [] |}
                     (CallRebuildIndex [sample_file "a"; sample_file "b"]
                        0)))))).
Proof.
  apply (rebuildIndex_index_sound sample_services (Resolved tt) Z.of_nat
           {| plugin := sample_plugin sample_index; inflight := [] |}
           [sample_file "a"; sample_file "b"] (fun _ => "query"%string)).
  - reflexivity.
  - reflexivity.
  - repeat constructor.
Defined.

(* ================================================================== *)
(** ** The list of similar notes *)
(* ================================================================== *)

Lemma length_append (a b : string) :
  String.length (a ++ b) = String.length a + String.length b.
Proof.
  induction a as [|c a IH]; [reflexivity|].
  change (S (String.length (a ++ b)) = S (String.length a + String.length b)).
  rewrite IH. reflexivity.
Qed.

Lemma substring_whole (s : string) : substring 0 (String.length s) s = s.
Proof. induction s as [|c s IH]; simpl; [reflexivity|rewrite IH; reflexivity]. Qed.

Lemma substring_append_r (a b : string) :
  substring (String.length a) (String.length b) (a ++ b) = b.
Proof.
  induction a as [|c a IH]; [apply substring_whole|].
  change (substring (String.length a) (String.length b) (a ++ b) = b).
  exact IH.
Qed.

Lemma ends_with_append (s suffix : string) :
  ends_with suffix (s ++ suffix) = true.
Proof.
  unfold ends_with. rewrite length_append.
  replace (String.length s + String.length suffix - String.length suffix)
    with (String.length s) by lia.
  rewrite substring_append_r, String.eqb_refl.
  rewrite andb_true_r. apply Nat.leb_le. lia.
Qed.

Lemma strip_slashes_fixed (s : string) :
  match s with String c _ => c <> "/"%char | EmptyString => True end ->
  strip_slashes s = s.
Proof.
  destruct s as [|c s]; [reflexivity|]. simpl.
  intros Hc. destruct (Ascii.eqb_spec c "/"); [contradiction|reflexivity].
Qed.

Lemma strip_slashes_head (s : string) :
  match strip_slashes s with
  | String c _ => c <> "/"%char
  | EmptyString => True
  end.
Proof.
  induction s as [|c s IH]; simpl; [exact I|].
  destruct (Ascii.eqb_spec c "/"); [exact IH|assumption].
Qed.

(** A cleaned path stays as it is when it is cleaned again. *)
Lemma clean_path_fixed (s : string) :
  match s with String c _ => c <> "/"%char | EmptyString => True end ->
  ends_with ".md" s = true -> clean_path s = s.
Proof.
  intros Hhead Hmd. unfold clean_path.
  destruct (String.eqb_spec s ""); [congruence|].
  rewrite strip_slashes_fixed by exact Hhead. rewrite Hmd. reflexivity.
Qed.

(** X12.  The path that the discover zone looks a dropped note up by:
    it is empty only when the drop carried no text, it ends in [.md] and
    does not start with a slash, and cleaning it again changes nothing.
    The notice that no path could be got from the drop is shown for an
    empty text and for no other. *)
Theorem clean_path_spec {num : Type} `{Number num} (filePath : string) :
  (clean_path filePath = ""%string <-> filePath = ""%string) /\
  (filePath <> ""%string -> ends_with ".md" (clean_path filePath) = true) /\
  strip_slashes (clean_path filePath) = clean_path filePath /\
  clean_path (clean_path filePath) = clean_path filePath /\
  (forall (h : @Host num) p v,
     snd (setupDiscoverDropZone h p filePath v) = ToastNoDropPath
     <-> filePath = ""%string).
Proof.
  assert (Hmd : filePath <> ""%string ->
                ends_with ".md" (clean_path filePath) = true).
  { intros Hne. unfold clean_path.
    destruct (String.eqb_spec filePath ""); [contradiction|].
    destruct (ends_with ".md" (strip_slashes filePath)) eqn:Hends;
      [exact Hends|apply ends_with_append]. }
  assert (Hhead : match clean_path filePath with
                  | String c _ => c <> "/"%char
                  | EmptyString => True
                  end).
  { unfold clean_path.
    destruct (String.eqb_spec filePath ""); [exact I|].
    pose proof (strip_slashes_head filePath) as Hs.
    destruct (ends_with ".md" (strip_slashes filePath)); [exact Hs|].
    destruct (strip_slashes filePath) as [|c s]; [discriminate|exact Hs]. }
  assert (Hempty : clean_path filePath = ""%string <-> filePath = ""%string).
  { split.
    - intros Hclean. destruct (String.eqb_spec filePath "") as [|Hne];
        [assumption|].
      specialize (Hmd Hne). rewrite Hclean in Hmd. discriminate.
    - intros ->. reflexivity. }
  split; [exact Hempty|]. split; [exact Hmd|].
  split; [apply strip_slashes_fixed; exact Hhead|]. split.
  - destruct (String.eqb_spec filePath "") as [->|Hne]; [reflexivity|].
    apply clean_path_fixed; [exact Hhead|exact (Hmd Hne)].
  - intros h p v. unfold setupDiscoverDropZone.
    destruct (String.eqb_spec (clean_path filePath) "") as [Hclean|Hclean].
    + simpl. split; [intros _; apply Hempty; exact Hclean|reflexivity].
    + split; [|intros Hp; apply Hempty in Hp; contradiction].
      intros Htoast. exfalso.
      destruct (vault_files h !! clean_path filePath) as [[f|folder]|];
        try discriminate.
      destruct (String.eqb (extension f) "md"); [|discriminate].
      destruct (find_note (path f) (similarNotes v)); discriminate.
Qed.

Section DiscoverFacts.
Context {num : Type} `{Number num}.
Local Open Scope num_scope.

Lemma find_note_None (p : string) (notes : list (@SimilarNote num)) :
  find_note p notes = None ->
  ~ In p (map (fun n => path (note_file n)) notes).
Proof.
  unfold find_note. intros Hfind Hin.
  apply in_map_iff in Hin as (n & <- & Hn).
  apply (find_none _ _ Hfind) in Hn. rewrite String.eqb_refl in Hn.
  discriminate.
Qed.

Lemma NoDup_paths_snoc (f : TFile) (notes : list (@SimilarNote num))
    (n : SimilarNote) :
  note_file n = f -> find_note (path f) notes = None ->
  List.NoDup (map (fun n => path (note_file n)) notes) ->
  List.NoDup (map (fun n => path (note_file n)) (notes ++ [n])).
Proof.
  intros Hn Hfind Hnodup. apply find_note_None in Hfind.
  rewrite map_app. simpl. rewrite Hn.
  apply NoDup_ListNoDup. apply NoDup_app. split_and!.
  - apply NoDup_ListNoDup. exact Hnodup.
  - intros x Hx Hx'. apply list_elem_of_singleton in Hx'. subst x.
    apply Hfind. apply list_elem_of_In. exact Hx.
  - apply NoDup_singleton.
Qed.

Lemma NoDup_paths_filter (keep : @SimilarNote num -> bool)
    (notes : list SimilarNote) :
  List.NoDup (map (fun n => path (note_file n)) notes) ->
  List.NoDup (map (fun n => path (note_file n)) (List.filter keep notes)).
Proof.
  induction notes as [|n notes IH]; simpl; intros Hnodup; [constructor|].
  apply List.NoDup_cons_iff in Hnodup as [Hn Hrest].
  destruct (keep n); [|apply IH; exact Hrest].
  simpl. constructor; [|apply IH; exact Hrest].
  intros Hin. apply Hn. apply in_map_iff in Hin as (m & Hm & Hin).
  apply in_map_iff. exists m. split; [exact Hm|].
  apply filter_In in Hin as [Hin _]. exact Hin.
Qed.

Lemma similarNotes_filterSimilarNotes (p : ConvergePlugin)
    (v : @ChatView num) :
  similarNotes (filterSimilarNotes p v)
  = map (fun note =>
           {| note_file := note_file note; score := score note;
              selected := score note >=? discoverThreshold (settings p);
              matchingChunks := matchingChunks note |})
        (similarNotes v).
Proof.
  unfold filterSimilarNotes. rewrite similarNotes_renderSimilarNotes.
  reflexivity.
Qed.

Lemma paths_filterSimilarNotes (p : ConvergePlugin) (v : @ChatView num) :
  map (fun n => path (note_file n)) (similarNotes (filterSimilarNotes p v))
  = map (fun n => path (note_file n)) (similarNotes v).
Proof. rewrite similarNotes_filterSimilarNotes, map_map. reflexivity. Qed.

(** What [findSimilarNotes] leaves in the list: the list as it was, or a
    new ranking. *)
Lemma similarNotes_findSimilarNotes (sv : Services) (p : ConvergePlugin)
    (f : TFile) (v : @ChatView num) :
  similarNotes (findSimilarNotes sv p f v) = similarNotes v \/
  exists queryEmbedding,
    similarNotes (findSimilarNotes sv p f v)
    = rank_similar (vaultIndex p) (path f) queryEmbedding
        (discoverThreshold (settings p)) /\
    discoverPanel (findSimilarNotes sv p f v)
    = discoverPanel
        (renderSimilarNotes p
           (set_similarNotes
              (rank_similar (vaultIndex p) (path f) queryEmbedding
                 (discoverThreshold (settings p))) v)).
Proof.
  unfold findSimilarNotes.
  destruct (length (chunks (vaultIndex p)) =? 0)%nat; [left; reflexivity|].
  destruct (cachedRead sv f) as [content|e]; [|left; reflexivity].
  cbn [mbind Outcome_bind].
  destruct (getEmbedding sv (slice_prefix 2000 content)) as [q|e];
    [|left; reflexivity].
  right. exists q.
  pose proof (rank_similar_spec (vaultIndex p) (path f) q
                (discoverThreshold (settings p))) as (Hnotes & _).
  assert (Hsame : map (fun note =>
                         {| note_file := note_file note; score := score note;
                            selected :=
                              score note >=? discoverThreshold (settings p);
                            matchingChunks := matchingChunks note |})
                      (rank_similar (vaultIndex p) (path f) q
                         (discoverThreshold (settings p)))
                  = rank_similar (vaultIndex p) (path f) q
                      (discoverThreshold (settings p))).
  { apply reselect_id. intros note Hin.
    destruct (Hnotes note Hin) as (_ & _ & _ & Hsel & _). exact Hsel. }
  split.
  - rewrite similarNotes_filterSimilarNotes. exact Hsame.
  - unfold filterSimilarNotes. cbn [similarNotes set_similarNotes set_discoverPanel].
    rewrite Hsame. unfold renderSimilarNotes.
    cbn [similarNotes set_similarNotes set_discoverPanel].
    destruct (rank_similar _ _ _ _); [reflexivity|].
    destruct (List.filter _ _); reflexivity.
Qed.

Lemma discover_step_NoDup (st : @ConvergePlugin num * @ChatView num)
    (a : DiscoverAction) :
  List.NoDup (map (fun n => path (note_file n)) (similarNotes (snd st))) ->
  List.NoDup (map (fun n => path (note_file n))
                (similarNotes (snd (discover_step st a)))).
Proof.
  destruct st as [p v]. cbn [snd]. intros Hnodup.
  destruct a as [sv h index|k|h filePath|filePath|]; cbn [discover_step snd].
  - unfold updateDiscoverForActiveNote.
    destruct (activeFile h) as [active|]; [|exact Hnodup].
    destruct (String.eqb (extension active) "md"); [|exact Hnodup].
    destruct (similarNotes_findSimilarNotes sv (set_vaultIndex index p)
                active v) as [Hsame|(q & Hrank & _)].
    + rewrite Hsame. exact Hnodup.
    + rewrite Hrank.
      pose proof (rank_similar_spec (vaultIndex (set_vaultIndex index p))
                    (path active) q
                    (discoverThreshold (settings (set_vaultIndex index p))))
        as (_ & Hnd & _).
      exact Hnd.
  - rewrite paths_filterSimilarNotes. exact Hnodup.
  - unfold setupDiscoverDropZone.
    destruct (String.eqb (clean_path filePath) ""); [exact Hnodup|].
    destruct (vault_files h !! clean_path filePath) as [[f|folder]|];
      try exact Hnodup.
    destruct (String.eqb (extension f) "md"); [|exact Hnodup].
    destruct (find_note (path f) (similarNotes v)) eqn:Hfind;
      [exact Hnodup|].
    cbn [fst]. rewrite similarNotes_renderSimilarNotes.
    cbn [similarNotes set_similarNotes].
    apply (NoDup_paths_snoc f); [reflexivity|exact Hfind|exact Hnodup].
  - unfold removeSimilarNote. rewrite similarNotes_renderSimilarNotes.
    cbn [similarNotes set_similarNotes].
    apply NoDup_paths_filter. exact Hnodup.
  - unfold clearSimilarNotes. rewrite similarNotes_renderSimilarNotes.
    constructor.
Qed.

(** X13.  The list of similar notes never names a note twice, whatever
    the user does to it: notes found for the active note, notes dropped on
    the list, the slider moved, notes removed and the list cleared, in any
    order and with any index. *)
Theorem similarNotes_NoDup (p : @ConvergePlugin num)
    (actions : list DiscoverAction) :
  List.NoDup
    (map (fun n => path (note_file n))
       (similarNotes (snd (fold_left discover_step actions (p, new_view))))).
Proof.
  assert (Hgen : forall st,
            List.NoDup (map (fun n => path (note_file n))
                          (similarNotes (snd st))) ->
            List.NoDup (map (fun n => path (note_file n))
                          (similarNotes
                             (snd (fold_left discover_step actions st))))).
  { induction actions as [|a actions IH]; intros st Hst; [exact Hst|].
    simpl. apply IH. apply discover_step_NoDup. exact Hst. }
  apply Hgen. constructor.
Qed.

End DiscoverFacts.

Section SelectionFacts.
Context {num : Type} `{Number num}.
Local Open Scope num_scope.
Hypothesis slider_le_one :
  forall k, k <= 100 -> (of_nat 1 >=? slider_value k) = true.

Lemma listing_renderSimilarNotes (p : ConvergePlugin) (v : @ChatView num) :
  listing (discoverPanel (renderSimilarNotes p v))
  = Some (List.filter (fun n => score n >=? discoverThreshold (settings p))
            (similarNotes v)).
Proof.
  unfold renderSimilarNotes.
  destruct (similarNotes v) as [|n notes]; [reflexivity|].
  destruct (List.filter _ (n :: notes)); reflexivity.
Qed.

(** A view that [renderSimilarNotes] has just drawn. *)
Lemma selection_ok_rendered (p : ConvergePlugin) (v : @ChatView num) :
  (of_nat 1 >=? discoverThreshold (settings p)) = true ->
  Forall (fun n => selected n = (score n >=? discoverThreshold (settings p)))
    (similarNotes v) ->
  selection_ok (p, renderSimilarNotes p v).
Proof.
  intros Hone Hflags. unfold selection_ok. cbn [fst snd].
  rewrite similarNotes_renderSimilarNotes, listing_renderSimilarNotes.
  split; [exact Hone|]. split; [exact Hflags|].
  intros shown [= <-]. reflexivity.
Qed.

Lemma discover_step_selection (st : @ConvergePlugin num * @ChatView num)
    (a : DiscoverAction) :
  slider_ok a = true -> selection_ok st -> selection_ok (discover_step st a).
Proof.
  destruct st as [p v]. intros Hslider (Hone & Hflags & Hpanel).
  cbn [fst snd] in Hone, Hflags, Hpanel.
  destruct a as [sv h index|k|h filePath|filePath|]; cbn [discover_step].
  - set (p' := set_vaultIndex index p).
    assert (Hkeep : selection_ok (p', v)).
    { split; [exact Hone|]. split; [exact Hflags|exact Hpanel]. }
    unfold updateDiscoverForActiveNote.
    destruct (activeFile h) as [active|]; [|exact Hkeep].
    destruct (String.eqb (extension active) "md"); [|exact Hkeep].
    pose proof (similarNotes_findSimilarNotes sv p' active v) as Hfind.
    unfold findSimilarNotes in *.
    destruct (length (chunks (vaultIndex p')) =? 0)%nat.
    { split; [exact Hone|]. split; [exact Hflags|]. intros shown [=]. }
    destruct (cachedRead sv active) as [content|e];
      [|split; [exact Hone|]; split; [exact Hflags|]; intros shown [=]].
    cbn [mbind Outcome_bind] in *.
    destruct (getEmbedding sv (slice_prefix 2000 content)) as [q|e];
      [|split; [exact Hone|]; split; [exact Hflags|]; intros shown [=]].
    unfold filterSimilarNotes. apply selection_ok_rendered; [exact Hone|].
    cbn [similarNotes set_similarNotes set_discoverPanel].
    apply List.Forall_forall. intros n Hn.
    apply in_map_iff in Hn as (m & <- & _). reflexivity.
  - set (p' := set_threshold (slider_value k) p).
    unfold filterSimilarNotes. apply selection_ok_rendered.
    + apply slider_le_one. apply Nat.leb_le. exact Hslider.
    + cbn [similarNotes set_similarNotes].
      apply List.Forall_forall. intros n Hn.
      apply in_map_iff in Hn as (m & <- & _). reflexivity.
  - assert (Hkeep : selection_ok (p, v)).
    { split; [exact Hone|]. split; [exact Hflags|exact Hpanel]. }
    unfold setupDiscoverDropZone.
    destruct (String.eqb (clean_path filePath) ""); [exact Hkeep|].
    destruct (vault_files h !! clean_path filePath) as [[f|folder]|];
      try exact Hkeep.
    destruct (String.eqb (extension f) "md"); [|exact Hkeep].
    destruct (find_note (path f) (similarNotes v)); [exact Hkeep|].
    cbn [fst]. apply selection_ok_rendered; [exact Hone|].
    cbn [similarNotes set_similarNotes].
    apply Forall_app. split; [exact Hflags|].
    constructor; [|constructor]. cbn [selected score]. symmetry. exact Hone.
  - unfold removeSimilarNote. apply selection_ok_rendered; [exact Hone|].
    cbn [similarNotes set_similarNotes].
    apply List.Forall_forall. intros n Hn. apply filter_In in Hn as [Hn _].
    rewrite List.Forall_forall in Hflags. apply Hflags. exact Hn.
  - unfold clearSimilarNotes. apply selection_ok_rendered; [exact Hone|].
    constructor.
Qed.

Lemma discover_run_selection (actions : list DiscoverAction) :
  forall st : @ConvergePlugin num * @ChatView num,
    forallb slider_ok actions = true -> selection_ok st ->
    selection_ok (fold_left discover_step actions st).
Proof.
  induction actions as [|a actions IH]; intros st Hall Hst; [exact Hst|].
  simpl in Hall. apply andb_true_iff in Hall as [Ha Hall].
  simpl. apply IH; [exact Hall|].
  apply discover_step_selection; assumption.
Qed.

Lemma filter_selected (threshold : num) (notes : list (@SimilarNote num)) :
  Forall (fun n => selected n = (score n >=? threshold)) notes ->
  List.filter (fun n => score n >=? threshold) notes
  = List.filter selected notes.
Proof.
  intros Hflags. apply filter_ext_in. intros n Hn.
  rewrite List.Forall_forall in Hflags. symmetry. apply Hflags. exact Hn.
Qed.

End SelectionFacts.

(** Every stand of the slider gives a threshold of at most 1. *)
Lemma float_slider_le_one (k : nat) :
  k <= 100 -> PrimFloat.leb (slider_value k) (of_nat 1) = true.
Proof.
  intros Hk.
  assert (Hall : forallb (fun k => PrimFloat.leb (slider_value k) (of_nat 1))
                   (seq 0 101) = true) by (vm_compute; reflexivity).
  rewrite forallb_forall in Hall. apply Hall. apply in_seq. lia.
Qed.

(** X14.  What [selected] means.  As long as the threshold starts at
    most at 1 and is moved by the slider of the pane only, after whatever
    the user does to the list a note is selected exactly when its score
    reaches the threshold, and a panel that lists notes lists the
    selected notes, in the order of the list: a note dropped on the list,
    which scores 1, is selected and shown.  (The settings tab writes the
    threshold without going through the list, see
    [settings_tab_leaves_flags].) *)
Theorem selected_iff_shown (p : @ConvergePlugin float)
    (actions : list DiscoverAction) :
  PrimFloat.leb (discoverThreshold (settings p)) 1%float = true ->
  forallb slider_ok actions = true ->
  let st := fold_left discover_step actions (p, new_view) in
  Forall (fun n => selected n
                   = PrimFloat.leb (discoverThreshold (settings (fst st)))
                       (score n))
    (similarNotes (snd st)) /\
  forall shown, listing (discoverPanel (snd st)) = Some shown ->
    shown = List.filter selected (similarNotes (snd st)).
Proof.
  intros Hone Hsliders st.
  destruct (@discover_run_selection float float64 float_slider_le_one
              actions (p, new_view) Hsliders)
    as (_ & Hflags & Hpanel).
  { split; [|split; [constructor|intros shown [=]]].
    cbn [fst]. replace (of_nat 1) with 1%float by (vm_compute; reflexivity).
    exact Hone. }
  fold st in Hflags, Hpanel. split; [exact Hflags|].
  intros shown Hshown. rewrite (Hpanel shown Hshown).
  apply filter_selected. exact Hflags.
Qed.

Lemma selected_iff_shown_witness :
  Forall (fun n =>
            selected n
            = PrimFloat.leb
                (discoverThreshold
                   (settings
                      (fst (fold_left discover_step sample_discover_actions
                              (sample_plugin sample_index, new_view)))))
                (score n))
    (similarNotes
       (snd (fold_left discover_step sample_discover_actions
               (sample_plugin sample_index, new_view)))) /\
  forall shown,
    listing
      (discoverPanel
         (snd (fold_left discover_step sample_discover_actions
                 (sample_plugin sample_index, new_view))))
    = Some shown ->
    shown
    = List.filter selected
        (similarNotes
           (snd (fold_left discover_step sample_discover_actions
                   (sample_plugin sample_index, new_view)))).
Proof.
  apply (selected_iff_shown (sample_plugin sample_index)
           sample_discover_actions).
  - reflexivity.
  - reflexivity.
Defined.

(** The sample actions leave note b, found and above the threshold, and
    note a, dropped; both are selected and shown. *)
Example discover_sample :
  let v := snd (fold_left discover_step sample_discover_actions
                  (sample_plugin sample_index, new_view)) in
  map (fun n => (basename (note_file n), selected n)) (similarNotes v)
  = [("b", true); ("a", true)]%string /\
  option_map (map (fun n => basename (note_file n)))
    (listing (discoverPanel v))
  = Some ["b"; "a"]%string.
Proof. vm_compute. split; reflexivity. Qed.

(** The settings tab writes the threshold and leaves the list alone: with
    the threshold set to 90 percent there, note c, found at a threshold
    of 50 percent, is still selected although it scores less. *)
Example settings_tab_leaves_flags :
  let '(p, v) := discover_step (sample_plugin sample_index, new_view)
                   (ActiveNote sample_services sample_host sample_index) in
  let p' := onChange_discoverThreshold (Some 90%Z) p in
  map (fun n => (basename (note_file n), selected n,
                 PrimFloat.leb (discoverThreshold (settings p')) (score n)))
      (similarNotes v)
  = [("b", true, true); ("c", true, false)]%string.
Proof. vm_compute. reflexivity. Qed.

(* ================================================================== *)
(** ** The pickers of tags and folders *)
(* ================================================================== *)

Section PickerFacts.
Context {num : Type} `{Number num}.

Lemma find_path_Some (p : string) (notes : list TFile) (f : TFile) :
  find_path p notes = Some f -> In p (map path notes).
Proof.
  unfold find_path. intros Hfind. apply find_some in Hfind as [Hin Hp].
  apply String.eqb_eq in Hp. subst p. apply in_map. exact Hin.
Qed.

(** The loop of the pickers only appends: it adds, in their order, the
    files that pass the test and are not listed yet, and counts them. *)
Lemma add_matching_spec (keep : TFile -> bool) (files : list TFile) :
  forall (notes : list TFile) (added : nat),
    exists extra,
      add_matching keep files notes added
      = (notes ++ extra, added + length extra) /\
      sublist extra (matching keep files) /\
      Forall (fun f => ~ In (path f) (map path notes)) extra /\
      forall f, In f files -> keep f = true ->
                In (path f) (map path (notes ++ extra)).
Proof.
  induction files as [|f files IH]; intros notes added.
  - exists []. simpl. rewrite app_nil_r, Nat.add_0_r.
    split_and!; [reflexivity|constructor|constructor|intros f []].
  - simpl. unfold matching. simpl. destruct (keep f) eqn:Hkeep.
    + destruct (find_path (path f) notes) as [g|] eqn:Hfind.
      * destruct (IH notes added) as (extra & Hrun & Hsub & Hnew & Hall).
        exists extra. split_and!; [exact Hrun| |exact Hnew|].
        -- apply sublist_cons. exact Hsub.
        -- intros f' [<-|Hin] Hk; [|apply Hall; assumption].
           rewrite map_app. apply in_or_app. left.
           eapply find_path_Some. exact Hfind.
      * destruct (IH (notes ++ [f]) (S added))
          as (extra & Hrun & Hsub & Hnew & Hall).
        exists (f :: extra). split_and!.
        -- rewrite Hrun. rewrite <- app_assoc. simpl. f_equal. lia.
        -- apply sublist_skip. exact Hsub.
        -- constructor.
           ++ apply find_path_None. exact Hfind.
           ++ eapply Forall_impl; [exact Hnew|]. simpl. intros g Hg Hin.
              apply Hg. rewrite map_app. apply in_or_app. left. exact Hin.
        -- intros f' Hin Hk.
           replace (notes ++ f :: extra) with ((notes ++ [f]) ++ extra)
             by (rewrite <- app_assoc; reflexivity).
           destruct Hin as [<-|Hin]; [|apply Hall; assumption].
           rewrite !map_app. apply in_or_app. left. apply in_or_app. right.
           left. reflexivity.
    + destruct (IH notes added) as (extra & Hrun & Hsub & Hnew & Hall).
      exists extra. split_and!; [exact Hrun|exact Hsub|exact Hnew|].
      intros f' [<-|Hin] Hk; [congruence|apply Hall; assumption].
Qed.

(** X15.  The pickers of tags and folders and the button for linked
    notes only add to the context list.  The notes listed stay where they
    are; appended are, in vault order, the notes that pass the picker's
    test and whose path was not listed; the notice counts them; and
    afterwards every note that passes the test is listed by its path. *)
Theorem pickers_append (h : @Host num) (tag folder : string)
    (v : @ChatView num) :
  appended (fun f => hasTag (fileCache h (path f)) tag) (markdownFiles h)
    v (showTagSuggest h tag v) /\
  appended (fun f => String.prefix (folder ++ "/") (path f)) (markdownFiles h)
    v (showFolderSuggest h folder v) /\
  forall active, activeFile h = Some active ->
    appended (fun _ => true)
      (omap (fun link => firstLinkpathDest h link (path active))
         match fileCache h (path active) with
         | Some c => match cache_links c with Some ls => ls | None => [] end
         | None => []
         end)
      v (addLinkedNotes h v).
Proof.
  assert (Hgen : forall keep files,
            let '(notes, added) :=
              add_matching keep files (contextNotes v) 0 in
            appended keep files v
              (view_notice (NoticeAddedCount added) (set_contextNotes notes v))).
  { intros keep files.
    destruct (add_matching_spec keep files (contextNotes v) 0)
      as (extra & Hrun & Hsub & Hnew & Hall).
    rewrite Hrun. exists extra. cbn. split_and!; auto. }
  split_and!.
  - unfold showTagSuggest.
    specialize (Hgen (fun f => hasTag (fileCache h (path f)) tag)
                  (markdownFiles h)).
    destruct (add_matching _ _ _ _). exact Hgen.
  - unfold showFolderSuggest.
    specialize (Hgen (fun f => String.prefix (folder ++ "/") (path f))
                  (markdownFiles h)).
    destruct (add_matching _ _ _ _). exact Hgen.
  - intros active Hactive. unfold addLinkedNotes. rewrite Hactive.
    match goal with
    | |- context [add_matching ?k ?fs _ _] => specialize (Hgen k fs)
    end.
    destruct (add_matching _ _ _ _). exact Hgen.
Qed.

End PickerFacts.

Lemma set_add_In (x y : string) (s : list string) :
  In y (set_add x s) <-> In y s \/ y = x.
Proof.
  unfold set_add. destruct (existsb (String.eqb x) s) eqn:Hex.
  - split; [auto|]. intros [Hin| ->]; [exact Hin|].
    apply existsb_exists in Hex as (z & Hz & Hxz).
    apply String.eqb_eq in Hxz. subst z. exact Hz.
  - rewrite in_app_iff. simpl. intuition congruence.
Qed.

Lemma set_add_NoDup (x : string) (s : list string) :
  List.NoDup s -> List.NoDup (set_add x s).
Proof.
  intros Hs. unfold set_add. destruct (existsb (String.eqb x) s) eqn:Hex;
    [exact Hs|].
  apply NoDup_ListNoDup. apply NoDup_app. split_and!.
  - apply NoDup_ListNoDup. exact Hs.
  - intros y Hy Hy'. apply list_elem_of_singleton in Hy'. subst y.
    apply list_elem_of_In in Hy.
    assert (Htrue : existsb (String.eqb x) s = true).
    { apply existsb_exists. exists x. split; [exact Hy|apply String.eqb_refl]. }
    congruence.
  - apply NoDup_singleton.
Qed.

Lemma fold_set_add_In {A : Type} (g : A -> string) (ts : list A) :
  forall (s : list string) (y : string),
    In y (fold_left (fun acc t => set_add (g t) acc) ts s)
    <-> In y s \/ In y (map g ts).
Proof.
  induction ts as [|t ts IH]; intros s y; simpl; [tauto|].
  rewrite IH, set_add_In. intuition congruence.
Qed.

Lemma fold_set_add_NoDup {A : Type} (g : A -> string) (ts : list A) :
  forall s : list string,
    List.NoDup s ->
    List.NoDup (fold_left (fun acc t => set_add (g t) acc) ts s).
Proof.
  induction ts as [|t ts IH]; intros s Hs; simpl; [exact Hs|].
  apply IH, set_add_NoDup, Hs.
Qed.

Lemma existsb_eqb_In (y : string) (ts : list string) :
  existsb (fun t => String.eqb t y) ts = true <-> In y ts.
Proof.
  rewrite existsb_exists. split.
  - intros (t & Ht & Heq). apply String.eqb_eq in Heq. subst t. exact Ht.
  - intros Hy. exists y. split; [exact Hy|apply String.eqb_refl].
Qed.

Lemma existsb_hash_In (y : string) (fm : list string) :
  existsb (fun t => String.eqb ("#" ++ t) y) fm = true
  <-> In y (map (fun t => ("#" ++ t)%string) fm).
Proof.
  rewrite existsb_exists, in_map_iff. split.
  - intros (t & Ht & Heq). apply String.eqb_eq in Heq. eauto.
  - intros (t & Heq & Ht). exists t. split; [exact Ht|].
    apply String.eqb_eq. exact Heq.
Qed.

Section TagFacts.
Context {num : Type} `{Number num}.

(** [getAllTags] gathers from a file the tags that [hasTag] finds in
    it. *)
Lemma tags_of_file_In (h : @Host num) (tags : list string) (f : TFile)
    (y : string) :
  In y (tags_of_file h tags f)
  <-> In y tags \/ hasTag (fileCache h (path f)) y = true.
Proof.
  unfold tags_of_file, hasTag.
  destruct (fileCache h (path f)) as [c|]; [|intuition congruence].
  destruct (cache_tags c) as [ts|], (cache_frontmatter_tags c) as [fm|];
    rewrite ?fold_set_add_In, ?map_id.
  - destruct (existsb (fun t => String.eqb t y) ts) eqn:Hts.
    + apply existsb_eqb_In in Hts. tauto.
    + rewrite <- (existsb_hash_In y fm).
      assert (Hno : ~ In y ts).
      { intros Hy. apply existsb_eqb_In in Hy. congruence. }
      tauto.
  - rewrite <- (existsb_eqb_In y ts).
    destruct (existsb (fun t => String.eqb t y) ts);
      intuition congruence.
  - rewrite <- (existsb_hash_In y fm). simpl. tauto.
  - simpl. intuition congruence.
Qed.

Lemma tags_of_file_NoDup (h : @Host num) (tags : list string) (f : TFile) :
  List.NoDup tags -> List.NoDup (tags_of_file h tags f).
Proof.
  intros Htags. unfold tags_of_file.
  destruct (fileCache h (path f)) as [c|]; [|exact Htags].
  destruct (cache_tags c) as [ts|], (cache_frontmatter_tags c) as [fm|];
    repeat apply fold_set_add_NoDup; exact Htags.
Qed.

Lemma all_tags_In (h : @Host num) (files : list TFile) :
  forall (tags : list string) (y : string),
    In y (fold_left (tags_of_file h) files tags)
    <-> In y tags \/
        exists f, In f files /\ hasTag (fileCache h (path f)) y = true.
Proof.
  induction files as [|f files IH]; intros tags y; simpl.
  - split; [auto|]. intros [Hy|(f & [] & _)]. exact Hy.
  - rewrite IH, tags_of_file_In. split.
    + intros [[Hy|Hf]|(g & Hg & Htag)]; eauto.
    + intros [Hy|(g & [<-|Hg] & Htag)]; eauto.
Qed.

Lemma all_tags_NoDup (h : @Host num) (files : list TFile) :
  forall tags : list string,
    List.NoDup tags -> List.NoDup (fold_left (tags_of_file h) files tags).
Proof.
  induction files as [|f files IH]; intros tags Htags; simpl; [exact Htags|].
  apply IH, tags_of_file_NoDup, Htags.
Qed.

End TagFacts.

Lemma ltb_false_le (x y : string) : String.ltb y x = false -> String.le x y.
Proof.
  unfold String.ltb, String.le, String.leb.
  rewrite (String.compare_antisym x y).
  destruct (String.compare y x); simpl; [reflexivity|discriminate|reflexivity].
Qed.

Lemma ltb_true_le (x y : string) : String.ltb y x = true -> String.le y x.
Proof.
  unfold String.ltb, String.le, String.leb.
  destruct (String.compare y x); simpl; [discriminate|reflexivity|discriminate].
Qed.

Lemma sort_insert_sorted (x : string) (l : list string) :
  StronglySorted String.le l ->
  StronglySorted String.le (sort_insert (fun x y => String.ltb y x) x l).
Proof.
  induction l as [|y l IH]; intros Hl; simpl.
  - constructor; [constructor|constructor].
  - apply StronglySorted_inv in Hl as [Hl Hy].
    destruct (String.ltb y x) eqn:Hyx.
    + constructor; [apply IH; exact Hl|].
      rewrite (sort_insert_perm (fun x y => String.ltb y x) x l).
      constructor; [apply ltb_true_le; exact Hyx|exact Hy].
    + constructor; [constructor; assumption|].
      apply ltb_false_le in Hyx. constructor; [exact Hyx|].
      eapply Forall_impl; [exact Hy|]. simpl. intros z Hz.
      etransitivity; eassumption.
Qed.

(** The default sort leaves strings in the order of their code units. *)
Lemma sort_strings_sorted (l : list string) :
  StronglySorted String.le (sort_strings l).
Proof.
  unfold sort_strings. induction l as [|x l IH]; simpl; [constructor|].
  apply sort_insert_sorted. exact IH.
Qed.

Lemma sort_strings_perm (l : list string) : sort_strings l ≡ₚ l.
Proof. apply stable_sort_perm. Qed.

(** X16.  The tag picker offers what it can deliver.  A tag is offered
    exactly when some note of the vault carries it, in its body or as
    [#tag] in its front matter, which is the test by which the picker's
    callback adds notes; the tags offered are in ascending order, none
    twice; and once an offered tag is picked, a note that carries it is in
    the context list. *)
Theorem getAllTags_spec {num : Type} `{Number num} (h : @Host num) :
  (forall tag,
     In tag (getAllTags h)
     <-> exists f, In f (markdownFiles h) /\
                   hasTag (fileCache h (path f)) tag = true) /\
  List.NoDup (getAllTags h) /\
  StronglySorted String.le (getAllTags h) /\
  (forall tag (v : @ChatView num),
     In tag (getAllTags h) ->
     exists f, In f (markdownFiles h) /\
               hasTag (fileCache h (path f)) tag = true /\
               In (path f) (map path (contextNotes (showTagSuggest h tag v)))).
Proof.
  assert (Hin : forall tag,
            In tag (getAllTags h)
            <-> exists f, In f (markdownFiles h) /\
                          hasTag (fileCache h (path f)) tag = true).
  { intros tag. unfold getAllTags.
    rewrite <- !list_elem_of_In, sort_strings_perm, list_elem_of_In.
    rewrite all_tags_In. split; [intros [[]|Hf]; exact Hf|auto]. }
  split_and!.
  - exact Hin.
  - unfold getAllTags. apply NoDup_ListNoDup.
    rewrite sort_strings_perm. apply NoDup_ListNoDup.
    apply all_tags_NoDup. constructor.
  - apply sort_strings_sorted.
  - intros tag v Htag. apply Hin in Htag as (f & Hf & Hhas).
    exists f. split; [exact Hf|]. split; [exact Hhas|].
    unfold showTagSuggest.
    destruct (add_matching_spec (fun f => hasTag (fileCache h (path f)) tag)
                (markdownFiles h) (contextNotes v) 0)
      as (extra & Hrun & _ & _ & Hall).
    rewrite Hrun. cbn. apply Hall; assumption.
Qed.

(** *** [split] and [join] at a separator *)

Lemma concat_cons (sep x : string) (l : list string) :
  l <> [] ->
  String.concat sep (x :: l) = (x ++ sep ++ String.concat sep l)%string.
Proof. destruct l; [contradiction|reflexivity]. Qed.

Lemma concat_app (sep : string) (a b : list string) :
  a <> [] -> b <> [] ->
  String.concat sep (a ++ b)
  = (String.concat sep a ++ sep ++ String.concat sep b)%string.
Proof.
  intros Ha Hb. induction a as [|x a IH]; [contradiction|].
  destruct a as [|y a].
  - simpl app. rewrite concat_cons by exact Hb. reflexivity.
  - change ((x :: y :: a) ++ b) with (x :: ((y :: a) ++ b)).
    rewrite !concat_cons by discriminate.
    rewrite IH by discriminate. rewrite !append_assoc. reflexivity.
Qed.

Lemma split_on_nonempty (sep : ascii) (s : string) : split_on sep s <> [].
Proof.
  induction s as [|c rest IH]; simpl; [discriminate|].
  destruct (Ascii.eqb c sep); [discriminate|].
  destruct (split_on sep rest); discriminate.
Qed.

Lemma concat_String (sep : string) (c : ascii) (part : string)
    (parts : list string) :
  String.concat sep (String c part :: parts)
  = String c (String.concat sep (part :: parts)).
Proof. destruct parts; reflexivity. Qed.

Lemma concat_split_on (sep : ascii) (s : string) :
  String.concat (String sep "") (split_on sep s) = s.
Proof.
  induction s as [|c rest IH]; cbn [split_on]; [reflexivity|].
  destruct (Ascii.eqb_spec c sep) as [->|Hc].
  - rewrite concat_cons by apply split_on_nonempty.
    rewrite IH. reflexivity.
  - pose proof (split_on_nonempty sep rest) as Hne.
    destruct (split_on sep rest) as [|part parts]; [contradiction|].
    rewrite concat_String, IH. reflexivity.
Qed.

Lemma split_on_append (sep : ascii) (a b : string) :
  split_on sep (a ++ String sep b) = split_on sep a ++ split_on sep b.
Proof.
  induction a as [|c a IH].
  - simpl. rewrite Ascii.eqb_refl. reflexivity.
  - change (String c a ++ String sep b)%string
      with (String c (a ++ String sep b)).
    cbn [split_on]. rewrite IH.
    destruct (Ascii.eqb c sep); [reflexivity|].
    pose proof (split_on_nonempty sep a) as Hne.
    destruct (split_on sep a) as [|part parts]; [contradiction|reflexivity].
Qed.

Lemma prefix_append (a b : string) : String.prefix a (a ++ b) = true.
Proof.
  induction a as [|c a IH]; [destruct b; reflexivity|].
  simpl. destruct (ascii_dec c c); [exact IH|contradiction].
Qed.

Lemma prefix_split (a s : string) :
  String.prefix a s = true -> exists b, s = (a ++ b)%string.
Proof.
  revert s. induction a as [|c a IH]; intros s Hs.
  - exists s. reflexivity.
  - destruct s as [|d s]; [discriminate|]. simpl in Hs.
    destruct (ascii_dec c d) as [->|]; [|discriminate].
    destruct (IH s Hs) as [b ->]. exists b. reflexivity.
Qed.

(** The inner loop of [getAllFolders], once the local [path] is not
    empty: it gathers [path] lengthened by one part after the other. *)
Lemma folder_loop_In (parts : list string) :
  forall (dir : string) (folders : list string) (y : string),
    dir <> ""%string ->
    In y (snd (fold_left folder_step parts (dir, folders)))
    <-> In y folders \/
        exists k, 1 <= k <= length parts /\
                  y = String.concat "/" (dir :: take k parts).
Proof.
  induction parts as [|part parts IH]; intros dir folders y Hdir.
  - simpl. split; [auto|]. intros [Hy|(k & Hk & _)]; [exact Hy|simpl in Hk; lia].
  - cbn [fold_left]. unfold folder_step at 2. cbn [fst snd].
    destruct (String.eqb_spec dir "") as [|_]; [contradiction|].
    rewrite IH by (destruct dir; [contradiction|discriminate]).
    rewrite set_add_In. split.
    + intros [[Hy| ->]|(k & Hk & ->)].
      * left. exact Hy.
      * right. exists 1. split; [simpl; lia|]. reflexivity.
      * right. exists (S k). split; [simpl; lia|].
        cbn [take]. destruct (take k parts) eqn:Htake.
        -- destruct k; [lia|]. destruct parts; [simpl in Hk; lia|discriminate].
        -- rewrite (concat_cons "/" dir) by discriminate.
           rewrite (concat_cons "/" (dir ++ "/" ++ part)) by discriminate.
           rewrite (concat_cons "/" part) by discriminate.
           rewrite !append_assoc. reflexivity.
    + intros [Hy|(k & Hk & ->)]; [left; left; exact Hy|].
      destruct k as [|k]; [lia|]. cbn [take].
      destruct k as [|k].
      * left. right. rewrite ?take_0. reflexivity.
      * right. exists (S k). split; [simpl in Hk; lia|].
        destruct (take (S k) parts) eqn:Htake.
        -- destruct parts; [simpl in Hk; lia|discriminate].
        -- rewrite (concat_cons "/" dir) by discriminate.
           rewrite (concat_cons "/" (dir ++ "/" ++ part)) by discriminate.
           rewrite (concat_cons "/" part) by discriminate.
           rewrite !append_assoc. reflexivity.
Qed.

Lemma folder_loop_NoDup (parts : list string) :
  forall st : string * list string,
    List.NoDup (snd st) ->
    List.NoDup (snd (fold_left folder_step parts st)).
Proof.
  induction parts as [|part parts IH]; intros st Hst; [exact Hst|].
  simpl. apply IH. unfold folder_step. cbn [snd].
  apply set_add_NoDup. exact Hst.
Qed.

(** From the start of the loop, for a path whose first part is not
    empty. *)
Lemma folder_loop_start (dirs : list string) (folders : list string)
    (y : string) :
  match dirs with d :: _ => d <> ""%string | [] => True end ->
  In y (snd (fold_left folder_step dirs (""%string, folders)))
  <-> In y folders \/
      exists k, 1 <= k <= length dirs /\ y = String.concat "/" (take k dirs).
Proof.
  destruct dirs as [|d dirs]; intros Hd.
  - simpl. split; [auto|]. intros [Hy|(k & Hk & _)]; [exact Hy|simpl in Hk; lia].
  - cbn [fold_left]. unfold folder_step at 2. cbn [fst snd String.eqb].
    rewrite folder_loop_In by exact Hd. rewrite set_add_In. split.
    + intros [[Hy| ->]|(k & Hk & ->)].
      * left. exact Hy.
      * right. exists 1. split; [simpl; lia|]. rewrite ?take_0. reflexivity.
      * right. exists (S k). split; [simpl; lia|]. reflexivity.
    + intros [Hy|(k & Hk & ->)]; [left; left; exact Hy|].
      destruct k as [|k]; [lia|]. destruct k as [|k].
      * left. right. rewrite ?take_0. reflexivity.
      * right. exists (S k). split; [simpl in Hk; lia|]. reflexivity.
Qed.

Lemma split_on_head (sep : ascii) (s : string) :
  String.prefix (String sep "") s = false -> s <> ""%string ->
  match split_on sep s with
  | part :: _ => part <> ""%string
  | [] => True
  end.
Proof.
  destruct s as [|c rest]; [contradiction|]. intros Hsep _.
  cbn [split_on]. simpl in Hsep.
  destruct (Ascii.eqb_spec c sep) as [->|Hc].
  - destruct (ascii_dec sep sep); [|contradiction].
    destruct rest; discriminate.
  - destruct (split_on sep rest); discriminate.
Qed.

(** The folders [getAllFolders] gathers from a file with a relative path
    are those that [showFolderSuggest] finds the file in. *)
Lemma folders_of_file_In (folders : list string) (f : TFile) (y : string) :
  String.prefix "/" (path f) = false ->
  In y (folders_of_file folders f)
  <-> In y folders \/ String.prefix (y ++ "/") (path f) = true.
Proof.
  intros Hrel. unfold folders_of_file.
  pose proof (concat_split_on "/" (path f)) as Hjoin.
  pose proof (split_on_nonempty "/" (path f)) as Hne.
  assert (Hcut : forall b, path f = (y ++ String "/" b)%string ->
                 split_on "/" (path f) = split_on "/" y ++ split_on "/" b).
  { intros b Hb. rewrite Hb. apply split_on_append. }
  destruct (1 <? length (split_on "/" (path f)))%nat eqn:Hlen.
  - apply Nat.ltb_lt in Hlen.
    assert (Hp : path f <> ""%string).
    { intros Hp. rewrite Hp in Hlen. simpl in Hlen. lia. }
    pose proof (split_on_head "/" (path f) Hrel Hp) as Hhead.
    set (parts := split_on "/" (path f)) in *.
    assert (Hdirs : removelast parts = take (length parts - 1) parts).
    { rewrite removelast_firstn_len. f_equal. lia. }
    rewrite folder_loop_start.
    2:{ rewrite Hdirs. destruct parts as [|d [|d' parts']];
          [exact I|simpl in Hlen; lia|exact Hhead]. }
    rewrite Hdirs, length_take.
    split; (intros [Hy|Hy]; [left; exact Hy|right]).
    + destruct Hy as (k & Hk & ->).
      rewrite take_take. replace (k `min` (length parts - 1)) with k by lia.
      rewrite <- Hjoin. rewrite <- (take_drop k parts) at 2.
      rewrite concat_app.
      * rewrite <- append_assoc. apply prefix_append.
      * intros Hnil. apply (f_equal length) in Hnil.
        rewrite length_take in Hnil. simpl in Hnil. lia.
      * intros Hnil. apply (f_equal length) in Hnil.
        rewrite length_drop in Hnil. simpl in Hnil. lia.
    + apply prefix_split in Hy as [b Hb]. rewrite append_assoc in Hb.
      change ("/" ++ b)%string with (String "/" b) in Hb.
      specialize (Hcut b Hb). fold parts in Hcut.
      pose proof (split_on_nonempty "/" y) as Hy.
      pose proof (split_on_nonempty "/" b) as Hb'.
      exists (length (split_on "/" y)).
      assert (Hl : length parts
                   = length (split_on "/" y) + length (split_on "/" b))
        by (rewrite Hcut, length_app; reflexivity).
      assert (0 < length (split_on "/" y))
        by (destruct (split_on "/" y); [contradiction|simpl; lia]).
      assert (0 < length (split_on "/" b))
        by (destruct (split_on "/" b); [contradiction|simpl; lia]).
      split; [lia|].
      rewrite take_take.
      replace (length (split_on "/" y) `min` (length parts - 1))
        with (length (split_on "/" y)) by lia.
      rewrite Hcut, take_app_length. symmetry. apply concat_split_on.
  - apply Nat.ltb_ge in Hlen.
    split; [auto|]. intros [Hy|Hy]; [exact Hy|exfalso].
    apply prefix_split in Hy as [b Hb]. rewrite append_assoc in Hb.
    change ("/" ++ b)%string with (String "/" b) in Hb.
    specialize (Hcut b Hb). rewrite Hcut, length_app in Hlen.
    pose proof (split_on_nonempty "/" y) as Hy.
    pose proof (split_on_nonempty "/" b) as Hb'.
    destruct (split_on "/" y); [contradiction|].
    destruct (split_on "/" b); [contradiction|]. simpl in Hlen. lia.
Qed.

Lemma folders_of_file_NoDup (folders : list string) (f : TFile) :
  List.NoDup folders -> List.NoDup (folders_of_file folders f).
Proof.
  intros Hf. unfold folders_of_file.
  destruct (1 <? length (split_on "/" (path f)))%nat; [|exact Hf].
  apply folder_loop_NoDup. exact Hf.
Qed.

Lemma all_folders_In (files : list TFile) :
  forall (folders : list string) (y : string),
    forallb (fun f => negb (String.prefix "/" (path f))) files = true ->
    In y (fold_left folders_of_file files folders)
    <-> In y folders \/
        exists f, In f files /\ String.prefix (y ++ "/") (path f) = true.
Proof.
  induction files as [|f files IH]; intros folders y Hrel; simpl.
  - split; [auto|]. intros [Hy|(f & [] & _)]. exact Hy.
  - simpl in Hrel. apply andb_true_iff in Hrel as [Hf Hrel].
    apply negb_true_iff in Hf.
    rewrite IH by exact Hrel. rewrite folders_of_file_In by exact Hf. split.
    + intros [[Hy|Hy]|(g & Hg & Hin)]; eauto.
    + intros [Hy|(g & [<-|Hg] & Hin)]; eauto.
Qed.

Lemma all_folders_NoDup (files : list TFile) :
  forall folders : list string,
    List.NoDup folders ->
    List.NoDup (fold_left folders_of_file files folders).
Proof.
  induction files as [|f files IH]; intros folders Hf; simpl; [exact Hf|].
  apply IH, folders_of_file_NoDup, Hf.
Qed.

(** X17.  The folder picker offers what it can deliver.  In a vault of
    relative paths a folder is offered exactly when some note lies in it,
    by the test of the picker's callback: the path of the note starts
    with the folder and a slash.  The folders offered are in ascending
    order, none twice; and once an offered folder is picked, a note that
    lies in it is in the context list. *)
Theorem getAllFolders_spec {num : Type} `{Number num} (h : @Host num) :
  relative_paths h = true ->
  (forall folder,
     In folder (getAllFolders h)
     <-> exists f, In f (markdownFiles h) /\
                   String.prefix (folder ++ "/") (path f) = true) /\
  List.NoDup (getAllFolders h) /\
  StronglySorted String.le (getAllFolders h) /\
  (forall folder (v : @ChatView num),
     In folder (getAllFolders h) ->
     exists f, In f (markdownFiles h) /\
               String.prefix (folder ++ "/") (path f) = true /\
               In (path f)
                 (map path (contextNotes (showFolderSuggest h folder v)))).
Proof.
  intros Hrel.
  assert (Hin : forall folder,
            In folder (getAllFolders h)
            <-> exists f, In f (markdownFiles h) /\
                          String.prefix (folder ++ "/") (path f) = true).
  { intros folder. unfold getAllFolders.
    rewrite <- !list_elem_of_In, sort_strings_perm, list_elem_of_In.
    rewrite all_folders_In by exact Hrel.
    split; [intros [[]|Hf]; exact Hf|auto]. }
  split_and!.
  - exact Hin.
  - unfold getAllFolders. apply NoDup_ListNoDup.
    rewrite sort_strings_perm. apply NoDup_ListNoDup.
    apply all_folders_NoDup. constructor.
  - apply sort_strings_sorted.
  - intros folder v Hfolder. apply Hin in Hfolder as (f & Hf & Hhas).
    exists f. split; [exact Hf|]. split; [exact Hhas|].
    unfold showFolderSuggest.
    destruct (add_matching_spec
                (fun f => String.prefix (folder ++ "/") (path f))
                (markdownFiles h) (contextNotes v) 0)
      as (extra & Hrun & _ & _ & Hall).
    rewrite Hrun. cbn. apply Hall; assumption.
Qed.

Lemma getAllFolders_spec_witness :
  (forall folder,
     In folder (getAllFolders tagged_host)
     <-> exists f, In f (markdownFiles tagged_host) /\
                   String.prefix (folder ++ "/") (path f) = true) /\
  List.NoDup (getAllFolders tagged_host) /\
  StronglySorted String.le (getAllFolders tagged_host) /\
  (forall folder (v : @ChatView float),
     In folder (getAllFolders tagged_host) ->
     exists f, In f (markdownFiles tagged_host) /\
               String.prefix (folder ++ "/") (path f) = true /\
               In (path f)
                 (map path
                    (contextNotes (showFolderSuggest tagged_host folder v)))).
Proof. apply (getAllFolders_spec tagged_host). reflexivity. Defined.

(** What the two pickers offer in the sample vault, and what picking the
    tag [#x] and then the folder [work] adds. *)
Example pickers_sample :
  getAllTags tagged_host = ["#x"; "#y"]%string /\
  getAllFolders tagged_host = ["work"; "work/log"]%string /\
  map path
    (contextNotes
       (showFolderSuggest tagged_host "work"
          (showTagSuggest tagged_host "#x" new_view)))
  = ["a.md"; "work/log/b.md"; "work/log/c.md"]%string.
Proof. vm_compute. repeat split; reflexivity. Qed.

(* ================================================================== *)
(** ** The chat *)
(* ================================================================== *)

Section ChatFacts.
Context {num : Type} `{Number num}.

(** The ways [sendMessage] can go. *)
Lemma sendMessage_cases (sv : Services) (p : ConvergePlugin)
    (v : @ChatView num) :
  (String.eqb (trim (inputValue v)) "" || isLoading v = true /\
   sendMessage sv p v = (v, Resolved tt)) \/
  (String.eqb (trim (inputValue v)) "" || isLoading v = false /\
   String.eqb (apiKey (settings p)) "" = true /\
   sendMessage sv p v = (view_notice NoticeConfigureApiKey v, Resolved tt)) \/
  (String.eqb (trim (inputValue v)) "" || isLoading v = false /\
   String.eqb (apiKey (settings p)) "" = false /\
   exists v2, asked v v2 /\
     ((exists e, read_context sv (contextNotes v) "" = Rejected e /\
                 sendMessage sv p v = (v2, Rejected e)) \/
      (exists notesText req,
         read_context sv (contextNotes v) "" = Resolved notesText /\
         req = {| role := system;
                  content := system_content (settings p)
                               (semantic_context (semanticResults v2)
                                  notesText) |} :: messages v2 /\
         sendMessage sv p v
         = (set_isLoading false
              match callLLMStreaming sv req with
              | Resolved response =>
                  set_messages
                    (messages v2 ++ [ {| role := assistant;
                                         content := response |} ])
                    (record_request req v2)
              | Rejected e =>
                  set_messages (removelast (messages v2))
                    (view_notice (NoticeError e) (record_request req v2))
              end,
            Resolved tt)))).
Proof.
  unfold sendMessage.
  destruct (String.eqb (trim (inputValue v)) "" || isLoading v) eqn:Hguard;
    [left; auto|right].
  destruct (String.eqb (apiKey (settings p)) "") eqn:Hkey;
    [left; auto|right].
  split; [reflexivity|]. split; [reflexivity|].
  set (v1 := set_inputValue ""
               (set_messages
                  (messages v ++ [ {| role := user;
                                      content := trim (inputValue v) |} ])
                  (set_isLoading true v))).
  set (v2 := if useSemanticSearch (settings p)
                && (0 <? length (chunks (vaultIndex p)))%nat
             then performSemanticSearch sv p (trim (inputValue v)) v1
             else v1).
  assert (Hv2 : asked v v2).
  { unfold asked, v2. destruct (_ && _) eqn:Hsem; [|repeat split].
    destruct (performSemanticSearch_frame sv p (trim (inputValue v)) v1)
      as (Hm & Hr & Hc).
    rewrite Hm, Hr, Hc. unfold performSemanticSearch.
    destruct (String.eqb (trim (trim (inputValue v))) ""); [repeat split|].
    destruct (length (chunks (vaultIndex p)) =? 0)%nat eqn:Hzero.
    - exfalso. apply andb_true_iff in Hsem as [_ Hpos].
      apply Nat.ltb_lt in Hpos. apply Nat.eqb_eq in Hzero. lia.
    - destruct (getEmbedding sv (trim (inputValue v))); repeat split. }
  exists v2. split; [exact Hv2|].
  destruct Hv2 as (_ & _ & _ & _ & Hc & _). rewrite Hc.
  destruct (read_context sv (contextNotes v) "") as [notesText|e].
  - right. exists notesText. eexists. split; [reflexivity|].
    split; [reflexivity|]. reflexivity.
  - left. exists e. split; reflexivity.
Qed.

End ChatFacts.

Section ChatProperties.
Context {num : Type} `{Number num}.



(** Lists two by two. *)
Lemma pairs_ind {A : Type} (P : list A -> Prop) :
  P [] -> (forall x, P [x]) ->
  (forall x y l, P l -> P (x :: y :: l)) ->
  forall l, P l.
Proof.
  intros Hnil Hone Hstep.
  assert (Hboth : forall l, P l /\ forall x, P (x :: l)).
  { induction l as [|y l [IH1 IH2]]; [split; [exact Hnil|exact Hone]|].
    split; [apply IH2|]. intros x. apply Hstep. exact IH1. }
  intros l. apply Hboth.
Qed.

Lemma exchanges_app (msgs more : list ChatMessage) :
  exchanges msgs = true -> exchanges more = true ->
  exchanges (msgs ++ more) = true.
Proof.
  intros Hmsgs Hmore. revert Hmsgs.
  induction msgs as [|u|u a rest IH] using pairs_ind; intros Hmsgs.
  - exact Hmore.
  - discriminate.
  - cbn [exchanges] in Hmsgs.
    apply andb_true_iff in Hmsgs as [Hua Hrest].
    change ((u :: a :: rest) ++ more) with (u :: a :: (rest ++ more)).
    cbn [exchanges]. rewrite Hua. apply IH. exact Hrest.
Qed.

Lemma exchanges_no_system (msgs : list ChatMessage) :
  exchanges msgs = true ->
  Forall (fun m => is_role system m = false) msgs.
Proof.
  induction msgs as [|u|u a rest IH] using pairs_ind; intros Hmsgs.
  - constructor.
  - discriminate.
  - cbn [exchanges] in Hmsgs.
    apply andb_true_iff in Hmsgs as [Hua Hrest].
    apply andb_true_iff in Hua as [Hu Ha].
    constructor; [|constructor; [|apply IH; exact Hrest]].
    + unfold is_role in *. destruct (role u); congruence.
    + unfold is_role in *. destruct (role a); congruence.
Qed.

Lemma sendMessage_conversation (sv : Services) (p : ConvergePlugin)
    (v : @ChatView num) :
  conversation_ok v -> conversation_ok (fst (sendMessage sv p v)).
Proof.
  intros [Hreqs Hconv].
  destruct (sendMessage_cases sv p v)
    as [[_ Hsend]|[(_ & _ & Hsend)|(Hguard & _ & v2 & Hask & Hcases)]].
  { rewrite Hsend. split; assumption. }
  { rewrite Hsend. split; assumption. }
  apply orb_false_iff in Hguard as [_ Hidle].
  destruct Hconv as [Hwhole|[Hload _]]; [|congruence].
  destruct Hask as (Hm & Hload & _ & Hr & _).
  destruct Hcases as [(e & _ & Hsend)|(notesText & req & _ & Hreq & Hsend)];
    rewrite Hsend; cbn [fst].
  - split; [rewrite Hr; exact Hreqs|]. right. split; [exact Hload|].
    eexists. eexists. split; [exact Hm|]. split; [exact Hwhole|reflexivity].
  - assert (Hnew : Forall well_formed_request (requests v ++ [req])).
    { apply Forall_app. split; [exact Hreqs|]. constructor; [|constructor].
      rewrite Hreq, Hm. eexists. eexists. eexists.
      split; [reflexivity|]. split; [reflexivity|].
      split; [exact Hwhole|reflexivity]. }
    destruct (callLLMStreaming sv req) as [response|e];
      (split; cbn; rewrite ?Hr, ?Hm; [exact Hnew|left]).
    + rewrite <- app_assoc.
      apply exchanges_app; [exact Hwhole|reflexivity].
    + rewrite removelast_last. exact Hwhole.
Qed.

Lemma chat_step_conversation (v : @ChatView num) (a : ChatAction) :
  conversation_ok v -> conversation_ok (chat_step v a).
Proof.
  destruct a as [input|sv p|]; cbn [chat_step].
  - intros Hv. exact Hv.
  - apply sendMessage_conversation.
  - intros [Hreqs _]. split; [exact Hreqs|]. left. reflexivity.
Qed.

(** X20.  The conversation keeps its shape.  Whatever is typed, sent and
    cleared, with whatever services, each call of [sendMessage] running
    to its end before the next action, the messages are whole exchanges
    of a message of the user and an answer of the assistant, followed
    when a call was left with [isLoading] set by the message that waits
    for its answer; no system message is kept among them.  Every request
    that was sent is the system message, whole exchanges and one message
    of the user. *)
Theorem conversation_shape (actions : list ChatAction) :
  let v : @ChatView num := fold_left chat_step actions new_view in
  Forall well_formed_request (requests v) /\
  (exchanges (messages v) = true \/
   isLoading v = true /\
   exists msgs u, messages v = msgs ++ [u] /\ exchanges msgs = true /\
                  is_role user u = true) /\
  Forall (fun m => is_role system m = false) (messages v).
Proof.
  intros v.
  assert (Hgen : forall v0 : @ChatView num,
            conversation_ok v0 ->
            conversation_ok (fold_left chat_step actions v0)).
  { induction actions as [|a actions' IH]; intros v0 Hv0; [exact Hv0|].
    simpl. apply IH. apply chat_step_conversation. exact Hv0. }
  destruct (Hgen new_view) as [Hreqs Hconv].
  { split; [constructor|left; reflexivity]. }
  fold v in Hreqs, Hconv. split; [exact Hreqs|]. split; [exact Hconv|].
  destruct Hconv as [Hw|(_ & msgs & u & -> & Hw & Hu)].
  - apply exchanges_no_system. exact Hw.
  - apply Forall_app. split; [apply exchanges_no_system; exact Hw|].
    constructor; [|constructor].
    unfold is_role in *. destruct (role u); congruence.
Qed.

End ChatProperties.



Lemma split_lines_append (a b : string) :
  split_lines (a ++ nl ++ b) = split_lines a ++ split_lines b.
Proof.
  induction a as [|c a IH].
  - reflexivity.
  - change (String c a ++ nl ++ b)%string with (String c (a ++ nl ++ b)).
    cbn [split_lines]. rewrite IH.
    destruct (Ascii.eqb c newline); [reflexivity|].
    pose proof (split_lines_nonempty a) as Hne.
    destruct (split_lines a) as [|line lines]; [contradiction|reflexivity].
Qed.

Lemma append_nil_r (s : string) : (s ++ "")%string = s.
Proof.
  induction s as [|c s IH]; [reflexivity|].
  change (String c (s ++ "") = String c s). rewrite IH. reflexivity.
Qed.

Lemma sse_line_delta (parse : string -> option string)
    (fullContent line : string) :
  sse_line parse fullContent line
  = (fullContent ++ delta_of parse line)%string.
Proof.
  unfold delta_of, sse_line.
  destruct (String.prefix "data: " line); [|rewrite append_nil_r; reflexivity].
  destruct (String.eqb _ "[DONE]"); [rewrite append_nil_r; reflexivity|].
  destruct (parse _); [reflexivity|rewrite append_nil_r; reflexivity].
Qed.

Lemma sse_lines_deltas (parse : string -> option string)
    (lines : list string) :
  forall fullContent,
    fold_left (sse_line parse) lines fullContent
    = (fullContent ++ String.concat "" (map (delta_of parse) lines))%string.
Proof.
  induction lines as [|line lines IH]; intros fullContent.
  - simpl. rewrite append_nil_r. reflexivity.
  - cbn [fold_left map]. rewrite IH, sse_line_delta, append_assoc.
    f_equal. destruct lines as [|line' lines].
    + simpl. rewrite append_nil_r. reflexivity.
    + rewrite (concat_cons "") by discriminate. reflexivity.
Qed.

Lemma read_stream_lines (parse : string -> option string)
    (pieces : list string) :
  forall fullContent,
    read_stream parse (map Resolved pieces) fullContent
    = Resolved (fold_left (sse_line parse) (flat_map split_lines pieces)
                  fullContent).
Proof.
  induction pieces as [|piece pieces IH]; intros fullContent; [reflexivity|].
  cbn [map read_stream flat_map]. rewrite IH, fold_left_app. reflexivity.
Qed.

(** X21.  What the stream of a completion adds up to.  When the response
    is good and every piece of its body arrives, [callLLMStreaming]
    returns the deltas of the lines of the pieces, one after the other;
    a line adds its delta when it starts with [data: ], is not the
    [DONE] mark and parses, and nothing otherwise.  Where the pieces are
    cut does not matter as long as they are cut after a line feed: two
    pieces of which the first ends in a line feed give what the two give
    as one piece. *)
Theorem callLLMStreaming_deltas {num : Type} `{Number num}
    (sv : @Services num) (msgs : list ChatMessage) (response : HttpResponse)
    (pieces : list string) :
  fetch_completion sv msgs = Resolved response ->
  ok response = true ->
  response_body response = Some (map Resolved pieces) ->
  callLLMStreaming sv msgs
  = Resolved (String.concat ""
                (map (delta_of (parse_delta sv))
                   (flat_map split_lines pieces))) /\
  forall (a b : string) (rest : list (Outcome string)) (fullContent : string),
    read_stream (parse_delta sv)
      (Resolved (a ++ nl)%string :: Resolved b :: rest) fullContent
    = read_stream (parse_delta sv) (Resolved (a ++ nl ++ b)%string :: rest)
        fullContent.
Proof.
  intros Hfetch Hok Hbody. split.
  - unfold callLLMStreaming. rewrite Hfetch. cbn [mbind Outcome_bind].
    rewrite Hok, Hbody. cbn [negb].
    rewrite read_stream_lines, sse_lines_deltas. reflexivity.
  - intros a b rest fullContent. cbn [read_stream].
    rewrite split_lines_append.
    rewrite <- (append_nil_r nl) at 1. rewrite split_lines_append.
    rewrite !fold_left_app. reflexivity.
Qed.

Lemma callLLMStreaming_deltas_witness :
  callLLMStreaming streaming_services sample_request
  = Resolved
      (String.concat ""
         (map (delta_of (parse_delta streaming_services))
            (flat_map split_lines
               [ ("data: Al" ++ nl ++ "data: pha")%string;
                 ("data: [DONE]" ++ nl)%string ]))) /\
  forall (a b : string) (rest : list (Outcome string)) (fullContent : string),
    read_stream (parse_delta streaming_services)
      (Resolved (a ++ nl)%string :: Resolved b :: rest) fullContent
    = read_stream (parse_delta streaming_services)
        (Resolved (a ++ nl ++ b)%string :: rest) fullContent.
Proof.
  apply (callLLMStreaming_deltas streaming_services sample_request
           {| ok := true; status := "200";
              response_text := Resolved ""%string;
              response_body :=
                Some [ Resolved ("data: Al" ++ nl ++ "data: pha")%string;
                       Resolved ("data: [DONE]" ++ nl)%string ] |}
           [ ("data: Al" ++ nl ++ "data: pha")%string;
             ("data: [DONE]" ++ nl)%string ]).
  - reflexivity.
  - reflexivity.
  - reflexivity.
Defined.

(** A chat with the streaming services: the answer is put together from
    the two deltas; a second message typed while nothing is loading is
    answered too. *)
Example chat_sample :
  let v := fold_left chat_step
             [ PressSend streaming_services (sample_plugin sample_index);
               TypeInput "and beta?";
               PressSend streaming_services (sample_plugin sample_index) ]
             sample_view in
  map content (messages v)
  = ["hi"; "hello"; "what is alpha?"; "Alpha"; "and beta?"; "Alpha"]%string /\
  length (requests v) = 2 /\ isLoading v = false.
Proof. vm_compute. repeat split; reflexivity. Qed.
